(** * FALSE to LLVM IR compiler: tokenizer, parser and code generator

    A shallow embedding of the three TypeScript modules of the compiler
    (tokenizer, [parser.ts], compiler) and of the output-name rule of
    [false.ts], with the properties of the specification proved or
    refuted on it.

    Conventions of the embedding.
    - A JavaScript string is the list of its UTF-16 code units
      ([jsstring]); a one-character string is a one-element list.
    - The JavaScript numbers of the program are the values of integer
      literals: integers, or [Infinity] ([number]).  A double
      represents every integer below 2^53 exactly; [parseInt] rounds a
      longer digit run to the nearest double and to [Infinity] above
      the largest one ([toDouble]); [String(x)] prints the shortest
      digits that read back as the same double, with an exponent from
      10^21 on ([numberToString]).
    - A thrown exception is a value of [exn]; code that can throw
      returns a [Result].
    - The tokenizer's pair ([#source], [#pos]) is represented by the
      unread part [#source.slice(#pos)]: [#currentChar] is its head
      ([undefined] when it is empty), [++#pos] drops the head, and
      [#pos < #source.length] holds when it is not empty. *)

From Stdlib Require Import Strings.String Strings.Ascii DecimalString.
From Stdlib Require Import DecimalN.
From Stdlib Require Import List NArith ZArith Bool Lia.
Import ListNotations.

Set Implicit Arguments.
Set Warnings "-register-all".

(** ** JavaScript strings, exceptions *)

Definition jsstring := list N.

(** Code unit of an ASCII character, and the [jsstring] of an ASCII
    literal. *)
Definition ch (a : ascii) : N := N_of_ascii a.
Definition lit (s : string) : jsstring := map N_of_ascii (list_ascii_of_string s).

Arguments ch a%_char.
Arguments lit s%_string.

(** The double quote, U+0022. *)
Definition DQUOTE : N := 34.

(** Every code unit of a JavaScript string is below 2^16. *)
Definition wf_string (s : jsstring) : Prop := Forall (fun c => (c < 65536)%N) s.

Definition jsstring_eqb (a b : jsstring) : bool :=
  if list_eq_dec N.eq_dec a b then true else false.

(** [Error] is [new Error(message)]; [TypeError] is the engine's
    exception for a property read on [null] or [undefined]. *)
Inductive exn : Type :=
| Error (message : jsstring)
| TypeError.

(** The outcome of running a function that may throw.  [OutOfFuel] is
    the outcome of a loop of the embedding that was given too little
    fuel; the totality lemmas below show it is never the outcome of
    [Tokenizer.next] or [parse]. *)
Inductive Result (A : Type) : Type :=
| Ok (a : A)
| Throw (e : exn)
| OutOfFuel.

Arguments Ok {A} a.
Arguments Throw {A} e.
Arguments OutOfFuel {A}.

Definition bind {A B : Type} (r : Result A) (k : A -> Result B) : Result B :=
  match r with
  | Ok a => k a
  | Throw e => Throw e
  | OutOfFuel => OutOfFuel
  end.

Notation "x <- e ;; k" := (bind e (fun x => k))
  (at level 61, e at next level, right associativity).
Notation "' pat <- e ;; k" := (bind e (fun x => match x with pat => k end))
  (at level 61, pat pattern, e at next level, right associativity).

(** ** JavaScript numbers *)

(** The numbers that the program handles are the values of integer
    literals: an integer, or [Infinity] for a literal above the largest
    double.  An integer is read as a number where one is expected. *)
Inductive number : Type :=
| Finite (n : Z)
| Infinity.

Bind Scope Z_scope with number.
Coercion Finite : Z >-> number.

(** [a === b] on two numbers. *)
Definition number_eqb (a b : number) : bool :=
  match a, b with
  | Finite x, Finite y => (x =? y)%Z
  | Infinity, Infinity => true
  | _, _ => false
  end.

(** A non-negative integer rounded to 53 significant bits, ties to the
    even significand: integers below 2^53 are kept; above, the 53
    leading bits are kept and the rest is rounded. *)
Definition round53 (n : Z) : Z :=
  (if n <? 2 ^ 53 then n
   else
     let e := Z.log2 n - 52 in
     let q := n / 2 ^ e in
     let r := n mod 2 ^ e in
     let half := 2 ^ (e - 1) in
     let q := if r <? half then q
              else if half <? r then q + 1
              else if Z.even q then q else q + 1 in
     q * 2 ^ e)%Z.

(** The double nearest to a non-negative integer: its rounding to 53
    bits, or [Infinity] when that is 2^1024 or more, which is above the
    largest double, (2^53 - 1) * 2^971. *)
Definition toDouble (n : Z) : number :=
  let r := round53 n in
  if (r <? 2 ^ 1024)%Z then Finite r else Infinity.

(** [String(x)] of a character that may be [undefined], as a template
    literal interpolates it. *)
Definition showChar (c : option N) : jsstring :=
  match c with
  | Some c => [c]
  | None => lit "undefined"
  end.

(** ** Tokens *)

Module Token.

(** [Token]: the variant [{ type, value }] of [ValueToken] and
    [NonValueToken], one constructor per [TokenType].  [Variable] is
    a reserved word here, hence [Variable_]. *)
Inductive t : Type :=
| Variable_ (value : jsstring)
| String (value : jsstring)
| Integer (value : number)
| OpenBracket
| CloseBracket
| GetVar
| SetVar
| Dup
| Discard
| Swap
| Rotate
| Take
| Plus
| Minus
| Mul
| Div
| Negate
| BitAnd
| BitOr
| BitInvert
| Equal
| GreaterThan
| Execute
| ExecuteIf
| While
| Getc
| Putc
| PrintInt
| Flush
| Asm.

End Token.

Abbreviation Token := Token.t.

(** ** The tokenizer *)

Module Tokenizer.

(** [Tokenizer.symbols], the map from a character to its token. *)
Definition symbols : list (N * Token) :=
  [ (ch "[", Token.OpenBracket);
    (ch "]", Token.CloseBracket);
    (ch ";", Token.GetVar);
    (ch ":", Token.SetVar);
    (ch "$", Token.Dup);
    (ch "%", Token.Discard);
    (ch "\", Token.Swap);
    (ch "@", Token.Rotate);
    (ch "O", Token.Take);
    (ch "+", Token.Plus);
    (ch "-", Token.Minus);
    (ch "*", Token.Mul);
    (ch "/", Token.Div);
    (ch "_", Token.Negate);
    (ch "&", Token.BitAnd);
    (ch "|", Token.BitOr);
    (ch "~", Token.BitInvert);
    (ch "=", Token.Equal);
    (ch ">", Token.GreaterThan);
    (ch "!", Token.Execute);
    (ch "?", Token.ExecuteIf);
    (ch "#", Token.While);
    (ch "^", Token.Getc);
    (ch ",", Token.Putc);
    (ch ".", Token.PrintInt);
    (ch "B", Token.Flush);
    (ch "`", Token.Asm) ].

(** [symbols.get(c)] *)
Fixpoint get (m : list (N * Token)) (c : N) : option Token :=
  match m with
  | [] => None
  | (k, v) :: m' => if (k =? c)%N then Some v else get m' c
  end.

(** [/\s/.test(c)]: the ECMAScript class [\s] is WhiteSpace together
    with LineTerminator, that is TAB, LF, VT, FF, CR, SP, U+00A0,
    U+1680, U+2000 to U+200A, U+2028, U+2029, U+202F, U+205F, U+3000
    and U+FEFF. *)
Definition isSpace (c : N) : bool :=
  ((9 <=? c) && (c <=? 13) || (c =? 32) || (c =? 160) || (c =? 5760)
   || (8192 <=? c) && (c <=? 8202) || (c =? 8232) || (c =? 8233)
   || (c =? 8239) || (c =? 8287) || (c =? 12288) || (c =? 65279))%N.

(** ['0' <= c && c <= '9'] and ['a' <= c && c <= 'z']; both are false
    when [c] is [undefined]. *)
Definition isDigit (c : N) : bool := ((ch "0" <=? c) && (c <=? ch "9"))%N.
Definition isLower (c : N) : bool := ((ch "a" <=? c) && (c <=? ch "z"))%N.

Definition currentChar (s : jsstring) : option N := hd_error s.

(** [#source.substring(start, #pos)], where [from] is the unread part
    at [start] and [to] the unread part at [#pos]. *)
Definition substring (from to : jsstring) : jsstring :=
  firstn (length from - length to) from.

(** [#eat(char, errorMessage?)] *)
Definition eat (char : N) (errorMessage : option jsstring) (s : jsstring)
  : Result jsstring :=
  if match currentChar s with Some c => (c =? char)%N | None => false end
  then Ok (tl s)
  else Throw (Error match errorMessage with
                    | Some m => m
                    | None => lit "Expected " ++ [char] ++ lit ", got "
                                ++ showChar (currentChar s) ++ lit " instead"
                    end).

(** [#nextVariable()].  [next] calls it on a lowercase letter only;
    the second case, the end of the input, is not reached. *)
Definition nextVariable (s : jsstring) : Result (Token * jsstring) :=
  match s with
  | variable :: s' => Ok (Token.Variable_ [variable], s')
  | [] => Ok (Token.Variable_ (lit "undefined"), [])
  end.

(** The loop of [#skipComment]: advance while the current character
    is not the closing brace. *)
Fixpoint skipComment_loop (s : jsstring) : jsstring :=
  match s with
  | c :: s' => if negb (c =? ch "}")%N then skipComment_loop s' else s
  | [] => []
  end.

(** [#skipComment()] *)
Definition skipComment (s : jsstring) : Result jsstring :=
  eat (ch "}") (Some (lit "Unclosed comment")) (skipComment_loop s).

(** The decimal value of a run of digits. *)
Definition decimal (text : jsstring) : Z :=
  fold_left (fun acc c => (10 * acc + (Z.of_N c - 48))%Z) text 0%Z.

(** [parseInt(text)] on a non-empty run of decimal digits, which is
    what [#nextNumber] passes: the number nearest to its decimal
    value. *)
Definition parseInt (text : jsstring) : number := toDouble (decimal text).

(** The loop of [#nextNumber]: advance while the current character is
    a digit. *)
Fixpoint nextNumber_loop (s : jsstring) : jsstring :=
  match s with
  | c :: s' => if isDigit c then nextNumber_loop s' else s
  | [] => []
  end.

(** [#nextNumber()] *)
Definition nextNumber (s : jsstring) : Result (Token * jsstring) :=
  let start := s in
  let s := nextNumber_loop s in
  Ok (Token.Integer (parseInt (substring start s)), s).

(** [#nextChar()] *)
Definition nextChar (s : jsstring) : Result (Token * jsstring) :=
  s <- eat (ch "'") None s ;;
  match s with
  | c :: s' => let value := Z.of_N c in Ok (Token.Integer value, s')
  | [] => Throw (Error (lit "Expected a character"))
  end.

(** The loop of [#nextString]: advance while the current character is
    not a double quote. *)
Fixpoint nextString_loop (s : jsstring) : jsstring :=
  match s with
  | c :: s' => if negb (c =? DQUOTE)%N then nextString_loop s' else s
  | [] => []
  end.

(** [#nextString()] *)
Definition nextString (s : jsstring) : Result (Token * jsstring) :=
  s <- eat DQUOTE None s ;;
  let start := s in
  let s := nextString_loop s in
  let result := substring start s in
  s <- eat DQUOTE None s ;;
  Ok (Token.String result, s).

(** The loop of [next()].  An iteration that does not return consumes
    at least one character, so [length s] iterations are enough. *)
Fixpoint next_loop (fuel : nat) (s : jsstring) : Result (option Token * jsstring) :=
  match s with
  | [] => Ok (None, [])
  | c :: s' =>
      match fuel with
      | O => OutOfFuel
      | S fuel =>
          if isSpace c then next_loop fuel s'
          else if (c =? ch "{")%N then
                 s <- skipComment s ;; next_loop fuel s
          else if (c =? ch "'")%N then
                 '(tok, s) <- nextChar s ;; Ok (Some tok, s)
          else if (c =? DQUOTE)%N then
                 '(tok, s) <- nextString s ;; Ok (Some tok, s)
          else if isDigit c then
                 '(tok, s) <- nextNumber s ;; Ok (Some tok, s)
          else if isLower c then
                 '(tok, s) <- nextVariable s ;; Ok (Some tok, s)
          else match get symbols c with
               | Some sym => Ok (Some sym, s')
               | None => Throw (Error (lit "Invalid character: " ++ [c]))
               end
      end
  end.

(** [next()]: the next token and the tokenizer after it; [None] is
    [{ value: null, done: true }]. *)
Definition next (s : jsstring) : Result (option Token * jsstring) :=
  next_loop (length s) s.

End Tokenizer.

(** ** The syntax tree *)

Module AstType.

(** The enumeration [AstType]. *)
Inductive t : Type :=
| Variable_ | String | Integer | Quote | GetVar | SetVar | Dup | Discard
| Swap | Rotate | Take | Plus | Minus | Mul | Div | Negate | BitAnd | BitOr
| BitInvert | Equal | GreaterThan | Execute | ExecuteIf | While | Getc
| Putc | PrintInt.

Definition eq_dec (a b : t) : {a = b} + {a <> b}.
Proof. decide equality. Defined.

Definition eqb (a b : t) : bool := if eq_dec a b then true else false.

End AstType.

Module AstNode.

(** [AstNode]: the variant [{ type, value }] of [ValueAst] and
    [NonValueAst]; a node without payload has [value: undefined]. *)
Inductive t : Type :=
| Variable_ (value : jsstring)
| String (value : jsstring)
| Integer (value : number)
| Quote (value : list t)
| GetVar
| SetVar
| Dup
| Discard
| Swap
| Rotate
| Take
| Plus
| Minus
| Mul
| Div
| Negate
| BitAnd
| BitOr
| BitInvert
| Equal
| GreaterThan
| Execute
| ExecuteIf
| While
| Getc
| Putc
| PrintInt.

(** [node.type] *)
Definition type (node : t) : AstType.t :=
  match node with
  | Variable_ _ => AstType.Variable_
  | String _ => AstType.String
  | Integer _ => AstType.Integer
  | Quote _ => AstType.Quote
  | GetVar => AstType.GetVar
  | SetVar => AstType.SetVar
  | Dup => AstType.Dup
  | Discard => AstType.Discard
  | Swap => AstType.Swap
  | Rotate => AstType.Rotate
  | Take => AstType.Take
  | Plus => AstType.Plus
  | Minus => AstType.Minus
  | Mul => AstType.Mul
  | Div => AstType.Div
  | Negate => AstType.Negate
  | BitAnd => AstType.BitAnd
  | BitOr => AstType.BitOr
  | BitInvert => AstType.BitInvert
  | Equal => AstType.Equal
  | GreaterThan => AstType.GreaterThan
  | Execute => AstType.Execute
  | ExecuteIf => AstType.ExecuteIf
  | While => AstType.While
  | Getc => AstType.Getc
  | Putc => AstType.Putc
  | PrintInt => AstType.PrintInt
  end.

End AstNode.

Abbreviation AstNode := AstNode.t.

(** ** The parser *)

Module Parser.

(** The fields [#tokenizer] and [#currentToken]. *)
Record t : Type := mk {
  tokenizer : jsstring;
  currentToken : option Token
}.

(** [#next()] *)
Definition next (p : t) : Result t :=
  '(value, tokenizer) <- Tokenizer.next (tokenizer p) ;;
  Ok {| tokenizer := tokenizer; currentToken := value |}.

(** [new Parser(tokenizer)] *)
Definition new (tokenizer : jsstring) : Result t :=
  next {| tokenizer := tokenizer; currentToken := None |}.

(** The local function [instr(type, value)] of [parseStatements]:
    push the node and advance. *)
Definition instr (node : AstNode) (statements : list AstNode) (p : t)
  : Result (list AstNode * t) :=
  let statements := statements ++ [node] in
  p <- next p ;;
  Ok (statements, p).

(** The loop of [parseStatements()], on the array [statements] built
    so far.  One unit of fuel is spent per iteration and per nested
    call; every iteration that goes on pulls a token first. *)
Fixpoint parseStatements_loop (fuel : nat) (statements : list AstNode) (p : t)
  : Result (list AstNode * t) :=
  match fuel with
  | O => OutOfFuel
  | S fuel =>
      let continue '(statements, p) := parseStatements_loop fuel statements p in
      match currentToken p with
      | None => Ok (statements, p)
      | Some tok =>
          match tok with
          | Token.Variable_ value =>
              bind (instr (AstNode.Variable_ value) statements p) continue
          | Token.String value =>
              bind (instr (AstNode.String value) statements p) continue
          | Token.Integer value =>
              bind (instr (AstNode.Integer value) statements p) continue
          | Token.OpenBracket =>
              p <- next p ;;
              '(body, p) <- parseStatements_loop fuel [] p ;;
              bind (instr (AstNode.Quote body) statements p) continue
          | Token.CloseBracket => Ok (statements, p)
          | Token.GetVar => bind (instr AstNode.GetVar statements p) continue
          | Token.SetVar => bind (instr AstNode.SetVar statements p) continue
          | Token.Dup => bind (instr AstNode.Dup statements p) continue
          | Token.Discard => bind (instr AstNode.Discard statements p) continue
          | Token.Swap => bind (instr AstNode.Swap statements p) continue
          | Token.Rotate => bind (instr AstNode.Rotate statements p) continue
          | Token.Take => bind (instr AstNode.Take statements p) continue
          | Token.Plus => bind (instr AstNode.Plus statements p) continue
          | Token.Minus => bind (instr AstNode.Minus statements p) continue
          | Token.Mul => bind (instr AstNode.Mul statements p) continue
          | Token.Div => bind (instr AstNode.Div statements p) continue
          | Token.Negate => bind (instr AstNode.Negate statements p) continue
          | Token.BitAnd => bind (instr AstNode.BitAnd statements p) continue
          | Token.BitOr => bind (instr AstNode.BitOr statements p) continue
          | Token.BitInvert => bind (instr AstNode.BitInvert statements p) continue
          | Token.Equal => bind (instr AstNode.Equal statements p) continue
          | Token.GreaterThan => bind (instr AstNode.GreaterThan statements p) continue
          | Token.Execute => bind (instr AstNode.Execute statements p) continue
          | Token.ExecuteIf => bind (instr AstNode.ExecuteIf statements p) continue
          | Token.While => bind (instr AstNode.While statements p) continue
          | Token.Getc => bind (instr AstNode.Getc statements p) continue
          | Token.Putc => bind (instr AstNode.Putc statements p) continue
          | Token.PrintInt => bind (instr AstNode.PrintInt statements p) continue
          | Token.Flush => p <- next p ;; continue (statements, p)
          | Token.Asm =>
              p <- next p ;;
              match currentToken p with
              | None => Throw TypeError
              | Some (Token.Integer _) =>
                  _ <- next p ;;
                  Throw (Error (lit "Assembly is not supported"))
              | Some _ => Throw (Error (lit "Syntax error: Expected a short"))
              end
          end
      end
  end.

(** [parseStatements()], with the fuel of its loop. *)
Definition parseStatements (fuel : nat) (p : t) : Result (list AstNode * t) :=
  parseStatements_loop fuel [] p.

End Parser.

(** [parse(source)], together with the parser it leaves behind. *)
Definition parse_run (source : jsstring) : Result (list AstNode * Parser.t) :=
  parser <- Parser.new source ;;
  Parser.parseStatements (S (length source)) parser.

(** [parse(source)] *)
Definition parse (source : jsstring) : Result (list AstNode) :=
  '(statements, _) <- parse_run source ;;
  Ok statements.

(** ** The code generator *)

(** [n.toString()] of a non-negative integer and [String(n)] of an
    integer, in decimal. *)
Definition toStringN (n : N) : jsstring :=
  lit (NilEmpty.string_of_uint (N.to_uint n)).

Definition toStringZ (n : Z) : jsstring :=
  lit (NilEmpty.string_of_int (Z.to_int n)).

(** *** [String(x)] of a number *)

(** Step 5 of [Number::toString] for a double [x] that is an integer:
    the integer with the fewest significant digits that rounds to [x];
    of two such, the nearer to [x], and of two equally near, the one
    whose last significant digit is even.  The search goes from one
    significant digit up: [p] is the number of zeros at the end, [lo]
    and [hi] are the two multiples of [10^p] around [x]. *)
Fixpoint shortest (p : nat) (x : Z) : Z :=
  let unit := (10 ^ Z.of_nat p)%Z in
  let lo := (x / unit * unit)%Z in
  let hi := (lo + unit)%Z in
  let okLo := (round53 lo =? x)%Z in
  let okHi := (round53 hi =? x)%Z in
  if okLo && okHi then
    if (x - lo <? hi - x)%Z then lo
    else if (hi - x <? x - lo)%Z then hi
    else if Z.even (x / unit) then lo else hi
  else if okLo then lo
  else if okHi then hi
  else match p with
       | O => x
       | S p => shortest p x
       end.

(** A decimal text without the zeros at its end. *)
Fixpoint dropZeros (text : jsstring) : jsstring :=
  match text with
  | c :: text' => if (c =? 48)%N then dropZeros text' else text
  | [] => []
  end.

Definition significand (text : jsstring) : jsstring := rev (dropZeros (rev text)).

(** Steps 6 to 10 for a double that is an integer of 2^53 or more: up
    to 21 digits the digits themselves, zeros included; from 22 digits
    on the first significant digit, the other ones after a point if
    there are any, and the exponent. *)
Definition doubleToString (x : Z) : jsstring :=
  let text := toStringN (Z.to_N (shortest (length (toStringN (Z.to_N x)) - 1) x)) in
  if (length text <=? 21)%nat then text
  else match significand text with
       | d :: ds =>
           [d] ++ (match ds with [] => [] | _ => lit "." ++ ds end)
             ++ lit "e+" ++ toStringN (N.of_nat (length text - 1))
       | [] => text
       end.

(** [String(x)], as a template literal interpolates a number: an
    integer below 2^53 in absolute value is a double and is printed
    with all its digits. *)
Definition numberToString (x : number) : jsstring :=
  match x with
  | Infinity => lit "Infinity"
  | Finite z =>
      if (Z.abs z <? 2 ^ 53)%Z then toStringZ z
      else (if (z <? 0)%Z then lit "-" else []) ++ doubleToString (Z.abs z)
  end.

(** [lines.join(sep)] *)
Fixpoint join (sep : jsstring) (lines : list jsstring) : jsstring :=
  match lines with
  | [] => []
  | [line] => line
  | line :: lines => line ++ sep ++ join sep lines
  end.

(** The line feed of ['\n']. *)
Definition LF : jsstring := [10%N].

(** *** UTF-8 ([TextEncoder.encode]) *)

Definition isHighSurrogate (c : N) : bool := ((55296 <=? c) && (c <=? 56319))%N.
Definition isLowSurrogate (c : N) : bool := ((56320 <=? c) && (c <=? 57343))%N.

(** The scalar values of a string: a surrogate pair is one code point,
    a lone surrogate is replaced by U+FFFD. *)
Fixpoint codePoints (s : jsstring) : list N :=
  match s with
  | [] => []
  | c :: s' =>
      if isHighSurrogate c then
        match s' with
        | d :: s'' =>
            if isLowSurrogate d
            then (65536 + (c - 55296) * 1024 + (d - 56320))%N :: codePoints s''
            else 65533%N :: codePoints s'
        | [] => [65533%N]
        end
      else if isLowSurrogate c then 65533%N :: codePoints s'
      else c :: codePoints s'
  end.

Definition utf8 (cp : N) : list N :=
  (if cp <? 128 then [cp]
   else if cp <? 2048 then [192 + cp / 64; 128 + cp mod 64]
   else if cp <? 65536 then [224 + cp / 4096; 128 + (cp / 64) mod 64; 128 + cp mod 64]
   else [240 + cp / 262144; 128 + (cp / 4096) mod 64; 128 + (cp / 64) mod 64;
         128 + cp mod 64])%N.

(** [[...new TextEncoder().encode(str)]] *)
Definition encode (str : jsstring) : list N := flat_map utf8 (codePoints str).

(** [code.toString(16)] of a byte. *)
Definition hexDigit (d : N) : N := (if d <? 10 then 48 + d else 87 + d)%N.

Definition toString16 (code : N) : jsstring :=
  (if code <? 16 then [hexDigit code]
   else [hexDigit (code / 16); hexDigit (code mod 16)])%N.

(** [encode_string(str)] *)
Definition encode_string (str : jsstring) : N * jsstring :=
  let enc := encode str in
  let enc_str :=
    concat (map (fun code =>
                   let hex := toString16 code in
                   let hex := if (length hex =? 1)%nat then lit "0" ++ hex else hex in
                   lit "\" ++ hex) enc) in
  (N.of_nat (length enc) + 1, enc_str ++ lit "\00")%N.

(** [varName(name)] *)
Definition varName (name : jsstring) : jsstring := lit "@var_" ++ name.

(** *** Structural comparison of quotation bodies *)

(** The values of the field [value] of a node. *)
Inductive Value : Type :=
| VUndefined
| VString (s : jsstring)
| VNumber (n : number)
| VArray (a : list AstNode).

(** [node.value] *)
Definition value (node : AstNode) : Value :=
  match node with
  | AstNode.Variable_ v => VString v
  | AstNode.String v => VString v
  | AstNode.Integer v => VNumber v
  | AstNode.Quote v => VArray v
  | _ => VUndefined
  end.

Inductive JsType : Type := TUndefined | TString | TNumber | TObject.

Definition typeof (v : Value) : JsType :=
  match v with
  | VUndefined => TUndefined
  | VString _ => TString
  | VNumber _ => TNumber
  | VArray _ => TObject
  end.

Definition JsType_eqb (a b : JsType) : bool :=
  match a, b with
  | TUndefined, TUndefined | TString, TString | TNumber, TNumber
  | TObject, TObject => true
  | _, _ => false
  end.

Definition isArray (v : Value) : bool :=
  match v with VArray _ => true | _ => false end.

(** [a === b] on values that are not both arrays. *)
Definition strictEq (a b : Value) : bool :=
  match a, b with
  | VUndefined, VUndefined => true
  | VString x, VString y => jsstring_eqb x y
  | VNumber x, VNumber y => number_eqb x y
  | _, _ => false
  end.

(** [astEqual(x.value, y.value)] for two nodes [x] and [y]: the
    recursive call of [astEqual], by recursion on the node.  The body
    of the [for] loop returns in its first iteration, so of two arrays
    only the heads are ever compared. *)
Fixpoint astEqualValues (x y : AstNode) {struct x} : bool :=
  if negb (JsType_eqb (typeof (value x)) (typeof (value y))) then false
  else match x, y with
       | AstNode.Quote a, AstNode.Quote b =>
           if negb (length a =? length b)%nat then false
           else match a, b with
                | a0 :: _, b0 :: _ =>
                    if negb (AstType.eqb (AstNode.type a0) (AstNode.type b0))
                    then false
                    else astEqualValues a0 b0
                | _, _ => true
                end
       | _, _ => strictEq (value x) (value y)
       end.

(** [astEqual(a, b)] *)
Definition astEqual (a b : Value) : bool :=
  if negb (JsType_eqb (typeof a) (typeof b)) then false
  else if negb (isArray a && isArray b) then strictEq a b
  else match a, b with
       | VArray a, VArray b =>
           if negb (length a =? length b)%nat then false
           else match a, b with
                | a0 :: _, b0 :: _ =>
                    if negb (AstType.eqb (AstNode.type a0) (AstNode.type b0))
                    then false
                    else astEqualValues a0 b0
                | _, _ => true
                end
       | _, _ => false
       end.

(** *** Name generators *)

Module TemporaryGenerator.

(** The field [#id] and the prefix of [#template]; every generator of
    the compiler is built from a string, for which the template is
    [id => template + id.toString()]. *)
Record t : Type := mk {
  id : N;
  template : jsstring
}.

Definition new (template : jsstring) : t := {| id := 1; template := template |}.

(** [next()]: the name, and the generator after [#id++]. *)
Definition next (g : t) : jsstring * t :=
  (template g ++ toStringN (id g), {| id := id g + 1; template := template g |}).

End TemporaryGenerator.

(** *** A JavaScript [Map] with string keys, in insertion order *)

Module StringMap.

Definition t : Type := list (jsstring * jsstring).

Fixpoint get (m : t) (key : jsstring) : option jsstring :=
  match m with
  | [] => None
  | (k, v) :: m' => if jsstring_eqb k key then Some v else get m' key
  end.

Fixpoint set (m : t) (key v : jsstring) : t :=
  match m with
  | [] => [(key, v)]
  | (k, w) :: m' =>
      if jsstring_eqb k key then (k, v) :: m' else (k, w) :: set m' key v
  end.

End StringMap.

(** A JavaScript string is truthy when it is not empty. *)
Definition truthy (name : option jsstring) : bool :=
  match name with
  | Some (_ :: _) => true
  | _ => false
  end.

(** *** The compiler *)

Module Compiler.

(** The fields of [Compiler]: [#functions] holds
    [[nodes, name, compiled]], [#strings] maps a literal to its
    symbol. *)
Record t : Type := mk {
  functions : list (list AstNode * jsstring * jsstring);
  strings : StringMap.t;
  lambdaNameGenerator : TemporaryGenerator.t;
  stringNameGenerator : TemporaryGenerator.t
}.

(** [new Compiler()] *)
Definition new : t :=
  {| functions := [];
     strings := [];
     lambdaNameGenerator := TemporaryGenerator.new (lit "@lambda_");
     stringNameGenerator := TemporaryGenerator.new (lit "@str_") |}.

(** The locals of one call of [#compile]. *)
Record Scope : Type := mkScope {
  temporaryGenerator : TemporaryGenerator.t;
  labelGenerator : TemporaryGenerator.t;
  instructions : list jsstring
}.

Definition newScope : Scope :=
  {| temporaryGenerator := TemporaryGenerator.new (lit "%t");
     labelGenerator := TemporaryGenerator.new (lit "label_");
     instructions := [] |}.

(** [temporaryGenerator.next()], [labelGenerator.next()] and
    [instructions.push(...)]. *)
Definition nextTemporary (sc : Scope) : jsstring * Scope :=
  let '(name, g) := TemporaryGenerator.next (temporaryGenerator sc) in
  (name, {| temporaryGenerator := g;
            labelGenerator := labelGenerator sc;
            instructions := instructions sc |}).

Definition nextLabel (sc : Scope) : jsstring * Scope :=
  let '(name, g) := TemporaryGenerator.next (labelGenerator sc) in
  (name, {| temporaryGenerator := temporaryGenerator sc;
            labelGenerator := g;
            instructions := instructions sc |}).

Definition push (sc : Scope) (lines : list jsstring) : Scope :=
  {| temporaryGenerator := temporaryGenerator sc;
     labelGenerator := labelGenerator sc;
     instructions := instructions sc ++ lines |}.

(** The local function [basicOp(op)] of [#compile]. *)
Definition basicOp (op : jsstring) (sc : Scope) : Scope :=
  let '(second, sc) := nextTemporary sc in
  let '(first, sc) := nextTemporary sc in
  let '(result, sc) := nextTemporary sc in
  push sc
    [ second ++ lit " = call i32 @stack_pop_int()";
      first ++ lit " = call i32 @stack_pop_int()";
      result ++ lit " = " ++ op ++ lit " i32 " ++ first ++ lit ", " ++ second;
      lit "call void @stack_push_int(i32 " ++ result ++ lit ")" ].

(** The local function [cmp(op)] of [#compile]. *)
Definition cmp (op : jsstring) (sc : Scope) : Scope :=
  let '(second, sc) := nextTemporary sc in
  let '(first, sc) := nextTemporary sc in
  let '(result, sc) := nextTemporary sc in
  let '(cast, sc) := nextTemporary sc in
  push sc
    [ second ++ lit " = call i32 @stack_pop_int()";
      first ++ lit " = call i32 @stack_pop_int()";
      result ++ lit " = icmp " ++ op ++ lit " i32 " ++ first ++ lit ", " ++ second;
      cast ++ lit " = sext i1 " ++ result ++ lit " to i32";
      lit "call void @stack_push_int(i32 " ++ cast ++ lit ")" ].

(** [#getConstString(str)] *)
Definition getConstString (str : jsstring) (c : t) : jsstring * t :=
  let name := StringMap.get (strings c) str in
  if truthy name then
    (match name with Some name => name | None => [] end, c)
  else
    let '(name, g) := TemporaryGenerator.next (stringNameGenerator c) in
    (name, {| functions := functions c;
              strings := StringMap.set (strings c) str name;
              lambdaNameGenerator := lambdaNameGenerator c;
              stringNameGenerator := g |}).

(** [#getFunction(nodes)], given [#compile] as [compile_]. *)
Definition getFunction (compile_ : list AstNode -> t -> jsstring * t)
  (nodes : list AstNode) (c : t) : jsstring * t :=
  let name :=
    option_map (fun entry : list AstNode * jsstring * jsstring => snd (fst entry))
      (find (fun entry : list AstNode * jsstring * jsstring =>
               astEqual (VArray nodes) (VArray (fst (fst entry))))
         (functions c)) in
  if truthy name then
    (match name with Some name => name | None => [] end, c)
  else
    let '(name, g) := TemporaryGenerator.next (lambdaNameGenerator c) in
    let c := {| functions := functions c;
                strings := strings c;
                lambdaNameGenerator := g;
                stringNameGenerator := stringNameGenerator c |} in
    let '(body, c) := compile_ nodes c in
    let compiled :=
      lit "define void " ++ name ++ lit "() {" ++ LF ++ lit "entry:" ++ LF
        ++ body ++ LF ++ lit "ret void" ++ LF ++ lit "}" in
    (name, {| functions := functions c ++ [(nodes, name, compiled)];
              strings := strings c;
              lambdaNameGenerator := lambdaNameGenerator c;
              stringNameGenerator := stringNameGenerator c |}).

(** One iteration of the [for] loop of [#compile]: the [switch] on
    [node.type]. *)
Fixpoint compileNode (node : AstNode) (c : t) (sc : Scope) {struct node}
  : t * Scope :=
  match node with
  | AstNode.Variable_ value =>
      (c, push sc [ lit "call void @stack_push_ref(%union.FalseValue* "
                      ++ varName value ++ lit ")" ])
  | AstNode.String value =>
      let '(strName, c) := getConstString value c in
      (c, push sc [ lit "call i32 @printf(i8* @.fmt, i8* " ++ strName ++ lit ")" ])
  | AstNode.Integer value =>
      (c, push sc [ lit "call void @stack_push_int(i32 " ++ numberToString value
                      ++ lit ")" ])
  | AstNode.Quote value =>
      let compile_ (nodes : list AstNode) (c : t) : jsstring * t :=
        let '(c, sc) :=
          (fix loop (nodes : list AstNode) (c : t) (sc : Scope) : t * Scope :=
             match nodes with
             | [] => (c, sc)
             | node :: nodes =>
                 let '(c, sc) := compileNode node c sc in loop nodes c sc
             end) nodes c newScope in
        (join LF (instructions sc), c) in
      let '(name, c) := getFunction compile_ value c in
      (c, push sc [ lit "call void @stack_push_quote(void()* " ++ name ++ lit ")" ])
  | AstNode.GetVar =>
      let '(varRef, sc) := nextTemporary sc in
      let '(value, sc) := nextTemporary sc in
      (c, push sc
            [ varRef ++ lit " = call %union.FalseValue* @stack_pop_ref()";
              value ++ lit " = load %union.FalseValue, %union.FalseValue* " ++ varRef;
              lit "call void @stack_push_any(%union.FalseValue " ++ value ++ lit ")" ])
  | AstNode.SetVar =>
      let '(varRef, sc) := nextTemporary sc in
      let '(value, sc) := nextTemporary sc in
      (c, push sc
            [ varRef ++ lit " = call %union.FalseValue* @stack_pop_ref()";
              value ++ lit " = call %union.FalseValue @stack_pop_any()";
              lit "store %union.FalseValue " ++ value ++ lit ", %union.FalseValue* "
                ++ varRef ])
  | AstNode.Dup =>
      let '(value, sc) := nextTemporary sc in
      (c, push sc
            [ value ++ lit " = call %union.FalseValue @stack_peek_any(i32 0)";
              lit "call void @stack_push_any(%union.FalseValue " ++ value ++ lit ")" ])
  | AstNode.Discard =>
      (c, push sc [ lit "call %union.FalseValue @stack_pop_any()" ])
  | AstNode.Swap =>
      let '(first, sc) := nextTemporary sc in
      let '(second, sc) := nextTemporary sc in
      (c, push sc
            [ first ++ lit " = call %union.FalseValue @stack_pop_any()";
              second ++ lit " = call %union.FalseValue @stack_pop_any()";
              lit "call void @stack_push_any(%union.FalseValue " ++ first ++ lit ")";
              lit "call void @stack_push_any(%union.FalseValue " ++ second ++ lit ")" ])
  | AstNode.Rotate =>
      let '(first, sc) := nextTemporary sc in
      let '(second, sc) := nextTemporary sc in
      let '(third, sc) := nextTemporary sc in
      (c, push sc
            [ first ++ lit " = call %union.FalseValue @stack_pop_any()";
              second ++ lit " = call %union.FalseValue @stack_pop_any()";
              third ++ lit " = call %union.FalseValue @stack_pop_any()";
              lit "call void @stack_push_any(%union.FalseValue " ++ second ++ lit ")";
              lit "call void @stack_push_any(%union.FalseValue " ++ first ++ lit ")";
              lit "call void @stack_push_any(%union.FalseValue " ++ third ++ lit ")" ])
  | AstNode.Take =>
      let '(depth, sc) := nextTemporary sc in
      let '(value, sc) := nextTemporary sc in
      (c, push sc
            [ depth ++ lit " = call i32 @stack_pop_int()";
              value ++ lit " = call %union.FalseValue @stack_peek_any(i32 " ++ depth
                ++ lit ")";
              lit "call void @stack_push_any(%union.FalseValue " ++ value ++ lit ")" ])
  | AstNode.Plus => (c, basicOp (lit "add") sc)
  | AstNode.Minus => (c, basicOp (lit "sub") sc)
  | AstNode.Mul => (c, basicOp (lit "mul") sc)
  | AstNode.Div => (c, basicOp (lit "sdiv") sc)
  | AstNode.Negate =>
      let '(value, sc) := nextTemporary sc in
      let '(temp, sc) := nextTemporary sc in
      (c, push sc
            [ value ++ lit " = call i32 @stack_pop_int()";
              temp ++ lit " = sub i32 0, " ++ value;
              lit "call void @stack_push_int(i32 " ++ temp ++ lit ")" ])
  | AstNode.BitAnd => (c, basicOp (lit "and") sc)
  | AstNode.BitOr => (c, basicOp (lit "or") sc)
  | AstNode.BitInvert =>
      let '(value, sc) := nextTemporary sc in
      let '(temp, sc) := nextTemporary sc in
      (c, push sc
            [ value ++ lit " = call i32 @stack_pop_int()";
              temp ++ lit " = xor i32 -1, " ++ value;
              lit "call void @stack_push_int(i32 " ++ temp ++ lit ")" ])
  | AstNode.Equal => (c, cmp (lit "eq") sc)
  | AstNode.GreaterThan => (c, cmp (lit "sgt") sc)
  | AstNode.Execute =>
      let '(value, sc) := nextTemporary sc in
      (c, push sc
            [ value ++ lit " = call void()* @stack_pop_quote()";
              lit "call void " ++ value ++ lit "()" ])
  | AstNode.ExecuteIf =>
      let '(iftrue, sc) := nextLabel sc in
      let '(iffalse, sc) := nextLabel sc in
      let '(quote, sc) := nextTemporary sc in
      let '(value, sc) := nextTemporary sc in
      let '(cond, sc) := nextTemporary sc in
      (c, push sc
            [ quote ++ lit " = call void()* @stack_pop_quote()";
              value ++ lit " = call i32 @stack_pop_int()";
              cond ++ lit " = icmp ne i32 " ++ value ++ lit ", 0";
              lit "br i1 " ++ cond ++ lit ", label %" ++ iftrue ++ lit ", label %"
                ++ iffalse;
              iftrue ++ lit ":";
              lit "call void " ++ quote ++ lit "()";
              lit "br label %" ++ iffalse;
              iffalse ++ lit ":" ])
  | AstNode.While =>
      let '(loop, sc) := nextLabel sc in
      let '(iftrue, sc) := nextLabel sc in
      let '(iffalse, sc) := nextLabel sc in
      let '(body, sc) := nextTemporary sc in
      let '(cond_quote, sc) := nextTemporary sc in
      let '(value, sc) := nextTemporary sc in
      let '(cond, sc) := nextTemporary sc in
      (c, push sc
            [ body ++ lit " = call void()* @stack_pop_quote()";
              cond_quote ++ lit " = call void()* @stack_pop_quote()";
              lit "br label %" ++ loop;
              loop ++ lit ":";
              lit "call void " ++ cond_quote ++ lit "()";
              value ++ lit " = call i32 @stack_pop_int()";
              cond ++ lit " = icmp ne i32 " ++ value ++ lit ", 0";
              lit "br i1 " ++ cond ++ lit ", label %" ++ iftrue ++ lit ", label %"
                ++ iffalse;
              iftrue ++ lit ":";
              lit "call void " ++ body ++ lit "()";
              lit "br label %" ++ loop;
              iffalse ++ lit ":" ])
  | AstNode.Getc =>
      let '(temp, sc) := nextTemporary sc in
      (c, push sc
            [ temp ++ lit " = call i32 @getchar()";
              lit "call void @stack_push_int(i32 " ++ temp ++ lit ")" ])
  | AstNode.Putc =>
      let '(temp, sc) := nextTemporary sc in
      (c, push sc
            [ temp ++ lit " = call i32 @stack_pop_int()";
              lit "call i32 @putchar(i32 " ++ temp ++ lit ")" ])
  | AstNode.PrintInt =>
      let '(temp, sc) := nextTemporary sc in
      (c, push sc
            [ temp ++ lit " = call i32 @stack_pop_int()";
              lit "call i32 @printf(i8* @.num, i32 " ++ temp ++ lit ")" ])
  end.

(** The [for] loop of [#compile]. *)
Fixpoint compileNodes (nodes : list AstNode) (c : t) (sc : Scope) : t * Scope :=
  match nodes with
  | [] => (c, sc)
  | node :: nodes =>
      let '(c, sc) := compileNode node c sc in compileNodes nodes c sc
  end.

(** [#compile(nodes)] *)
Definition compile_ (nodes : list AstNode) (c : t) : jsstring * t :=
  let '(c, sc) := compileNodes nodes c newScope in
  (join LF (instructions sc), c).

(** The declaration lines of the interned strings in [compile]. *)
Definition stringConstant (entry : jsstring * jsstring) : jsstring :=
  let '(str, name) := entry in
  let '(len, enc) := encode_string str in
  name ++ lit " = private unnamed_addr constant [" ++ toStringN len
    ++ lit " x i8] c" ++ [DQUOTE] ++ enc ++ [DQUOTE].

(** [definePush(name, type)], [definePop(name, type)] and
    [definePeek(name, type)]: the text of the helpers of the run-time
    stack.  Each template starts with a line feed. *)
Definition definePush (name type : jsstring) : jsstring :=
  join LF
    [ [];
      lit "define void " ++ name ++ lit "(" ++ type ++ lit " %value) {";
      lit "entry:";
      lit "  %stack_size = load i64, i64* @stack_size";
      lit "  %stack_capacity0 = load i64, i64* @stack_capacity";
      lit "  %cond = icmp eq i64 %stack_size, %stack_capacity0";
      lit "  br i1 %cond, label %increase_capacity, label %set_value";
      lit "  ";
      lit "increase_capacity:";
      lit "  %buffer0 = load ptr, ptr @stack";
      lit "  %new_capacity = shl i64 %stack_capacity0, 1";
      lit "  %new_buffer_size = mul i64 %new_capacity, 8";
      lit "  %new_buffer = call ptr @realloc(ptr %buffer0, i64 %new_buffer_size)";
      lit "  store ptr %new_buffer, ptr @stack";
      lit "  store i64 %new_capacity, i64* @stack_capacity";
      lit "  br label %set_value";
      [];
      lit "set_value:";
      lit "  %buffer1 = load ptr, ptr @stack";
      lit "  %top = getelementptr %union.FalseValue, %union.FalseValue* %buffer1, i64 %stack_size";
      lit "  %cast = bitcast %union.FalseValue* %top to " ++ type ++ lit "*";
      lit "  store " ++ type ++ lit " %value, " ++ type ++ lit "* %cast";
      lit "  %new_size = add i64 %stack_size, 1";
      lit "  store i64 %new_size, i64* @stack_size";
      lit "  ret void";
      lit "}" ].

Definition definePop (name type : jsstring) : jsstring :=
  join LF
    [ [];
      lit "define " ++ type ++ lit " " ++ name ++ lit "() {";
      lit "entry:";
      lit "  %stack_size = load i64, i64* @stack_size";
      lit "  %new_size = sub i64 %stack_size, 1";
      lit "  store i64 %new_size, i64* @stack_size";
      lit "  %buffer = load ptr, ptr @stack";
      lit "  %top = getelementptr %union.FalseValue, ptr %buffer, i64 %new_size";
      lit "  %cast = bitcast %union.FalseValue* %top to " ++ type ++ lit "*";
      lit "  %value = load " ++ type ++ lit ", ptr %cast";
      lit "  ret " ++ type ++ lit " %value";
      lit "}" ].

Definition definePeek (name type : jsstring) : jsstring :=
  join LF
    [ [];
      lit "define " ++ type ++ lit " " ++ name ++ lit "(i32 %depth) {";
      lit "entry:";
      lit "  %stack_size = load i64, i64* @stack_size";
      lit "  %0 = sext i32 %depth to i64";
      lit "  %1 = sub i64 %stack_size, %0";
      lit "  %peek_size = sub i64 %1, 1";
      lit "  %buffer = load ptr, ptr @stack";
      lit "  %top = getelementptr %union.FalseValue, ptr %buffer, i64 %peek_size";
      lit "  %cast = bitcast %union.FalseValue* %top to " ++ type ++ lit "*";
      lit "  %value = load " ++ type ++ lit ", ptr %cast";
      lit "  ret " ++ type ++ lit " %value";
      lit "}" ].

(** The constant [head]: the prologue of every module.  It starts
    and ends with a line feed. *)
Definition head : jsstring :=
  join LF
    [ [];
      lit "@.fmt = private unnamed_addr constant [3 x i8] c" ++ [DQUOTE]
        ++ lit "%s\00" ++ [DQUOTE];
      lit "@.num = private unnamed_addr constant [3 x i8] c" ++ [DQUOTE]
        ++ lit "%d\00" ++ [DQUOTE];
      [];
      lit "declare ptr @malloc(i64)";
      lit "declare ptr @realloc(ptr, i64)";
      lit "declare void @free(ptr)";
      lit "declare i32 @putchar(i32)";
      lit "declare i32 @getchar()";
      lit "declare i32 @printf(i8*, ...)";
      [];
      lit "%union.FalseValue = type { [8 x i8] }";
      [];
      lit "@stack = global %union.FalseValue* null";
      lit "@stack_size = global i64 0";
      lit "@stack_capacity = global i64 0";
      [];
      lit "define void @stack_init() {";
      lit "entry:";
      lit "  store i64 16, i64* @stack_capacity";
      lit "  %stack_capacity = load i64, i64* @stack_capacity";
      lit "  %buffer_size = mul i64 %stack_capacity, 8";
      lit "  %buffer = call ptr @malloc(i64 %buffer_size)";
      lit "  store i64 0, i64* @stack_size";
      lit "  store ptr %buffer, %union.FalseValue** @stack";
      lit "  ret void";
      lit "}";
      [];
      definePush (lit "@stack_push_any") (lit "%union.FalseValue");
      definePush (lit "@stack_push_int") (lit "i32");
      definePush (lit "@stack_push_ref") (lit "%union.FalseValue*");
      definePush (lit "@stack_push_quote") (lit "void()*");
      [];
      definePop (lit "@stack_pop_any") (lit "%union.FalseValue");
      definePop (lit "@stack_pop_int") (lit "i32");
      definePop (lit "@stack_pop_ref") (lit "%union.FalseValue*");
      definePop (lit "@stack_pop_quote") (lit "void()*");
      [];
      definePeek (lit "@stack_peek_any") (lit "%union.FalseValue");
      definePeek (lit "@stack_peek_int") (lit "i32");
      definePeek (lit "@stack_peek_ref") (lit "%union.FalseValue*");
      definePeek (lit "@stack_peek_quote") (lit "void()*");
      [];
      lit "define void @stack_free() {";
      lit "entry:";
      lit "  %buffer = load ptr, ptr @stack";
      lit "  call void @free(ptr %buffer)";
      lit "  ret void";
      lit "}";
      [];
      join LF
        (map (fun a => varName [a] ++ lit " = private global %union.FalseValue { [8 x i8] zeroinitializer }")
           (lit "abcdefghijklmnopqrstuvwxyz"));
      [] ].

(** [compile(ast)] *)
Definition compile (ast : list AstNode) (c : t) : jsstring * t :=
  let '(topLevel, c) := compile_ ast c in
  let strings := map stringConstant (strings c) in
  (head ++ join LF
     (strings ++ map (fun x : list AstNode * jsstring * jsstring => snd x)
                   (functions c)
        ++ [ lit "define i32 @main() {";
             lit "call void @stack_init()";
             topLevel;
             lit "call void @stack_free()";
             lit "ret i32 0";
             lit "}" ]), c).

End Compiler.

(** The exported [compile(source)]. *)
Definition compile (source : list AstNode) : jsstring :=
  fst (Compiler.compile source Compiler.new).

(** ** The output file name of the command line *)

(** A character that the [.] of a regular expression does not match. *)
Definition isLineTerminator (c : N) : bool :=
  ((c =? 10) || (c =? 13) || (c =? 8232) || (c =? 8233))%N.

(** [filename.replace(/\..+$/, '.ll')]: the leftmost dot that is
    followed, up to the end of the string, by one or more characters
    none of which is a line terminator is replaced with what follows it
    by [.ll]; with no such dot the string is returned as it is. *)
Fixpoint replaceExtension (filename : jsstring) : jsstring :=
  match filename with
  | [] => []
  | c :: rest =>
      if ((c =? ch ".")%N && negb (length rest =? 0)%nat
          && forallb (fun d => negb (isLineTerminator d)) rest)%bool
      then lit ".ll"
      else c :: replaceExtension rest
  end.

(** [process.argv[3] ?? filename.replace(/\..+$/, '.ll')] *)
Definition outFile (argv3 : option jsstring) (filename : jsstring) : jsstring :=
  match argv3 with
  | Some out => out
  | None => replaceExtension filename
  end.

(** ** Notions used by the statements *)

(** The six ASCII white-space characters: space, tab, line feed,
    carriage return, form feed and vertical tab. *)
Definition isAsciiSpace (c : N) : bool :=
  ((c =? 32) || (c =? 9) || (c =? 10) || (c =? 13) || (c =? 12) || (c =? 11))%N.

(** A character that starts a comment, a character literal, a string,
    a digit run or a variable, or is an entry of the symbol table. *)
Definition startsToken (c : N) : bool :=
  ((c =? ch "{") || (c =? ch "'") || (c =? DQUOTE))%N
  || Tokenizer.isDigit c || Tokenizer.isLower c
  || match Tokenizer.get Tokenizer.symbols c with Some _ => true | None => false end.

(** The node that [parseStatements] pushes with [instr] for a token
    that stands for itself; [None] for the four tokens that the parser
    handles otherwise. *)
Definition atom (tok : Token) : option AstNode :=
  match tok with
  | Token.Variable_ value => Some (AstNode.Variable_ value)
  | Token.String value => Some (AstNode.String value)
  | Token.Integer value => Some (AstNode.Integer value)
  | Token.OpenBracket | Token.CloseBracket | Token.Flush | Token.Asm => None
  | Token.GetVar => Some AstNode.GetVar
  | Token.SetVar => Some AstNode.SetVar
  | Token.Dup => Some AstNode.Dup
  | Token.Discard => Some AstNode.Discard
  | Token.Swap => Some AstNode.Swap
  | Token.Rotate => Some AstNode.Rotate
  | Token.Take => Some AstNode.Take
  | Token.Plus => Some AstNode.Plus
  | Token.Minus => Some AstNode.Minus
  | Token.Mul => Some AstNode.Mul
  | Token.Div => Some AstNode.Div
  | Token.Negate => Some AstNode.Negate
  | Token.BitAnd => Some AstNode.BitAnd
  | Token.BitOr => Some AstNode.BitOr
  | Token.BitInvert => Some AstNode.BitInvert
  | Token.Equal => Some AstNode.Equal
  | Token.GreaterThan => Some AstNode.GreaterThan
  | Token.Execute => Some AstNode.Execute
  | Token.ExecuteIf => Some AstNode.ExecuteIf
  | Token.While => Some AstNode.While
  | Token.Getc => Some AstNode.Getc
  | Token.Putc => Some AstNode.Putc
  | Token.PrintInt => Some AstNode.PrintInt
  end.

(** What is left for the parser to read: the characters not yet lexed,
    and the token of lookahead. *)
Definition pending (p : Parser.t) : nat :=
  length (Parser.tokenizer p)
  + match Parser.currentToken p with Some _ => 1 | None => 0 end.

(** [Tokens s toks]: pulling the tokenizer on [s] until it is done
    raises no exception and yields [toks]. *)
Inductive Tokens : jsstring -> list Token -> Prop :=
| Tokens_done s s' :
    Tokenizer.next s = Ok (None, s') -> Tokens s []
| Tokens_next s tok s' toks :
    Tokenizer.next s = Ok (Some tok, s') -> Tokens s' toks -> Tokens s (tok :: toks).

(** The tokens still to come for a parser. *)
Definition ParserTokens (p : Parser.t) (toks : list Token) : Prop :=
  match Parser.currentToken p with
  | Some tok => exists rest, toks = tok :: rest /\ Tokens (Parser.tokenizer p) rest
  | None => toks = [] /\ Parser.tokenizer p = []
  end.

(** Bracket matching of a token list read at depth [depth]: no
    [CloseBracket] at depth zero, and depth zero at the end. *)
Fixpoint balancedFrom (depth : nat) (toks : list Token) : bool :=
  match toks with
  | [] => (depth =? 0)%nat
  | Token.OpenBracket :: toks => balancedFrom (S depth) toks
  | Token.CloseBracket :: toks =>
      match depth with
      | O => false
      | S depth => balancedFrom depth toks
      end
  | _ :: toks => balancedFrom depth toks
  end.

Definition balanced (toks : list Token) : bool := balancedFrom 0 toks.

(** [IntegersIn P node]: every [Integer] node inside [node], at any
    depth of quotation, has a value that satisfies [P]. *)
Fixpoint IntegersIn (P : number -> Prop) (node : AstNode) : Prop :=
  match node with
  | AstNode.Integer value => P value
  | AstNode.Quote body =>
      (fix all (nodes : list AstNode) : Prop :=
         match nodes with
         | [] => True
         | node :: nodes => IntegersIn P node /\ all nodes
         end) body
  | _ => True
  end.

Definition AllIntegers (P : number -> Prop) (nodes : list AstNode) : Prop :=
  Forall (IntegersIn P) nodes.

(** The signed 32-bit range. *)
Definition int32 (n : Z) : Prop := (- 2 ^ 31 <= n <= 2 ^ 31 - 1)%Z.

(** The part of [next()] that returns a token or raises: what it does
    on a first character [c] that is neither white space nor the
    opening brace of a comment. *)
Definition nextToken (c : N) (s' : jsstring) : Result (option Token * jsstring) :=
  let s := c :: s' in
  if (c =? ch "'")%N then
    '(tok, s) <- Tokenizer.nextChar s ;; Ok (Some tok, s)
  else if (c =? DQUOTE)%N then
    '(tok, s) <- Tokenizer.nextString s ;; Ok (Some tok, s)
  else if Tokenizer.isDigit c then
    '(tok, s) <- Tokenizer.nextNumber s ;; Ok (Some tok, s)
  else if Tokenizer.isLower c then
    '(tok, s) <- Tokenizer.nextVariable s ;; Ok (Some tok, s)
  else match Tokenizer.get Tokenizer.symbols c with
       | Some sym => Ok (Some sym, s')
       | None => Throw (Error (lit "Invalid character: " ++ [c]))
       end.

(** [Suffix s' s]: [s'] is what is left of [s] after some characters
    have been read. *)
Definition Suffix (s' s : jsstring) : Prop := exists pre, s = pre ++ s'.

(** [literalText text rest v]: [text], followed by [rest], is the text
    of an integer literal of value [v]: an apostrophe and one
    character, for the code unit of that character; or a run of digits
    that [rest] does not continue, for [parseInt] of the run. *)
Definition literalText (text rest : jsstring) (v : number) : Prop :=
  (exists c, text = [ch "'"; c] /\ (c < 65536)%N /\ v = Finite (Z.of_N c))
  \/ (text <> [] /\ forallb Tokenizer.isDigit text = true
      /\ match rest with
         | c :: _ => Tokenizer.isDigit c = false
         | [] => True
         end
      /\ v = Tokenizer.parseInt text).

(** [v] is the value of an integer literal that stands in [source]. *)
Definition literalIn (source : jsstring) (v : number) : Prop :=
  exists pre text rest, source = pre ++ text ++ rest /\ literalText text rest v.

(** The token of lookahead, when it is an [Integer], has a value that
    satisfies [P]. *)
Definition IntegerToken (P : number -> Prop) (tok : option Token) : Prop :=
  match tok with
  | Some (Token.Integer v) => P v
  | _ => True
  end.

(** The parser [p] when the source is followed by a [CloseBracket] and
    [suffix]: a parser with a token of lookahead has more to lex; a
    parser at the end of the input has the [CloseBracket] as its token
    and [suffix] still to lex. *)
Definition extended (suffix : jsstring) (p : Parser.t) : Parser.t :=
  match Parser.currentToken p with
  | Some _ =>
      {| Parser.tokenizer := Parser.tokenizer p ++ ch "]" :: suffix;
         Parser.currentToken := Parser.currentToken p |}
  | None =>
      {| Parser.tokenizer := suffix;
         Parser.currentToken := Some Token.CloseBracket |}
  end.

(** ** Reading the emitted instructions *)

Module IR.

(** The instructions that [basicOp] and [cmp] emit, as terms;
    [render] gives their text. *)
Inductive binop : Type := Add | Sub | Mul | SDiv | And | Or.

Inductive pred : Type := Eq | Sgt.

Inductive instr : Type :=
| PopInt (dst : jsstring)
| Bin (dst : jsstring) (op : binop) (lhs rhs : jsstring)
| Icmp (dst : jsstring) (p : pred) (lhs rhs : jsstring)
| Sext (dst src : jsstring)
| PushInt (src : jsstring).

Definition binopName (op : binop) : jsstring :=
  match op with
  | Add => lit "add"
  | Sub => lit "sub"
  | Mul => lit "mul"
  | SDiv => lit "sdiv"
  | And => lit "and"
  | Or => lit "or"
  end.

Definition predName (p : pred) : jsstring :=
  match p with
  | Eq => lit "eq"
  | Sgt => lit "sgt"
  end.

(** The LLVM text of an instruction. *)
Definition render (i : instr) : jsstring :=
  match i with
  | PopInt dst => dst ++ lit " = call i32 @stack_pop_int()"
  | Bin dst op lhs rhs =>
      dst ++ lit " = " ++ binopName op ++ lit " i32 " ++ lhs ++ lit ", " ++ rhs
  | Icmp dst p lhs rhs =>
      dst ++ lit " = icmp " ++ predName p ++ lit " i32 " ++ lhs ++ lit ", " ++ rhs
  | Sext dst src => dst ++ lit " = sext i1 " ++ src ++ lit " to i32"
  | PushInt src => lit "call void @stack_push_int(i32 " ++ src ++ lit ")"
  end.

(** The value of a temporary: an [i32] as the signed integer it
    stands for, or an [i1]. *)
Inductive val : Type :=
| I32 (n : Z)
| I1 (b : bool).

(** The temporaries of the function, the last one defined first, and
    the cells of the run-time stack that hold integers, the top
    first.  [@stack_push_int] of the prologue stores at offset
    [@stack_size] and increments it; [@stack_pop_int] decrements it
    and loads from the new offset. *)
Record state : Type := mkState {
  temps : list (jsstring * val);
  stack : list Z
}.

Fixpoint lookup (m : list (jsstring * val)) (name : jsstring) : option val :=
  match m with
  | [] => None
  | (k, v) :: m' => if jsstring_eqb k name then Some v else lookup m' name
  end.

(** The signed integer of the low 32 bits. *)
Definition wrap32 (n : Z) : Z := ((n + 2 ^ 31) mod 2 ^ 32 - 2 ^ 31)%Z.

(** [add], [sub] and [mul] wrap around; [sdiv] rounds towards zero
    and has no defined result on a zero divisor or on the overflow of
    [-2^31 sdiv -1]. *)
Definition evalBin (op : binop) (a b : Z) : option Z :=
  match op with
  | Add => Some (wrap32 (a + b))
  | Sub => Some (wrap32 (a - b))
  | Mul => Some (wrap32 (a * b))
  | SDiv =>
      if ((b =? 0) || ((a =? - 2 ^ 31) && (b =? -1)))%Z then None
      else Some (Z.quot a b)
  | And => Some (Z.land a b)
  | Or => Some (Z.lor a b)
  end.

Definition evalPred (p : pred) (a b : Z) : bool :=
  match p with
  | Eq => (a =? b)%Z
  | Sgt => (a >? b)%Z
  end.

Definition define (dst : jsstring) (v : val) (st : state) : state :=
  {| temps := (dst, v) :: temps st; stack := stack st |}.

(** One instruction; [None] where LLVM defines no behaviour. *)
Definition step (i : instr) (st : state) : option state :=
  match i with
  | PopInt dst =>
      match stack st with
      | top :: rest => Some {| temps := (dst, I32 top) :: temps st; stack := rest |}
      | [] => None
      end
  | Bin dst op lhs rhs =>
      match lookup (temps st) lhs, lookup (temps st) rhs with
      | Some (I32 a), Some (I32 b) =>
          match evalBin op a b with
          | Some v => Some (define dst (I32 v) st)
          | None => None
          end
      | _, _ => None
      end
  | Icmp dst p lhs rhs =>
      match lookup (temps st) lhs, lookup (temps st) rhs with
      | Some (I32 a), Some (I32 b) => Some (define dst (I1 (evalPred p a b)) st)
      | _, _ => None
      end
  | Sext dst src =>
      match lookup (temps st) src with
      | Some (I1 b) => Some (define dst (I32 (if b then -1 else 0)) st)
      | _ => None
      end
  | PushInt src =>
      match lookup (temps st) src with
      | Some (I32 v) => Some {| temps := temps st; stack := v :: stack st |}
      | _ => None
      end
  end.

Fixpoint run (program : list instr) (st : state) : option state :=
  match program with
  | [] => Some st
  | i :: program =>
      match step i st with
      | Some st => run program st
      | None => None
      end
  end.

End IR.

(** The operator of the four arithmetic nodes, and the predicate of the
    two comparison nodes. *)
Definition arithmetic (node : AstNode) : option IR.binop :=
  match node with
  | AstNode.Plus => Some IR.Add
  | AstNode.Minus => Some IR.Sub
  | AstNode.Mul => Some IR.Mul
  | AstNode.Div => Some IR.SDiv
  | _ => None
  end.

Definition comparison (node : AstNode) : option IR.pred :=
  match node with
  | AstNode.Equal => Some IR.Eq
  | AstNode.GreaterThan => Some IR.Sgt
  | _ => None
  end.

(** The name that a generator gives [k] calls of [next()] from now. *)
Definition nameAfter (g : TemporaryGenerator.t) (k : N) : jsstring :=
  TemporaryGenerator.template g ++ toStringN (TemporaryGenerator.id g + k).

(** ** The table of interned strings *)






(** The escape [\hh] of a byte in [encode_string]. *)
Definition escape (code : N) : jsstring :=
  let hex := toString16 code in
  let hex := if (length hex =? 1)%nat then lit "0" ++ hex else hex in
  lit "\" ++ hex.

(** ** Exceptions *)

(** The exceptions of the tokenizer. *)
Definition lexError (e : exn) : Prop :=
  e = Error (lit "Unclosed comment")
  \/ e = Error (lit "Expected a character")
  \/ e = Error (lit "Expected " ++ [DQUOTE] ++ lit ", got undefined instead")
  \/ exists c, Tokenizer.isSpace c = false /\ startsToken c = false
               /\ e = Error (lit "Invalid character: " ++ [c]).

(** The exceptions of the parser on an [Asm] token. *)
Definition parseError (e : exn) : Prop :=
  e = TypeError
  \/ e = Error (lit "Assembly is not supported")
  \/ e = Error (lit "Syntax error: Expected a short").

(** ** The tree of a token list *)

(** The end of the input closes every quotation that is open:
    [stack] holds the arrays of the enclosing quotations, the innermost
    first. *)
Fixpoint closeAll (stack : list (list AstNode)) (statements : list AstNode)
  : list AstNode :=
  match stack with
  | [] => statements
  | parent :: stack => closeAll stack (parent ++ [AstNode.Quote statements])
  end.

(** The tree of a token list, read from left to right with the stack
    of the open quotations: a token that stands for itself appends its
    node, [Flush] appends nothing, an [OpenBracket] opens a quotation,
    a [CloseBracket] closes the innermost one or, when none is open,
    ends the reading. *)
Fixpoint astFrom (toks : list Token) (stack : list (list AstNode))
  (statements : list AstNode) : list AstNode :=
  match toks with
  | [] => closeAll stack statements
  | Token.OpenBracket :: toks => astFrom toks (statements :: stack) []
  | Token.CloseBracket :: toks =>
      match stack with
      | [] => statements
      | parent :: stack => astFrom toks stack (parent ++ [AstNode.Quote statements])
      end
  | tok :: toks =>
      match atom tok with
      | Some node => astFrom toks stack (statements ++ [node])
      | None => astFrom toks stack statements
      end
  end.

Definition astOfTokens (toks : list Token) : list AstNode := astFrom toks [] [].

(** ** Well-formed payloads *)

(** The payload of a [Variable] token is one lowercase letter; the
    payload of a [String] token holds no double quote. *)
Definition tokenOK (tok : Token) : Prop :=
  match tok with
  | Token.Variable_ v => exists c, v = [c] /\ Tokenizer.isLower c = true
  | Token.String v => ~ In DQUOTE v
  | _ => True
  end.

(** The same for the nodes of a tree, at any depth of quotation. *)
Fixpoint nodeOK (node : AstNode) : Prop :=
  match node with
  | AstNode.Variable_ v => exists c, v = [c] /\ Tokenizer.isLower c = true
  | AstNode.String v => ~ In DQUOTE v
  | AstNode.Quote body =>
      (fix all (nodes : list AstNode) : Prop :=
         match nodes with
         | [] => True
         | node :: nodes => nodeOK node /\ all nodes
         end) body
  | _ => True
  end.

(** ** Hoisted functions *)

(** The operator of the two bitwise nodes. *)
Definition bitwise (node : AstNode) : option IR.binop :=
  match node with
  | AstNode.BitAnd => Some IR.And
  | AstNode.BitOr => Some IR.Or
  | _ => None
  end.

(** The names of [n] successive calls of [next()]. *)
Fixpoint names (n : nat) (g : TemporaryGenerator.t) : list jsstring :=
  match n with
  | O => []
  | S n => let '(name, g) := TemporaryGenerator.next g in name :: names n g
  end.

(** The name of an entry [[nodes, name, compiled]] of [#functions]. *)
Definition lambdaName (entry : list AstNode * jsstring * jsstring) : jsstring :=
  snd (fst entry).

(** The text of the definition of a hoisted function, around the text
    of its body. *)
Definition definition (name text : jsstring) : jsstring :=
  lit "define void " ++ name ++ lit "() {" ++ LF ++ lit "entry:" ++ LF
    ++ text ++ LF ++ lit "ret void" ++ LF ++ lit "}".

(** An entry hoisted while the counter of names went from [from] to
    [to]. *)
Definition hoistedBetween (template : jsstring) (from to : N)
  (entry : list AstNode * jsstring * jsstring) : Prop :=
  (exists k, (from <= k < to)%N /\ lambdaName entry = template ++ toStringN k)
  /\ exists text, snd entry = definition (lambdaName entry) text.

(** [Hoists c c']: from [c] to [c'] the compiler has only appended
    entries to [#functions], each under a fresh name. *)
Definition Hoists (c c' : Compiler.t) : Prop :=
  let g := Compiler.lambdaNameGenerator c in
  let g' := Compiler.lambdaNameGenerator c' in
  TemporaryGenerator.template g' = TemporaryGenerator.template g
  /\ (TemporaryGenerator.id g <= TemporaryGenerator.id g')%N
  /\ exists added,
       Compiler.functions c' = Compiler.functions c ++ added
       /\ NoDup (map lambdaName added)
       /\ Forall (hoistedBetween (TemporaryGenerator.template g)
                    (TemporaryGenerator.id g) (TemporaryGenerator.id g')) added.

(** ** Escapes *)

(** The value of a hexadecimal digit, and the bytes of a text made of
    escapes of three characters. *)
Definition hexValue (d : N) : N :=
  (if (48 <=? d) && (d <=? 57) then d - 48 else d - 87)%N.

Fixpoint unescape (s : jsstring) : list N :=
  match s with
  | _ :: h :: l :: rest => (16 * hexValue h + hexValue l)%N :: unescape rest
  | _ => []
  end.

(** ** What [astEqual] compares *)

(** Of an array: its length and its first node, of which the type and
    the value; of a value that is an array, the same again. *)
Inductive Spine : Type :=
| SpineEmpty
| SpineHead (len : nat) (type : AstType.t) (payload : Payload)
with Payload : Type :=
| PUndefined
| PString (s : jsstring)
| PNumber (n : number)
| PArray (spine : Spine).

Fixpoint payloadOf (node : AstNode) : Payload :=
  match node with
  | AstNode.Variable_ v => PString v
  | AstNode.String v => PString v
  | AstNode.Integer v => PNumber v
  | AstNode.Quote body =>
      PArray match body with
             | [] => SpineEmpty
             | first :: _ =>
                 SpineHead (length body) (AstNode.type first) (payloadOf first)
             end
  | _ => PUndefined
  end.

Definition spineOf (body : list AstNode) : Spine :=
  match body with
  | [] => SpineEmpty
  | first :: _ => SpineHead (length body) (AstNode.type first) (payloadOf first)
  end.

(** The two fields of the compiler that [#getFunction] reads and
    writes: [#functions] and [#lambdaNameGenerator]. *)
Definition hoisted (c : Compiler.t)
  : list (list AstNode * jsstring * jsstring) * TemporaryGenerator.t :=
  (Compiler.functions c, Compiler.lambdaNameGenerator c).

(** The test of the [find] of [#getFunction(nodes)]. *)
Definition matches (nodes : list AstNode)
  (entry : list AstNode * jsstring * jsstring) : bool :=
  astEqual (VArray nodes) (VArray (fst (fst entry))).

(** A digit of [toString(16)]: [0] to [9] or [a] to [f]. *)
Definition isHex (c : N) : bool :=
  (((48 <=? c) && (c <=? 57)) || ((97 <=? c) && (c <=? 102)))%N.

(** ** The lines of a text *)

(** [s.split('\n')], with the characters of the current line in
    reverse. *)
Fixpoint lines_from (s line : jsstring) : list jsstring :=
  match s with
  | [] => [rev line]
  | c :: s' =>
      if (c =? 10)%N then rev line :: lines_from s' [] else lines_from s' (c :: line)
  end.

Definition lines (s : jsstring) : list jsstring := lines_from s [].

(** The declaration of the global of a variable in the prologue. *)
Definition declaration (name : jsstring) : jsstring :=
  varName name ++ lit " = private global %union.FalseValue { [8 x i8] zeroinitializer }".

(** * Properties *)

Unset Implicit Arguments.

(** ** Strings *)

Lemma jsstring_eqb_eq (a b : jsstring) : jsstring_eqb a b = true <-> a = b.
Proof.
  unfold jsstring_eqb. destruct (list_eq_dec N.eq_dec a b); split; congruence.
Qed.

(** ** The tokenizer always answers *)

Lemma skipComment_loop_length s :
  length (Tokenizer.skipComment_loop s) <= length s.
Proof.
  induction s as [|c s IH]; simpl; [lia|].
  destruct (negb _); simpl; lia.
Qed.

Lemma nextNumber_loop_length s :
  length (Tokenizer.nextNumber_loop s) <= length s.
Proof.
  induction s as [|c s IH]; simpl; [lia|].
  destruct (Tokenizer.isDigit c); simpl; lia.
Qed.

Lemma nextString_loop_length s :
  length (Tokenizer.nextString_loop s) <= length s.
Proof.
  induction s as [|c s IH]; simpl; [lia|].
  destruct (negb _); simpl; lia.
Qed.

Lemma eat_Ok char msg s s' :
  Tokenizer.eat char msg s = Ok s' -> s = char :: s'.
Proof.
  unfold Tokenizer.eat. destruct s as [|c s]; simpl; [discriminate|].
  destruct (c =? char)%N eqn:E; [|discriminate].
  apply N.eqb_eq in E. intros [= <-]. now subst.
Qed.

Lemma eat_not_OutOfFuel char msg s : Tokenizer.eat char msg s <> OutOfFuel.
Proof. unfold Tokenizer.eat. destruct (match _ with Some _ => _ | None => _ end); discriminate. Qed.

Lemma skipComment_length s s' :
  Tokenizer.skipComment s = Ok s' -> length s' < length s.
Proof.
  unfold Tokenizer.skipComment. intros H%eat_Ok.
  pose proof (skipComment_loop_length s) as L. rewrite H in L. simpl in L. lia.
Qed.

Lemma nextChar_length s tok s' :
  Tokenizer.nextChar s = Ok (tok, s') -> length s' < length s.
Proof.
  unfold Tokenizer.nextChar.
  destruct (Tokenizer.eat _ None s) as [s1| |] eqn:E; simpl; try discriminate.
  apply eat_Ok in E. subst s. destruct s1 as [|d s1]; [discriminate|].
  intros [= _ <-]. simpl. lia.
Qed.

Lemma nextString_length s tok s' :
  Tokenizer.nextString s = Ok (tok, s') -> length s' < length s.
Proof.
  unfold Tokenizer.nextString.
  destruct (Tokenizer.eat _ None s) as [s1| |] eqn:E; simpl; try discriminate.
  apply eat_Ok in E. subst s.
  destruct (Tokenizer.eat _ None (Tokenizer.nextString_loop s1)) as [s2| |] eqn:E2;
    simpl; try discriminate.
  apply eat_Ok in E2. intros [= _ <-].
  pose proof (nextString_loop_length s1) as L. rewrite E2 in L. simpl in *. lia.
Qed.

Lemma nextNumber_length c s tok s' :
  Tokenizer.isDigit c = true ->
  Tokenizer.nextNumber (c :: s) = Ok (tok, s') -> length s' < length (c :: s).
Proof.
  unfold Tokenizer.nextNumber. simpl. intros -> [= _ <-].
  pose proof (nextNumber_loop_length s). lia.
Qed.

Lemma next_loop_nil fuel : Tokenizer.next_loop fuel [] = Ok (None, []).
Proof. destruct fuel; reflexivity. Qed.

(** The fuel of [next_loop] does not matter once it covers the input. *)
Lemma next_loop_fuel fuel1 : forall fuel2 s,
  length s <= fuel1 -> length s <= fuel2 ->
  Tokenizer.next_loop fuel1 s = Tokenizer.next_loop fuel2 s.
Proof.
  induction fuel1 as [|fuel1 IH]; intros fuel2 [|c s] H1 H2;
    rewrite ?next_loop_nil; try reflexivity; simpl in H1, H2; [lia|].
  destruct fuel2 as [|fuel2]; [lia|].
  simpl. destruct (Tokenizer.isSpace c); [apply IH; lia|].
  destruct (c =? _)%N; [|reflexivity].
  destruct (Tokenizer.skipComment (c :: s)) as [s'| |] eqn:E; simpl; try reflexivity.
  apply skipComment_length in E. simpl in E. apply IH; lia.
Qed.

(** What [next] answers: a token and a strictly shorter input, the end
    of the input, or an exception; its loop never lacks fuel. *)
Definition next_spec (s : jsstring) (r : Result (option Token * jsstring)) : Prop :=
  match r with
  | Ok (Some _, s') => length s' < length s
  | Ok (None, s') => s' = []
  | Throw _ => True
  | OutOfFuel => False
  end.

Lemma next_spec_mono s1 s2 r :
  length s1 <= length s2 -> next_spec s1 r -> next_spec s2 r.
Proof. destruct r as [[[t|] s']| |]; simpl; auto. lia. Qed.

Lemma next_result s : next_spec s (Tokenizer.next s).
Proof.
  unfold Tokenizer.next. remember (length s) as fuel eqn:E.
  assert (H : length s <= fuel) by lia. clear E. revert s H.
  induction fuel as [|fuel IH]; intros [|c s] H; simpl in H;
    rewrite ?next_loop_nil; try reflexivity; [lia|].
  cbn [Tokenizer.next_loop].
  destruct (Tokenizer.isSpace c).
  { apply next_spec_mono with s; [simpl; lia | apply IH; lia]. }
  destruct (c =? _)%N.
  { destruct (Tokenizer.skipComment (c :: s)) as [s1| |] eqn:E; simpl; auto.
    - apply skipComment_length in E.
      apply next_spec_mono with s1; [lia | apply IH; simpl in E; lia].
    - now apply eat_not_OutOfFuel in E. }
  destruct (c =? _)%N.
  { destruct (Tokenizer.nextChar (c :: s)) as [[tok s1]| |] eqn:E; simpl; auto.
    - now apply nextChar_length in E.
    - unfold Tokenizer.nextChar in E.
      destruct (Tokenizer.eat _ None (c :: s)) as [[|d s2]| |] eqn:E1; simpl in E;
        try discriminate. now apply eat_not_OutOfFuel in E1. }
  destruct (c =? _)%N.
  { destruct (Tokenizer.nextString (c :: s)) as [[tok s1]| |] eqn:E; simpl; auto.
    - now apply nextString_length in E.
    - unfold Tokenizer.nextString in E.
      destruct (Tokenizer.eat _ None (c :: s)) as [s2| |] eqn:E1; simpl in E;
        try discriminate; [|now apply eat_not_OutOfFuel in E1].
      destruct (Tokenizer.eat _ None (Tokenizer.nextString_loop s2)) as [s3| |] eqn:E2;
        simpl in E; try discriminate. now apply eat_not_OutOfFuel in E2. }
  destruct (Tokenizer.isDigit c) eqn:D.
  { destruct (Tokenizer.nextNumber (c :: s)) as [[tok s1]| |] eqn:E; simpl; auto.
    - now apply nextNumber_length in E.
    - discriminate. }
  destruct (Tokenizer.isLower c).
  { simpl. lia. }
  destruct (Tokenizer.get Tokenizer.symbols c); simpl; auto.
Qed.

Theorem next_total s : Tokenizer.next s <> OutOfFuel.
Proof. pose proof (next_result s) as H. intros E. now rewrite E in H. Qed.

(** ** White space and invalid characters *)

Lemma next_cons c rest :
  Tokenizer.next (c :: rest) = Tokenizer.next_loop (S (length rest)) (c :: rest).
Proof. reflexivity. Qed.

Lemma next_skips_space c rest :
  Tokenizer.isSpace c = true -> Tokenizer.next (c :: rest) = Tokenizer.next rest.
Proof. intros H. rewrite next_cons. cbn [Tokenizer.next_loop]. now rewrite H. Qed.

Lemma startsToken_false c :
  startsToken c = false ->
  (c =? ch "{")%N = false /\ (c =? ch "'")%N = false /\ (c =? DQUOTE)%N = false
  /\ Tokenizer.isDigit c = false /\ Tokenizer.isLower c = false
  /\ Tokenizer.get Tokenizer.symbols c = None.
Proof.
  unfold startsToken. intros H.
  repeat (apply orb_false_elim in H; destruct H as [H ?]).
  destruct (Tokenizer.get Tokenizer.symbols c); [discriminate|]. tauto.
Qed.

Lemma next_invalid_character c rest :
  Tokenizer.isSpace c = false -> startsToken c = false ->
  Tokenizer.next (c :: rest) = Throw (Error (lit "Invalid character: " ++ [c])).
Proof.
  intros Hs (H1 & H2 & H3 & H4 & H5 & H6)%startsToken_false.
  rewrite next_cons. cbn [Tokenizer.next_loop].
  now rewrite Hs, H1, H2, H3, H4, H5, H6.
Qed.

(** A character outside the class [\s] is not passed over: alone in the
    input it gives a token or an exception, not the end of the input. *)
Lemma next_keeps_non_space c :
  Tokenizer.isSpace c = false -> Tokenizer.next [c] <> Tokenizer.next [].
Proof.
  intros Hs. rewrite next_cons. cbn [Tokenizer.next_loop length]. rewrite Hs.
  change (Tokenizer.next []) with (@Ok (option Token * jsstring) (None, [])).
  destruct (c =? ch "{")%N eqn:E1.
  { apply N.eqb_eq in E1. subst c. discriminate. }
  destruct (c =? ch "'")%N eqn:E2.
  { apply N.eqb_eq in E2. subst c. discriminate. }
  destruct (c =? DQUOTE)%N eqn:E3.
  { apply N.eqb_eq in E3. subst c. discriminate. }
  destruct (Tokenizer.isDigit c) eqn:E4.
  { unfold Tokenizer.nextNumber. discriminate. }
  destruct (Tokenizer.isLower c); [discriminate|].
  destruct (Tokenizer.get Tokenizer.symbols c); discriminate.
Qed.

Lemma isAsciiSpace_isSpace c :
  isAsciiSpace c = true -> Tokenizer.isSpace c = true.
Proof.
  unfold isAsciiSpace. intros H.
  repeat (apply orb_true_iff in H; destruct H as [H|H]);
    apply N.eqb_eq in H; subst c; reflexivity.
Qed.

(** C5, as the code has it: the characters that the tokenizer passes
    over are exactly those of the ECMAScript class [\s], which holds the
    six ASCII white-space characters and also U+00A0, U+1680, U+2000 to
    U+200A, U+2028, U+2029, U+202F, U+205F, U+3000 and U+FEFF; any
    other character that starts no comment, literal, digit run or
    variable and is none of the 27 entries of the symbol table raises
    [Invalid character: X]. *)
Theorem C5_skips_js_whitespace_class (c : N) :
  ((forall rest, Tokenizer.next (c :: rest) = Tokenizer.next rest)
   <-> Tokenizer.isSpace c = true)
  /\ (isAsciiSpace c = true -> Tokenizer.isSpace c = true)
  /\ (forall rest,
        Tokenizer.isSpace c = false -> startsToken c = false ->
        Tokenizer.next (c :: rest)
        = Throw (Error (lit "Invalid character: " ++ [c])))
  /\ length Tokenizer.symbols = 27
  /\ NoDup (map fst Tokenizer.symbols).
Proof.
  split; [split|split; [|split; [|split]]].
  - intros H. destruct (Tokenizer.isSpace c) eqn:E; [reflexivity|].
    now destruct (next_keeps_non_space c E).
  - intros H rest. now apply next_skips_space.
  - apply isAsciiSpace_isSpace.
  - intros rest. apply next_invalid_character.
  - reflexivity.
  - repeat constructor; simpl; intros H;
      repeat (destruct H as [H|H]; [discriminate|]); exact H.
Qed.

(** The no-break space U+00A0 is in the class [\s]: the tokenizer passes
    over it and returns the token that follows. *)
Lemma C5_skips_js_whitespace_class_witness :
  Tokenizer.next (160%N :: lit "1") = Tokenizer.next (lit "1").
Proof.
  apply (proj2 (proj1 (C5_skips_js_whitespace_class 160%N))). reflexivity.
Defined.

(** C5 as stated fails on U+00A0: it is none of the six ASCII
    white-space characters and starts no token, yet the tokenizer raises
    no exception and returns the token after it. *)
Lemma C5_counterexample :
  isAsciiSpace 160 = false /\ startsToken 160 = false
  /\ Tokenizer.next (160%N :: lit "1") = Ok (Some (Token.Integer 1), [])
  /\ Tokenizer.next (160%N :: lit "1")
     <> Throw (Error (lit "Invalid character: " ++ [160%N])).
Proof. repeat split. discriminate. Qed.

(** ** The parser: one iteration, fuel, termination *)

(** One iteration of the loop of [parseStatements], with the tokens
    that stand for themselves gathered in one case. *)
Lemma parseStatements_loop_step fuel statements p :
  Parser.parseStatements_loop (S fuel) statements p =
  match Parser.currentToken p with
  | None => Ok (statements, p)
  | Some tok =>
      match atom tok with
      | Some node =>
          '(statements, p) <- Parser.instr node statements p ;;
          Parser.parseStatements_loop fuel statements p
      | None =>
          match tok with
          | Token.OpenBracket =>
              p <- Parser.next p ;;
              '(body, p) <- Parser.parseStatements_loop fuel [] p ;;
              '(statements, p) <- Parser.instr (AstNode.Quote body) statements p ;;
              Parser.parseStatements_loop fuel statements p
          | Token.Flush =>
              p <- Parser.next p ;; Parser.parseStatements_loop fuel statements p
          | Token.Asm =>
              p <- Parser.next p ;;
              match Parser.currentToken p with
              | None => Throw TypeError
              | Some (Token.Integer _) =>
                  _ <- Parser.next p ;;
                  Throw (Error (lit "Assembly is not supported"))
              | Some _ => Throw (Error (lit "Syntax error: Expected a short"))
              end
          | _ => Ok (statements, p)
          end
      end
  end.
Proof.
  cbn [Parser.parseStatements_loop].
  destruct (Parser.currentToken p) as [[]|]; cbn [atom]; try reflexivity;
    unfold bind; repeat (match goal with |- context [match ?x with _ => _ end] =>
                                           destruct x end); reflexivity.
Qed.

Lemma parseStatements_loop_O statements p :
  Parser.parseStatements_loop 0 statements p = OutOfFuel.
Proof. reflexivity. Qed.

Global Opaque Parser.parseStatements_loop.

(** [#next()] answers like the tokenizer. *)
Lemma Parser_next_result p :
  match Parser.next p with
  | Ok p' =>
      pending p' <= length (Parser.tokenizer p)
      /\ Tokenizer.next (Parser.tokenizer p)
         = Ok (Parser.currentToken p', Parser.tokenizer p')
  | Throw _ => True
  | OutOfFuel => False
  end.
Proof.
  unfold Parser.next, pending.
  pose proof (next_result (Parser.tokenizer p)) as H.
  destruct (Tokenizer.next (Parser.tokenizer p)) as [[[tok|] s']| |]; simpl in *; auto.
  - split; [lia|reflexivity].
  - subst s'. split; [simpl; lia|reflexivity].
Qed.

Lemma Parser_next_pending p p' :
  Parser.next p = Ok p' -> pending p' <= length (Parser.tokenizer p).
Proof. intros E. pose proof (Parser_next_result p) as H. rewrite E in H. tauto. Qed.

Lemma Parser_next_not_OutOfFuel p : Parser.next p <> OutOfFuel.
Proof. intros E. pose proof (Parser_next_result p) as H. now rewrite E in H. Qed.

Lemma pending_tokenizer p : length (Parser.tokenizer p) <= pending p.
Proof. unfold pending. lia. Qed.

Lemma pending_current p tok :
  Parser.currentToken p = Some tok -> length (Parser.tokenizer p) < pending p.
Proof. unfold pending. intros ->. lia. Qed.

(** With more fuel than there is left to read, the loop ends, with an
    array and a parser that has no more left to read, or with an
    exception. *)
Lemma parseStatements_loop_total fuel : forall statements p,
  pending p < fuel ->
  match Parser.parseStatements_loop fuel statements p with
  | Ok (_, p') => pending p' <= pending p
  | Throw _ => True
  | OutOfFuel => False
  end.
Proof.
  induction fuel as [|fuel IH]; intros statements p Hf; [lia|].
  rewrite parseStatements_loop_step.
  destruct (Parser.currentToken p) as [tok|] eqn:Ec; [|simpl; lia].
  pose proof (pending_current p _ Ec) as Hc.
  assert (Hnext : forall (k : Parser.t -> Result (list AstNode * Parser.t)),
             (forall p1, pending p1 < pending p ->
                match k p1 with
                | Ok (_, p') => pending p' <= pending p
                | Throw _ => True
                | OutOfFuel => False
                end) ->
             match p1 <- Parser.next p ;; k p1 with
             | Ok (_, p') => pending p' <= pending p
             | Throw _ => True
             | OutOfFuel => False
             end).
  { intros k Hk. destruct (Parser.next p) as [p1| |] eqn:E1; simpl; auto.
    - apply Hk. apply Parser_next_pending in E1. lia.
    - now apply Parser_next_not_OutOfFuel in E1. }
  assert (Hloop : forall st p1, pending p1 < pending p ->
             match Parser.parseStatements_loop fuel st p1 with
             | Ok (_, p') => pending p' <= pending p
             | Throw _ => True
             | OutOfFuel => False
             end).
  { intros st p1 H1. specialize (IH st p1 ltac:(lia)).
    destruct (Parser.parseStatements_loop fuel st p1) as [[? ?]| |]; auto. lia. }
  assert (Hinstr : forall node st p1, length (Parser.tokenizer p1) < pending p ->
             match '(st, p2) <- Parser.instr node st p1 ;;
                   Parser.parseStatements_loop fuel st p2 with
             | Ok (_, p') => pending p' <= pending p
             | Throw _ => True
             | OutOfFuel => False
             end).
  { intros node st p1 H1. unfold Parser.instr.
    destruct (Parser.next p1) as [p2| |] eqn:E2; simpl; auto.
    - apply Hloop. apply Parser_next_pending in E2. lia.
    - now apply Parser_next_not_OutOfFuel in E2. }
  destruct (atom tok) as [node|] eqn:Ea.
  { apply Hinstr. lia. }
  destruct tok; try discriminate Ea.
  - (* OpenBracket *)
    apply Hnext. intros p1 H1.
    specialize (IH [] p1 ltac:(lia)).
    destruct (Parser.parseStatements_loop fuel [] p1) as [[body p2]| |]; simpl; auto.
    apply Hinstr. pose proof (pending_tokenizer p2). lia.
  - (* CloseBracket *) simpl. lia.
  - (* Flush *) apply Hnext. intros p1 H1. now apply Hloop.
  - (* Asm *)
    destruct (Parser.next p) as [p1| |] eqn:E1; simpl; auto.
    + destruct (Parser.currentToken p1) as [[]|]; auto.
      destruct (Parser.next p1) as [p2| |] eqn:E2; simpl; auto.
      now apply Parser_next_not_OutOfFuel in E2.
    + now apply Parser_next_not_OutOfFuel in E1.
Qed.

(** More fuel does not change an outcome. *)
Lemma parseStatements_loop_fuel fuel : forall fuel' statements p r,
  Parser.parseStatements_loop fuel statements p = r -> r <> OutOfFuel ->
  fuel <= fuel' -> Parser.parseStatements_loop fuel' statements p = r.
Proof.
  induction fuel as [|fuel IH]; intros fuel' statements p r E Hr Hle.
  { rewrite parseStatements_loop_O in E. congruence. }
  destruct fuel' as [|fuel']; [lia|].
  rewrite parseStatements_loop_step in *.
  assert (Hloop : forall st p1 r1,
             Parser.parseStatements_loop fuel st p1 = r1 -> r1 <> OutOfFuel ->
             Parser.parseStatements_loop fuel' st p1 = r1).
  { intros. eapply IH; eauto. lia. }
  assert (Hinstr : forall node st p1 r1,
             ('(st, p2) <- Parser.instr node st p1 ;;
              Parser.parseStatements_loop fuel st p2) = r1 -> r1 <> OutOfFuel ->
             ('(st, p2) <- Parser.instr node st p1 ;;
              Parser.parseStatements_loop fuel' st p2) = r1).
  { intros node st p1 r1 E1 H1.
    destruct (Parser.instr node st p1) as [[st2 p2]| |]; simpl in *; auto. }
  destruct (Parser.currentToken p) as [tok|]; [|assumption].
  destruct (atom tok) as [node|]; [now apply Hinstr|].
  destruct tok; try assumption.
  - destruct (Parser.next p) as [p1| |]; simpl in *; auto.
    destruct (Parser.parseStatements_loop fuel [] p1) as [[body p2]| |] eqn:E2.
    + rewrite (Hloop _ _ _ E2) by discriminate. simpl in *. now apply Hinstr.
    + rewrite (Hloop _ _ _ E2) by discriminate. assumption.
    + simpl in E. congruence.
  - destruct (Parser.next p) as [p1| |]; simpl in *; auto.
Qed.

(** [parse] always answers: its loop is given enough fuel. *)
Theorem parse_run_total source : parse_run source <> OutOfFuel.
Proof.
  unfold parse_run, Parser.new, Parser.parseStatements.
  set (p0 := {| Parser.tokenizer := source; Parser.currentToken := None |}).
  destruct (Parser.next p0) as [p| |] eqn:E; simpl; try discriminate.
  - pose proof (Parser_next_pending _ _ E) as Hp. simpl in Hp.
    pose proof (parseStatements_loop_total (S (length source)) [] p ltac:(lia)) as H.
    intros E'. now rewrite E' in H.
  - now apply Parser_next_not_OutOfFuel in E.
Qed.

Theorem parse_total source : parse source <> OutOfFuel.
Proof.
  unfold parse. pose proof (parse_run_total source).
  destruct (parse_run source) as [[? ?]| |]; simpl; congruence.
Qed.

(** ** Brackets left open at the end of the input *)

Lemma Tokens_Parser_next p toks :
  Tokens (Parser.tokenizer p) toks ->
  exists p1, Parser.next p = Ok p1 /\ ParserTokens p1 toks.
Proof.
  unfold Parser.next, ParserTokens. intros H. inversion H as [s s' E|s tok s' rest E Hr]; subst.
  - rewrite E. simpl. eexists. split; [reflexivity|]. simpl.
    pose proof (next_result (Parser.tokenizer p)) as R. rewrite E in R. simpl in R. auto.
  - rewrite E. simpl. eexists. split; [reflexivity|]. simpl. eauto.
Qed.

Lemma ParserTokens_current p toks tok :
  Parser.currentToken p = Some tok -> ParserTokens p toks ->
  exists rest, toks = tok :: rest /\
    exists p1, Parser.next p = Ok p1 /\ ParserTokens p1 rest.
Proof.
  unfold ParserTokens at 1. intros -> (rest & -> & H).
  exists rest. split; [reflexivity|]. now apply Tokens_Parser_next.
Qed.

Lemma ParserTokens_end p toks :
  Parser.currentToken p = None -> ParserTokens p toks ->
  toks = [] /\ p = {| Parser.tokenizer := []; Parser.currentToken := None |}.
Proof.
  unfold ParserTokens. destruct p as [s c]. simpl. intros -> [-> ->]. auto.
Qed.

Lemma atom_not_bracket tok node :
  atom tok = Some node -> tok <> Token.CloseBracket /\ tok <> Token.Asm.
Proof. destruct tok; simpl; intros [=]; split; discriminate. Qed.

(** On a token stream that lexes without exception and holds no [Asm],
    the loop of [parseStatements] returns: at a [CloseBracket], or at
    the end of the input. *)
Lemma parseStatements_loop_succeeds fuel : forall statements p toks,
  pending p < fuel -> ParserTokens p toks -> ~ In Token.Asm toks ->
  exists statements' p' toks',
    Parser.parseStatements_loop fuel statements p = Ok (statements', p')
    /\ ParserTokens p' toks'
    /\ (exists pre, toks = pre ++ toks')
    /\ (forall tok, Parser.currentToken p' = Some tok -> tok = Token.CloseBracket)
    /\ pending p' <= pending p.
Proof.
  induction fuel as [|fuel IH]; intros statements p toks Hf HT Hasm; [lia|].
  rewrite parseStatements_loop_step.
  destruct (Parser.currentToken p) as [tok|] eqn:Ec.
  2:{ exists statements, p, toks. repeat split; auto.
      - now exists [].
      - intros tok E. congruence. }
  pose proof (pending_current p _ Ec) as Hc.
  destruct (ParserTokens_current _ _ _ Ec HT) as (rest & -> & p1 & E1 & HT1).
  pose proof (Parser_next_pending _ _ E1) as Hp1.
  assert (Hrest : ~ In Token.Asm rest) by (intros H; apply Hasm; now right).
  assert (Hinstr : forall node st,
             exists statements' p' toks',
               ('(st, p2) <- Parser.instr node st p ;;
                Parser.parseStatements_loop fuel st p2) = Ok (statements', p')
               /\ ParserTokens p' toks'
               /\ (exists pre, tok :: rest = pre ++ toks')
               /\ (forall tok, Parser.currentToken p' = Some tok ->
                               tok = Token.CloseBracket)
               /\ pending p' <= pending p).
  { intros node st. unfold Parser.instr. rewrite E1. simpl.
    destruct (IH (st ++ [node]) p1 rest ltac:(lia) HT1 Hrest)
      as (st' & p' & toks' & E & HT' & (pre & Hpre) & Hcl & Hp).
    exists st', p', toks'. repeat split; auto.
    - exists (tok :: pre). now rewrite Hpre.
    - lia. }
  destruct (atom tok) as [node|] eqn:Ea; [apply Hinstr|].
  destruct tok; try discriminate Ea.
  - (* OpenBracket *)
    rewrite E1. simpl.
    destruct (IH [] p1 rest ltac:(lia) HT1 Hrest)
      as (body & p2 & toks2 & E2 & HT2 & (pre2 & Hpre2) & Hcl2 & Hp2).
    rewrite E2. simpl.
    assert (Hasm2 : ~ In Token.Asm toks2).
    { intros H. apply Hrest. rewrite Hpre2. apply in_or_app. now right. }
    destruct (Parser.currentToken p2) as [tok2|] eqn:Ec2.
    + destruct (ParserTokens_current _ _ _ Ec2 HT2) as (rest2 & -> & p3 & E3 & HT3).
      pose proof (Parser_next_pending _ _ E3) as Hp3.
      pose proof (pending_current p2 _ Ec2) as Hc2.
      unfold Parser.instr. rewrite E3. simpl.
      destruct (IH (statements ++ [AstNode.Quote body]) p3 rest2 ltac:(lia) HT3)
        as (st' & p' & toks' & E & HT' & (pre & Hpre) & Hcl & Hp).
      { intros H. apply Hasm2. now right. }
      exists st', p', toks'. repeat split; auto.
      * exists (Token.OpenBracket :: pre2 ++ tok2 :: pre).
        rewrite Hpre2, Hpre. simpl. now rewrite <- app_assoc.
      * lia.
    + destruct (ParserTokens_end _ _ Ec2 HT2) as [-> ->].
      unfold Parser.instr.
      change (Parser.next {| Parser.tokenizer := []; Parser.currentToken := None |})
        with (Ok {| Parser.tokenizer := []; Parser.currentToken := None |}).
      simpl.
      destruct fuel as [|fuel]; [lia|]. rewrite parseStatements_loop_step. simpl.
      eexists _, _, []. split; [reflexivity|]. split; [split; reflexivity|].
      split; [|split].
      * exists (Token.OpenBracket :: pre2). rewrite Hpre2. reflexivity.
      * intros tok [=].
      * unfold pending. simpl. lia.
  - (* CloseBracket *)
    exists statements, p, (Token.CloseBracket :: rest). repeat split; auto.
    + now exists [].
    + intros tok E. congruence.
  - (* Flush *)
    rewrite E1. simpl.
    destruct (IH statements p1 rest ltac:(lia) HT1 Hrest)
      as (st' & p' & toks' & E & HT' & (pre & Hpre) & Hcl & Hp).
    exists st', p', toks'. repeat split; auto.
    + exists (Token.Flush :: pre). now rewrite Hpre.
    + lia.
  - (* Asm *) exfalso. apply Hasm. now left.
Qed.

Lemma Parser_new_tokens source toks :
  Tokens source toks ->
  exists p, Parser.new source = Ok p /\ ParserTokens p toks
            /\ pending p <= length source.
Proof.
  intros H. unfold Parser.new.
  destruct (Tokens_Parser_next
              {| Parser.tokenizer := source; Parser.currentToken := None |} toks H)
    as (p & E & HT).
  exists p. repeat split; auto. now apply Parser_next_pending in E.
Qed.

Lemma parse_run_succeeds source toks :
  Tokens source toks -> ~ In Token.Asm toks ->
  exists ast p toks',
    parse_run source = Ok (ast, p) /\ ParserTokens p toks'
    /\ (exists pre, toks = pre ++ toks')
    /\ (forall tok, Parser.currentToken p = Some tok -> tok = Token.CloseBracket).
Proof.
  intros HT Hasm. unfold parse_run, Parser.parseStatements.
  destruct (Parser_new_tokens _ _ HT) as (p & E & HTp & Hp). rewrite E. simpl.
  destruct (parseStatements_loop_succeeds (S (length source)) [] p toks
              ltac:(lia) HTp Hasm) as (ast & p' & toks' & E' & HT' & Hpre & Hcl & _).
  exists ast, p', toks'. auto.
Qed.

Lemma Parser_new_OpenBracket source :
  Parser.new (ch "[" :: source)
  = Ok {| Parser.tokenizer := source; Parser.currentToken := Some Token.OpenBracket |}.
Proof. reflexivity. Qed.

(** C2, as the code has it: the parser has no exception for the end of
    the input.  A source that lexes without exception and holds no
    [Asm] token always parses to a tree, whatever its brackets.  When
    the parse of such a source runs to the end of the input, as it does
    when the source holds no [CloseBracket], an [OpenBracket] put
    before it is left open, and the quotation is closed by the end of
    the input: the tree is the [Quote] of the tree of the source. *)
Theorem C2_open_bracket_closed_by_end_of_input (source : jsstring) (toks : list Token) :
  Tokens source toks -> ~ In Token.Asm toks ->
  exists ast p,
    parse_run source = Ok (ast, p)
    /\ parse source = Ok ast
    /\ (Parser.currentToken p = None ->
        parse (ch "[" :: source) = Ok [AstNode.Quote ast])
    /\ (~ In Token.CloseBracket toks -> Parser.currentToken p = None).
Proof.
  intros HT Hasm.
  destruct (parse_run_succeeds _ _ HT Hasm)
    as (ast & p & toks' & E & HT' & (pre & Hpre) & Hcl).
  exists ast, p. split; [exact E|]. split; [unfold parse; now rewrite E|]. split.
  - intros Ec. destruct (ParserTokens_end _ _ Ec HT') as [-> ->].
    unfold parse, parse_run, Parser.parseStatements. rewrite Parser_new_OpenBracket.
    cbn [bind length]. rewrite parseStatements_loop_step. cbn [Parser.currentToken atom].
    change (Parser.next {| Parser.tokenizer := source;
                           Parser.currentToken := Some Token.OpenBracket |})
      with (Parser.new source).
    unfold parse_run, Parser.parseStatements in E.
    destruct (Parser.new source) as [p1| |]; try discriminate E.
    cbn [bind] in *. rewrite E. cbn [bind]. unfold Parser.instr.
    change (Parser.next {| Parser.tokenizer := []; Parser.currentToken := None |})
      with (Ok {| Parser.tokenizer := []; Parser.currentToken := None |}).
    cbn [bind app]. rewrite parseStatements_loop_step. reflexivity.
  - intros Hclose.
    destruct (Parser.currentToken p) as [tok|] eqn:Ec; [|reflexivity].
    exfalso. apply Hclose. rewrite (Hcl tok eq_refl) in Ec.
    destruct (ParserTokens_current _ _ _ Ec HT') as (rest & -> & _).
    rewrite Hpre. apply in_or_app. right. now left.
Qed.

(** The source [[1 [2] 3] has its first bracket open at the end of the
    input and parses to the quotation of [1 [2] 3]. *)
Lemma C2_open_bracket_closed_by_end_of_input_witness :
  exists ast p,
    parse_run (lit "1 [2] 3") = Ok (ast, p)
    /\ parse (lit "1 [2] 3") = Ok ast
    /\ (Parser.currentToken p = None ->
        parse (lit "[1 [2] 3") = Ok [AstNode.Quote ast])
    /\ (~ In Token.CloseBracket
            [Token.Integer 1; Token.OpenBracket; Token.Integer 2;
             Token.CloseBracket; Token.Integer 3] ->
        Parser.currentToken p = None).
Proof.
  apply (C2_open_bracket_closed_by_end_of_input (lit "1 [2] 3")
           [Token.Integer 1; Token.OpenBracket; Token.Integer 2;
            Token.CloseBracket; Token.Integer 3]).
  - repeat (eapply Tokens_next; [reflexivity|]). eapply Tokens_done. reflexivity.
  - simpl. intros [H|[H|[H|[H|[H|[]]]]]]; discriminate.
Defined.

(** C2 as stated fails on [[1 2]: the bracket is open when the input
    ends, and parsing returns a tree instead of an exception. *)
Lemma C2_counterexample :
  parse (lit "[1 2") = Ok [AstNode.Quote [AstNode.Integer 1; AstNode.Integer 2]].
Proof. vm_compute. reflexivity. Qed.

(** ** The [Asm] token *)

(** [Asm] followed by an [Integer] token: once the token after the
    integer has been pulled without exception, the parser raises
    [Assembly is not supported]. *)
Lemma Asm_then_Integer fuel statements p p1 p2 value :
  Parser.currentToken p = Some Token.Asm ->
  Parser.next p = Ok p1 -> Parser.currentToken p1 = Some (Token.Integer value) ->
  Parser.next p1 = Ok p2 ->
  Parser.parseStatements_loop (S fuel) statements p
  = Throw (Error (lit "Assembly is not supported")).
Proof.
  intros Ec E1 Ec1 E2. rewrite parseStatements_loop_step, Ec. simpl.
  rewrite E1. simpl. rewrite Ec1, E2. reflexivity.
Qed.

(** [Asm] followed by a token that is not an [Integer]: the parser
    raises [Syntax error: Expected a short]. *)
Lemma Asm_then_other fuel statements p p1 tok :
  Parser.currentToken p = Some Token.Asm ->
  Parser.next p = Ok p1 -> Parser.currentToken p1 = Some tok ->
  (forall value, tok <> Token.Integer value) ->
  Parser.parseStatements_loop (S fuel) statements p
  = Throw (Error (lit "Syntax error: Expected a short")).
Proof.
  intros Ec E1 Ec1 Hint. rewrite parseStatements_loop_step, Ec. simpl.
  rewrite E1. simpl. rewrite Ec1. destruct tok; try reflexivity.
  exfalso. eapply Hint. reflexivity.
Qed.

(** C3 at the end of the input: when [Asm] is the last token,
    [#currentToken] is [null] after [#next()], and the read of
    [this.#currentToken.type] raises a [TypeError]; the message
    [Syntax error: Expected a short] is not produced. *)
Theorem C3_Asm_last_token_raises_TypeError
  (fuel : nat) (statements : list AstNode) (p p1 : Parser.t) :
  Parser.currentToken p = Some Token.Asm ->
  Parser.next p = Ok p1 -> Parser.currentToken p1 = None ->
  Parser.parseStatements_loop (S fuel) statements p = Throw TypeError.
Proof.
  intros Ec E1 Ec1. rewrite parseStatements_loop_step, Ec. simpl.
  rewrite E1. simpl. rewrite Ec1. reflexivity.
Qed.

(** The source made of the single character [`]. *)
Lemma C3_Asm_last_token_raises_TypeError_witness :
  parse (lit "`") = Throw TypeError.
Proof.
  unfold parse, parse_run, Parser.parseStatements.
  change (Parser.new (lit "`"))
    with (Ok {| Parser.tokenizer := []; Parser.currentToken := Some Token.Asm |}).
  cbn [bind length lit map list_ascii_of_string].
  rewrite (C3_Asm_last_token_raises_TypeError 1 []
             {| Parser.tokenizer := []; Parser.currentToken := Some Token.Asm |}
             {| Parser.tokenizer := []; Parser.currentToken := None |}
             eq_refl eq_refl eq_refl).
  reflexivity.
Defined.

(** The outcomes on sources: [`7] and [`+] raise the two messages of
    the parser; [`] alone, or followed by white space, raises the
    [TypeError]; and since the parser pulls one more token before it
    raises [Assembly is not supported], an exception of the tokenizer
    on what follows the integer comes first. *)
Example Asm_examples :
  parse (lit "`7") = Throw (Error (lit "Assembly is not supported"))
  /\ parse (lit "`+") = Throw (Error (lit "Syntax error: Expected a short"))
  /\ parse (lit "` ") = Throw TypeError
  /\ parse (lit "`7{") = Throw (Error (lit "Unclosed comment")).
Proof. repeat split; vm_compute; reflexivity. Qed.

(** ** The tokenizer, step by step *)

Lemma next_unfold c s :
  Tokenizer.next (c :: s) =
  if Tokenizer.isSpace c then Tokenizer.next s
  else if (c =? ch "{")%N then
         s1 <- Tokenizer.skipComment (c :: s) ;; Tokenizer.next s1
  else nextToken c s.
Proof.
  rewrite next_cons. cbn [Tokenizer.next_loop].
  destruct (Tokenizer.isSpace c); [reflexivity|].
  destruct (c =? ch "{")%N; [|reflexivity].
  destruct (Tokenizer.skipComment (c :: s)) as [s1| |] eqn:E; simpl; try reflexivity.
  apply skipComment_length in E. simpl in E.
  apply next_loop_fuel; lia.
Qed.

Lemma Suffix_refl s : Suffix s s.
Proof. now exists []. Qed.

Lemma Suffix_trans s1 s2 s3 : Suffix s1 s2 -> Suffix s2 s3 -> Suffix s1 s3.
Proof. intros [p1 ->] [p2 ->]. exists (p2 ++ p1). now rewrite app_assoc. Qed.

Lemma Suffix_cons c s' s : Suffix s' s -> Suffix s' (c :: s).
Proof. intros [pre ->]. now exists (c :: pre). Qed.

Lemma Suffix_tail c s : Suffix s (c :: s).
Proof. now exists [c]. Qed.

Lemma Suffix_wf s' s : Suffix s' s -> wf_string s -> wf_string s'.
Proof. intros [pre ->] H. now apply Forall_app in H. Qed.

Lemma skipComment_loop_Suffix s : Suffix (Tokenizer.skipComment_loop s) s.
Proof.
  induction s as [|c s IH]; simpl; [apply Suffix_refl|].
  destruct (negb _); [now apply Suffix_cons | apply Suffix_refl].
Qed.

Lemma nextString_loop_Suffix s : Suffix (Tokenizer.nextString_loop s) s.
Proof.
  induction s as [|c s IH]; simpl; [apply Suffix_refl|].
  destruct (negb _); [now apply Suffix_cons | apply Suffix_refl].
Qed.

Lemma nextNumber_loop_Suffix s : Suffix (Tokenizer.nextNumber_loop s) s.
Proof.
  induction s as [|c s IH]; simpl; [apply Suffix_refl|].
  destruct (Tokenizer.isDigit c); [now apply Suffix_cons | apply Suffix_refl].
Qed.

Lemma eat_Suffix char msg s s' : Tokenizer.eat char msg s = Ok s' -> Suffix s' s.
Proof. intros ->%eat_Ok. apply Suffix_tail. Qed.

Lemma skipComment_Suffix s s' : Tokenizer.skipComment s = Ok s' -> Suffix s' s.
Proof.
  unfold Tokenizer.skipComment. intros H%eat_Suffix.
  eapply Suffix_trans; [exact H | apply skipComment_loop_Suffix].
Qed.

(** Induction on the run of [next]. *)
Lemma next_ind (P : jsstring -> Result (option Token * jsstring) -> Prop) :
  P [] (Ok (None, [])) ->
  (forall c s, Tokenizer.isSpace c = true ->
               P s (Tokenizer.next s) -> P (c :: s) (Tokenizer.next s)) ->
  (forall c s s1, Tokenizer.isSpace c = false -> c = ch "{" ->
                  Tokenizer.skipComment (c :: s) = Ok s1 ->
                  P s1 (Tokenizer.next s1) -> P (c :: s) (Tokenizer.next s1)) ->
  (forall c s e, Tokenizer.isSpace c = false -> c = ch "{" ->
                 Tokenizer.skipComment (c :: s) = Throw e -> P (c :: s) (Throw e)) ->
  (forall c s, Tokenizer.isSpace c = false -> c <> ch "{" ->
               P (c :: s) (nextToken c s)) ->
  forall s, P s (Tokenizer.next s).
Proof.
  intros Hnil Hspace Hcomment Hunclosed Htoken s.
  remember (length s) as n eqn:En. revert s En.
  induction n as [n IH] using lt_wf_ind. intros [|c s] En; [exact Hnil|].
  rewrite next_unfold. simpl in En.
  destruct (Tokenizer.isSpace c) eqn:Es.
  { apply Hspace; [assumption|]. apply (IH (length s)); [lia|reflexivity]. }
  destruct (c =? ch "{")%N eqn:Ec.
  - apply N.eqb_eq in Ec.
    destruct (Tokenizer.skipComment (c :: s)) as [s1| |] eqn:E; simpl.
    + apply Hcomment; auto. apply (IH (length s1)); [|reflexivity].
      apply skipComment_length in E. simpl in E. lia.
    + now apply Hunclosed.
    + now apply eat_not_OutOfFuel in E.
  - apply N.eqb_neq in Ec. now apply Htoken.
Qed.

(** *** The four token readers *)

Lemma nextChar_Ok c s tok s' :
  Tokenizer.nextChar (c :: s) = Ok (tok, s') ->
  c = ch "'" /\ exists d, s = d :: s' /\ tok = Token.Integer (Z.of_N d).
Proof.
  unfold Tokenizer.nextChar.
  destruct (Tokenizer.eat _ None (c :: s)) as [s1| |] eqn:E; simpl; try discriminate.
  apply eat_Ok in E. injection E as -> <-.
  destruct s as [|d s]; [discriminate|]. intros [= <- <-]. eauto.
Qed.

Lemma nextString_Ok c s tok s' :
  Tokenizer.nextString (c :: s) = Ok (tok, s') ->
  c = DQUOTE /\ Tokenizer.nextString_loop s = DQUOTE :: s'
  /\ tok = Token.String (Tokenizer.substring s (Tokenizer.nextString_loop s)).
Proof.
  unfold Tokenizer.nextString.
  destruct (Tokenizer.eat _ None (c :: s)) as [s1| |] eqn:E; simpl; try discriminate.
  apply eat_Ok in E. injection E as -> <-.
  destruct (Tokenizer.eat _ None (Tokenizer.nextString_loop s)) as [s2| |] eqn:E2;
    simpl; try discriminate.
  apply eat_Ok in E2. intros [= <- <-]. auto.
Qed.

(** The text of a digit run. *)
Lemma substring_cons c s s' :
  length s' <= length s ->
  Tokenizer.substring (c :: s) s' = c :: Tokenizer.substring s s'.
Proof.
  unfold Tokenizer.substring. intros L. cbn [length].
  replace (S (length s) - length s') with (S (length s - length s')) by lia.
  reflexivity.
Qed.

Lemma substring_same s : Tokenizer.substring s s = [].
Proof. unfold Tokenizer.substring. now rewrite Nat.sub_diag. Qed.

Lemma nextNumber_loop_digits s :
  exists digits,
    s = digits ++ Tokenizer.nextNumber_loop s
    /\ forallb Tokenizer.isDigit digits = true
    /\ Tokenizer.substring s (Tokenizer.nextNumber_loop s) = digits.
Proof.
  induction s as [|c s (digits & E & Hd & Hs)].
  { exists []. auto. }
  cbn [Tokenizer.nextNumber_loop]. destruct (Tokenizer.isDigit c) eqn:D.
  - exists (c :: digits). split; [simpl; congruence|]. split; [simpl; now rewrite D|].
    rewrite substring_cons by apply nextNumber_loop_length. now rewrite Hs.
  - exists []. repeat split. apply substring_same.
Qed.

Lemma nextNumber_Ok s tok s' :
  Tokenizer.nextNumber s = Ok (tok, s') ->
  exists digits,
    s = digits ++ s' /\ forallb Tokenizer.isDigit digits = true
    /\ tok = Token.Integer (Tokenizer.parseInt digits)
    /\ s' = Tokenizer.nextNumber_loop s.
Proof.
  unfold Tokenizer.nextNumber. intros [= <- <-].
  destruct (nextNumber_loop_digits s) as (digits & E & Hd & ->).
  exists digits. auto.
Qed.

Lemma isDigit_value c :
  Tokenizer.isDigit c = true -> (0 <= Z.of_N c - 48 <= 9)%Z.
Proof.
  unfold Tokenizer.isDigit. intros [H1 H2]%andb_true_iff.
  apply N.leb_le in H1, H2. change (ch "0") with 48%N in H1.
  change (ch "9") with 57%N in H2. lia.
Qed.

Lemma decimal_bounds digits : forall acc,
  forallb Tokenizer.isDigit digits = true -> (0 <= acc)%Z ->
  (0 <= fold_left (fun acc c => 10 * acc + (Z.of_N c - 48)) digits acc
   < (acc + 1) * 10 ^ Z.of_nat (length digits))%Z.
Proof.
  induction digits as [|d digits IH]; intros acc Hd Hacc.
  { simpl. lia. }
  simpl in Hd. apply andb_true_iff in Hd as [Hd Hds].
  apply isDigit_value in Hd.
  cbn [fold_left length]. rewrite Nat2Z.inj_succ, Z.pow_succ_r by lia.
  specialize (IH (10 * acc + (Z.of_N d - 48))%Z Hds ltac:(lia)).
  assert (0 < 10 ^ Z.of_nat (length digits))%Z by (apply Z.pow_pos_nonneg; lia).
  nia.
Qed.

Lemma decimal_range digits :
  forallb Tokenizer.isDigit digits = true ->
  (0 <= Tokenizer.decimal digits < 10 ^ Z.of_nat (length digits))%Z.
Proof.
  intros Hd. pose proof (decimal_bounds digits 0 Hd ltac:(lia)) as B.
  fold (Tokenizer.decimal digits) in B. lia.
Qed.

(** *** Rounding to a double *)

Lemma round53_exact n : (n < 2 ^ 53)%Z -> round53 n = n.
Proof. unfold round53. intros H. apply Z.ltb_lt in H. now rewrite H. Qed.

(** The four cases of the rounding of an integer of 54 bits or more. *)
Lemma round53_cases n :
  (2 ^ 53 <= n)%Z ->
  let e := (Z.log2 n - 52)%Z in
  let q := (n / 2 ^ e)%Z in
  let r := (n mod 2 ^ e)%Z in
  let half := (2 ^ (e - 1))%Z in
  (1 <= e /\ 2 ^ e = 2 * half /\ 0 < half /\ n = q * 2 ^ e + r /\ 0 <= r < 2 ^ e
   /\ 2 ^ 52 * 2 ^ e = 2 ^ Z.log2 n /\ 2 ^ 52 <= q < 2 ^ 53
   /\ ((r < half /\ round53 n = q * 2 ^ e)
       \/ (half < r /\ round53 n = (q + 1) * 2 ^ e)
       \/ (r = half /\ Z.even q = true /\ round53 n = q * 2 ^ e)
       \/ (r = half /\ Z.even q = false /\ round53 n = (q + 1) * 2 ^ e)))%Z.
Proof.
  intros Hn. cbv zeta.
  assert (Hpos : (0 < n)%Z) by (pose proof (Z.pow_pos_nonneg 2 53); lia).
  pose proof (Z.log2_spec n Hpos) as [L1 L2].
  assert (HL : (53 <= Z.log2 n)%Z).
  { apply Z.log2_le_pow2; [exact Hpos | exact Hn]. }
  set (e := (Z.log2 n - 52)%Z) in *.
  assert (He : (1 <= e)%Z) by (unfold e; lia).
  assert (E2 : (2 ^ e = 2 * 2 ^ (e - 1))%Z).
  { replace e with (Z.succ (e - 1)) at 1 by lia. apply Z.pow_succ_r. lia. }
  assert (Hh : (0 < 2 ^ (e - 1))%Z) by (apply Z.pow_pos_nonneg; lia).
  assert (EL : (2 ^ 52 * 2 ^ e = 2 ^ Z.log2 n)%Z).
  { rewrite <- Z.pow_add_r by lia. f_equal. unfold e. lia. }
  assert (EL' : (2 ^ 53 * 2 ^ e = 2 ^ Z.succ (Z.log2 n))%Z).
  { rewrite <- Z.pow_add_r by lia. f_equal. unfold e. lia. }
  pose proof (Z.div_mod n (2 ^ e) ltac:(lia)) as Hdm.
  pose proof (Z.mod_pos_bound n (2 ^ e) ltac:(lia)) as Hr.
  set (q := (n / 2 ^ e)%Z) in *. set (r := (n mod 2 ^ e)%Z) in *.
  set (half := (2 ^ (e - 1))%Z) in *.
  assert (Hq : (2 ^ 52 <= q < 2 ^ 53)%Z).
  { set (P := (2 ^ e)%Z) in *. clearbody P q r half. nia. }
  split; [exact He|]. split; [exact E2|]. split; [exact Hh|].
  split; [lia|]. split; [exact Hr|]. split; [exact EL|]. split; [exact Hq|].
  unfold round53. apply Z.ltb_ge in Hn. rewrite Hn. cbv zeta.
  fold e. fold q. fold r. fold half.
  destruct (r <? half)%Z eqn:C1; [left; split; [now apply Z.ltb_lt | reflexivity]|].
  apply Z.ltb_ge in C1.
  destruct (half <? r)%Z eqn:C2; [right; left; split; [now apply Z.ltb_lt | reflexivity]|].
  apply Z.ltb_ge in C2. right; right.
  destruct (Z.even q) eqn:C3; [left | right]; (split; [lia | split; reflexivity]).
Qed.

Lemma round53_ge n : (2 ^ 53 <= n)%Z -> (2 ^ 53 <= round53 n)%Z.
Proof.
  intros Hn. destruct (round53_cases n Hn) as (He & E2 & Hh & Hdm & Hr & EL & Hq & C).
  set (P := (2 ^ (Z.log2 n - 52))%Z) in *. set (q := (n / P)%Z) in *.
  assert (2 <= P)%Z by lia.
  destruct C as [[_ ->]|[[_ ->]|[(_ & _ & ->)|(_ & _ & ->)]]]; nia.
Qed.

Lemma round53_nonneg n : (0 <= n)%Z -> (0 <= round53 n)%Z.
Proof.
  intros Hn. destruct (Z.lt_ge_cases n (2 ^ 53)) as [H|H].
  - now rewrite round53_exact.
  - apply round53_ge in H. lia.
Qed.

(** The rounding is within half a unit of the last of the 53 bits. *)
Lemma round53_near n :
  (0 <= n)%Z -> (2 ^ 53 * Z.abs (round53 n - n) <= n)%Z.
Proof.
  intros Hn. destruct (Z.lt_ge_cases n (2 ^ 53)) as [H|H].
  { rewrite round53_exact by exact H. rewrite Z.sub_diag. simpl. lia. }
  destruct (round53_cases n H) as (He & E2 & Hh & Hdm & Hr & EL & Hq & C).
  set (P := (2 ^ (Z.log2 n - 52))%Z) in *. set (q := (n / P)%Z) in *.
  set (r := (n mod P)%Z) in *. set (half := (2 ^ (Z.log2 n - 52 - 1))%Z) in *.
  assert (B : (Z.abs (round53 n - n) <= half)%Z).
  { destruct C as [[? ->]|[[? ->]|[(? & _ & ->)|(? & _ & ->)]]]; lia. }
  assert (2 ^ 53 * half <= n)%Z by nia.
  nia.
Qed.

(** The rounding reaches 2^1024 from 2^1024 - 2^970 on: half a unit
    above the largest double, where the tie goes to the even
    significand. *)
Lemma round53_overflow n :
  (0 <= n)%Z -> (2 ^ 1024 <= round53 n <-> 2 ^ 1024 - 2 ^ 970 <= n)%Z.
Proof.
  intros Hn. destruct (Z.lt_ge_cases n (2 ^ 53)) as [H|H].
  { rewrite round53_exact by exact H.
    assert (2 ^ 53 < 2 ^ 1024 - 2 ^ 970)%Z by (vm_compute; reflexivity).
    assert (2 ^ 53 < 2 ^ 1024)%Z by (vm_compute; reflexivity). lia. }
  assert (Hpos : (0 < n)%Z) by (pose proof (Z.pow_pos_nonneg 2 53); lia).
  destruct (round53_cases n H) as (He & E2 & Hh & Hdm & Hr & EL & Hq & C).
  pose proof (Z.log2_spec n Hpos) as [L1 L2].
  destruct (Z.lt_trichotomy (Z.log2 n) 1023) as [HL|[HL|HL]].
  - (* below 2^1023 *)
    assert (U : (round53 n <= 2 ^ Z.succ (Z.log2 n))%Z).
    { assert (EL' : (2 ^ 53 * 2 ^ (Z.log2 n - 52) = 2 ^ Z.succ (Z.log2 n))%Z).
      { rewrite <- Z.pow_add_r by lia. f_equal. lia. }
      set (P := (2 ^ (Z.log2 n - 52))%Z) in *. set (q := (n / P)%Z) in *.
      destruct C as [[_ ->]|[[_ ->]|[(_ & _ & ->)|(_ & _ & ->)]]]; nia. }
    assert (M : (2 ^ Z.succ (Z.log2 n) <= 2 ^ 1023)%Z) by (apply Z.pow_le_mono_r; lia).
    assert (2 ^ 1023 < 2 ^ 1024 - 2 ^ 970)%Z by (vm_compute; reflexivity).
    assert (2 ^ 1023 < 2 ^ 1024)%Z by (vm_compute; reflexivity).
    lia.
  - (* between 2^1023 and 2^1024 *)
    rewrite HL in *. change (1023 - 52)%Z with 971%Z in *.
    change (971 - 1)%Z with 970%Z in *.
    set (q := (n / 2 ^ 971)%Z) in *. set (r := (n mod 2 ^ 971)%Z) in *.
    assert (T : (2 ^ 1024 = 2 ^ 53 * 2 ^ 971)%Z) by (vm_compute; reflexivity).
    assert (T' : (2 ^ 971 = 2 * 2 ^ 970)%Z) by (vm_compute; reflexivity).
    assert (Hodd : q = (2 ^ 53 - 1)%Z -> Z.even q = false) by (intros ->; reflexivity).
    rewrite T. set (P := (2 ^ 971)%Z) in *. set (h := (2 ^ 970)%Z) in *.
    clearbody P h q r.
    destruct C as [[? ->]|[[? ->]|[(? & Ev & ->)|(? & Ev & ->)]]]; split; intros G;
      try nia.
    assert (Eq : q = (2 ^ 53 - 1)%Z) by nia. apply Hodd in Eq. congruence.
  - (* from 2^1024 on *)
    assert (M : (2 ^ 1024 <= 2 ^ Z.log2 n)%Z) by (apply Z.pow_le_mono_r; lia).
    assert (0 < 2 ^ 970)%Z by (vm_compute; reflexivity).
    split; intros _; [lia|].
    set (P := (2 ^ (Z.log2 n - 52))%Z) in *. set (q := (n / P)%Z) in *.
    destruct C as [[_ ->]|[[_ ->]|[(_ & _ & ->)|(_ & _ & ->)]]]; nia.
Qed.

Lemma toDouble_exact n : (n < 2 ^ 53)%Z -> toDouble n = Finite n.
Proof.
  intros H. unfold toDouble. rewrite round53_exact by exact H.
  assert (2 ^ 53 < 2 ^ 1024)%Z by (vm_compute; reflexivity).
  assert (E : (n <? 2 ^ 1024)%Z = true) by (apply Z.ltb_lt; lia).
  now rewrite E.
Qed.

Lemma toDouble_Finite n v : toDouble n = Finite v -> v = round53 n.
Proof. unfold toDouble. destruct (_ <? _)%Z; congruence. Qed.

Lemma toDouble_Infinity n :
  (0 <= n)%Z -> (toDouble n = Infinity <-> 2 ^ 1024 - 2 ^ 970 <= n)%Z.
Proof.
  intros Hn. rewrite <- round53_overflow by exact Hn. unfold toDouble.
  destruct (round53 n <? 2 ^ 1024)%Z eqn:E.
  - apply Z.ltb_lt in E. split; [discriminate | lia].
  - apply Z.ltb_ge in E. split; [intros _; exact E | reflexivity].
Qed.

Lemma nextNumber_loop_stop s :
  match Tokenizer.nextNumber_loop s with
  | c :: _ => Tokenizer.isDigit c = false
  | [] => True
  end.
Proof.
  induction s as [|c s IH]; [exact I|]. cbn [Tokenizer.nextNumber_loop].
  destruct (Tokenizer.isDigit c) eqn:D; [exact IH | exact D].
Qed.

(** *** What [next] returns *)

Lemma nextToken_Suffix c s r s' :
  nextToken c s = Ok (r, s') -> Suffix s' s.
Proof.
  unfold nextToken.
  destruct (c =? ch "'")%N.
  { destruct (Tokenizer.nextChar (c :: s)) as [[tok s1]| |] eqn:E; simpl; try discriminate.
    intros [= _ <-]. apply nextChar_Ok in E as (_ & d & -> & _). apply Suffix_tail. }
  destruct (c =? DQUOTE)%N.
  { destruct (Tokenizer.nextString (c :: s)) as [[tok s1]| |] eqn:E; simpl; try discriminate.
    intros [= _ <-]. apply nextString_Ok in E as (_ & E & _).
    eapply Suffix_trans; [apply Suffix_tail|]. rewrite <- E. apply nextString_loop_Suffix. }
  destruct (Tokenizer.isDigit c) eqn:D.
  { unfold Tokenizer.nextNumber. simpl. rewrite D. intros [= _ <-].
    apply nextNumber_loop_Suffix. }
  destruct (Tokenizer.isLower c).
  { simpl. intros [= _ <-]. apply Suffix_refl. }
  destruct (Tokenizer.get Tokenizer.symbols c); [|discriminate].
  intros [= _ <-]. apply Suffix_refl.
Qed.

Lemma next_Suffix s : forall r s', Tokenizer.next s = Ok (r, s') -> Suffix s' s.
Proof.
  pattern s, (Tokenizer.next s). apply next_ind; clear s.
  - intros r s' [= _ <-]. apply Suffix_refl.
  - intros c s _ IH r s' E. apply Suffix_cons. eauto.
  - intros c s s1 _ _ Hs IH r s' E.
    eapply Suffix_trans; [eauto|]. eapply Suffix_trans; [|apply Suffix_refl].
    now apply skipComment_Suffix.
  - discriminate.
  - intros c s _ _ r s' E. apply Suffix_cons. eapply nextToken_Suffix; eauto.
Qed.

Lemma symbols_not_Integer c v : Tokenizer.get Tokenizer.symbols c <> Some (Token.Integer v).
Proof.
  unfold Tokenizer.symbols. cbn [Tokenizer.get].
  repeat (destruct (_ =? c)%N; [discriminate|]). discriminate.
Qed.

Lemma nextToken_Integer c s v s' :
  wf_string (c :: s) -> nextToken c s = Ok (Some (Token.Integer v), s') ->
  exists text, c :: s = text ++ s' /\ literalText text s' v.
Proof.
  intros Hwf. unfold nextToken.
  destruct (c =? ch "'")%N.
  { destruct (Tokenizer.nextChar (c :: s)) as [[tok s1]| |] eqn:E; simpl; try discriminate.
    intros [= -> <-]. apply nextChar_Ok in E as (-> & d & -> & [= ->]).
    apply Forall_inv_tail, Forall_inv in Hwf.
    exists [ch "'"; d]. split; [reflexivity|]. left. exists d. auto. }
  destruct (c =? DQUOTE)%N.
  { destruct (Tokenizer.nextString (c :: s)) as [[tok s1]| |] eqn:E; simpl; try discriminate.
    intros [= -> <-]. now apply nextString_Ok in E as (_ & _ & [=]). }
  destruct (Tokenizer.isDigit c) eqn:D.
  { destruct (Tokenizer.nextNumber (c :: s)) as [[tok s1]| |] eqn:E; simpl; try discriminate.
    intros [= -> <-]. apply nextNumber_Ok in E as (digits & E & Hd & [= ->] & Es).
    exists digits. split; [exact E|]. right.
    split; [|split; [exact Hd|split; [|reflexivity]]].
    - intros ->. simpl in E. subst s1. simpl in Es. rewrite D in Es.
      pose proof (nextNumber_loop_length s) as L. rewrite <- Es in L. simpl in L. lia.
    - rewrite Es. apply nextNumber_loop_stop. }
  destruct (Tokenizer.isLower c); [discriminate|].
  destruct (Tokenizer.get Tokenizer.symbols c) eqn:G; [|discriminate].
  intros [= -> _]. now apply symbols_not_Integer in G.
Qed.

Lemma next_Integer s : forall v s',
  wf_string s -> Tokenizer.next s = Ok (Some (Token.Integer v), s') ->
  exists pre text, s = pre ++ text ++ s' /\ literalText text s' v.
Proof.
  pattern s, (Tokenizer.next s). apply next_ind; clear s.
  - discriminate.
  - intros c s _ IH v s' Hwf E. apply Forall_inv_tail in Hwf.
    destruct (IH v s' Hwf E) as (pre & text & -> & Ht).
    exists (c :: pre), text. split; [reflexivity | exact Ht].
  - intros c s s1 _ _ Hs IH v s' Hwf E.
    apply skipComment_Suffix in Hs. pose proof (Suffix_wf _ _ Hs Hwf) as Hwf1.
    destruct Hs as (pre0 & E0).
    destruct (IH v s' Hwf1 E) as (pre & text & -> & Ht).
    exists (pre0 ++ pre), text. split; [|exact Ht].
    rewrite E0, <- app_assoc. reflexivity.
  - discriminate.
  - intros c s _ _ v s' Hwf E.
    destruct (nextToken_Integer c s v s' Hwf E) as (text & Et & Ht).
    exists [], text. split; [exact Et | exact Ht].
Qed.

(** ** The values of integer literals *)

Lemma IntegersIn_Quote P body :
  IntegersIn P (AstNode.Quote body) <-> AllIntegers P body.
Proof.
  unfold AllIntegers. cbn [IntegersIn].
  induction body as [|node body IH].
  - split; [constructor|trivial].
  - rewrite IH. split.
    + intros [H1 H2]. now constructor.
    + intros H. inversion H. auto.
Qed.

Lemma atom_IntegersIn P tok node :
  atom tok = Some node -> IntegerToken P (Some tok) -> IntegersIn P node.
Proof. destruct tok; simpl; intros [= <-]; simpl; auto. Qed.

Lemma AllIntegers_push P statements node :
  AllIntegers P statements -> IntegersIn P node -> AllIntegers P (statements ++ [node]).
Proof. intros H1 H2. apply Forall_app. split; [assumption|]. now constructor. Qed.

Lemma literalIn_Suffix source s pre text s' v :
  Suffix s source -> s = pre ++ text ++ s' -> literalText text s' v ->
  literalIn source v.
Proof.
  intros (pre0 & ->) -> Ht. exists (pre0 ++ pre), text, s'.
  split; [now rewrite <- app_assoc | exact Ht].
Qed.

Lemma Parser_next_Integer source p p1 :
  wf_string source -> Suffix (Parser.tokenizer p) source -> Parser.next p = Ok p1 ->
  Suffix (Parser.tokenizer p1) source
  /\ IntegerToken (literalIn source) (Parser.currentToken p1).
Proof.
  unfold Parser.next. intros Hwf Hs.
  destruct (Tokenizer.next (Parser.tokenizer p)) as [[tok s']| |] eqn:E; simpl;
    try discriminate.
  intros [= <-]. simpl. split.
  - apply next_Suffix in E. eapply Suffix_trans; eauto.
  - destruct tok as [[]|]; simpl; auto.
    destruct (next_Integer _ _ _ (Suffix_wf _ _ Hs Hwf) E) as (pre & text & Es & Ht).
    eapply literalIn_Suffix; eauto.
Qed.

(** The loop of [parseStatements] pushes integer literals of the
    source only. *)
Lemma parseStatements_loop_Integer source (Hwf : wf_string source) fuel :
  forall statements p statements' p',
  Suffix (Parser.tokenizer p) source ->
  IntegerToken (literalIn source) (Parser.currentToken p) ->
  AllIntegers (literalIn source) statements ->
  Parser.parseStatements_loop fuel statements p = Ok (statements', p') ->
  AllIntegers (literalIn source) statements'
  /\ Suffix (Parser.tokenizer p') source
  /\ IntegerToken (literalIn source) (Parser.currentToken p').
Proof.
  induction fuel as [|fuel IH]; intros statements p statements' p' Hs Hc Hst E.
  { rewrite parseStatements_loop_O in E. discriminate. }
  rewrite parseStatements_loop_step in E.
  destruct (Parser.currentToken p) as [tok|] eqn:Ec.
  2:{ injection E as <- <-. rewrite Ec. auto. }
  assert (Hinstr : forall node st p0,
             Suffix (Parser.tokenizer p0) source ->
             AllIntegers (literalIn source) st ->
             IntegersIn (literalIn source) node ->
             ('(st, p2) <- Parser.instr node st p0 ;;
              Parser.parseStatements_loop fuel st p2) = Ok (statements', p') ->
             AllIntegers (literalIn source) statements'
             /\ Suffix (Parser.tokenizer p') source
             /\ IntegerToken (literalIn source) (Parser.currentToken p')).
  { intros node st p0 Hs0 Hst0 Hn. unfold Parser.instr.
    destruct (Parser.next p0) as [p2| |] eqn:E2; simpl; try discriminate.
    destruct (Parser_next_Integer source _ _ Hwf Hs0 E2) as [Hs2 Hc2].
    apply IH; auto. now apply AllIntegers_push. }
  destruct (atom tok) as [node|] eqn:Ea.
  { revert E. apply Hinstr; auto. eapply atom_IntegersIn; eauto. }
  destruct tok; try discriminate Ea.
  - (* OpenBracket *)
    destruct (Parser.next p) as [p1| |] eqn:E1; simpl in E; try discriminate.
    destruct (Parser_next_Integer source _ _ Hwf Hs E1) as [Hs1 Hc1].
    destruct (Parser.parseStatements_loop fuel [] p1) as [[body p2]| |] eqn:E2;
      simpl in E; try discriminate.
    destruct (IH _ _ _ _ Hs1 Hc1 (Forall_nil _) E2) as (Hb & Hs2 & _).
    revert E. apply Hinstr; auto. now apply IntegersIn_Quote.
  - (* CloseBracket *) injection E as <- <-. rewrite Ec. auto.
  - (* Flush *)
    destruct (Parser.next p) as [p1| |] eqn:E1; simpl in E; try discriminate.
    destruct (Parser_next_Integer source _ _ Hwf Hs E1) as [Hs1 Hc1]. eapply IH; eauto.
  - (* Asm *)
    destruct (Parser.next p) as [p1| |] eqn:E1; simpl in E; try discriminate.
    destruct (Parser.currentToken p1) as [[]|]; try discriminate.
    destruct (Parser.next p1); discriminate.
Qed.

(** Every [Integer] node of a tree that [parse] returns holds the
    value of an integer literal of the source. *)
Lemma parse_Integers source ast :
  wf_string source -> parse source = Ok ast -> AllIntegers (literalIn source) ast.
Proof.
  intros Hwf. unfold parse, parse_run, Parser.new, Parser.parseStatements.
  destruct (Parser.next {| Parser.tokenizer := source; Parser.currentToken := None |})
    as [p| |] eqn:E; simpl; try discriminate.
  destruct (Parser_next_Integer source
              {| Parser.tokenizer := source; Parser.currentToken := None |} _ Hwf
              (Suffix_refl source) E)
    as [Hsp Hcp].
  destruct (Parser.parseStatements_loop (S (length source)) [] p) as [[st p']| |] eqn:E';
    simpl; try discriminate.
  intros [= <-]. eapply parseStatements_loop_Integer; eauto. constructor.
Qed.

(** ** A source followed by a closing bracket *)

Section Followed.

Variable suffix : jsstring.

Let q : jsstring := ch "]" :: suffix.

Lemma skipComment_loop_app s c s' :
  Tokenizer.skipComment_loop s = c :: s' ->
  Tokenizer.skipComment_loop (s ++ q) = c :: s' ++ q.
Proof.
  induction s as [|d s IH]; simpl; [discriminate|].
  destruct (negb _); [assumption|]. now intros [= -> ->].
Qed.

Lemma skipComment_app s s1 :
  Tokenizer.skipComment s = Ok s1 -> Tokenizer.skipComment (s ++ q) = Ok (s1 ++ q).
Proof.
  unfold Tokenizer.skipComment. intros H%eat_Ok.
  rewrite (skipComment_loop_app _ _ _ H). reflexivity.
Qed.

Lemma nextString_loop_app s c s' :
  Tokenizer.nextString_loop s = c :: s' ->
  Tokenizer.nextString_loop (s ++ q) = c :: s' ++ q.
Proof.
  induction s as [|d s IH]; simpl; [discriminate|].
  destruct (negb _); [assumption|]. now intros [= -> ->].
Qed.

Lemma nextNumber_loop_app s :
  Tokenizer.nextNumber_loop (s ++ q) = Tokenizer.nextNumber_loop s ++ q.
Proof.
  induction s as [|d s IH]; simpl; [reflexivity|].
  now destruct (Tokenizer.isDigit d).
Qed.

Lemma substring_app s s' :
  length s' <= length s ->
  Tokenizer.substring (s ++ q) (s' ++ q) = Tokenizer.substring s s'.
Proof.
  unfold Tokenizer.substring. intros L. rewrite !length_app.
  replace (length s + length q - (length s' + length q)) with (length s - length s')
    by lia.
  rewrite firstn_app.
  replace (length s - length s' - length s) with 0 by lia.
  simpl. apply app_nil_r.
Qed.

Lemma nextString_app s s' :
  Tokenizer.nextString_loop s = DQUOTE :: s' ->
  Tokenizer.nextString (DQUOTE :: s ++ q)
  = Ok (Token.String (Tokenizer.substring s (Tokenizer.nextString_loop s)), s' ++ q).
Proof.
  intros E. unfold Tokenizer.nextString.
  change (Tokenizer.eat DQUOTE None (DQUOTE :: s ++ q)) with (Ok (s ++ q)).
  cbn [bind]. rewrite (nextString_loop_app _ _ _ E).
  change (Tokenizer.eat DQUOTE None (DQUOTE :: s' ++ q)) with (Ok (s' ++ q)).
  cbn [bind]. change (DQUOTE :: s' ++ q) with ((DQUOTE :: s') ++ q).
  rewrite substring_app, E; [reflexivity|].
  rewrite <- E. apply nextString_loop_length.
Qed.

Lemma nextToken_app c s tok s' :
  nextToken c s = Ok (Some tok, s') ->
  nextToken c (s ++ q) = Ok (Some tok, s' ++ q).
Proof.
  unfold nextToken.
  destruct (c =? ch "'")%N.
  { destruct (Tokenizer.nextChar (c :: s)) as [[t s1]| |] eqn:E; simpl;
      try discriminate.
    intros [= -> ->]. apply nextChar_Ok in E as (-> & d & -> & ->). reflexivity. }
  destruct (c =? DQUOTE)%N.
  { destruct (Tokenizer.nextString (c :: s)) as [[t s1]| |] eqn:E; simpl;
      try discriminate.
    intros [= -> ->]. apply nextString_Ok in E as (-> & E & ->).
    now rewrite (nextString_app _ _ E). }
  destruct (Tokenizer.isDigit c) eqn:D.
  { unfold Tokenizer.nextNumber. simpl. rewrite D. intros [= <- <-].
    rewrite nextNumber_loop_app.
    change (c :: s ++ q) with ((c :: s) ++ q).
    rewrite substring_app; [reflexivity|].
    simpl. pose proof (nextNumber_loop_length s). lia. }
  destruct (Tokenizer.isLower c).
  { simpl. now intros [= <- <-]. }
  destruct (Tokenizer.get Tokenizer.symbols c); [|discriminate].
  now intros [= <- <-].
Qed.

Lemma nextToken_not_done c s s' : nextToken c s <> Ok (None, s').
Proof.
  unfold nextToken.
  destruct (c =? ch "'")%N.
  { destruct (Tokenizer.nextChar (c :: s)) as [[t s1]| |]; discriminate. }
  destruct (c =? DQUOTE)%N.
  { destruct (Tokenizer.nextString (c :: s)) as [[t s1]| |]; discriminate. }
  destruct (Tokenizer.isDigit c); [discriminate|].
  destruct (Tokenizer.isLower c); [discriminate|].
  destruct (Tokenizer.get Tokenizer.symbols c); discriminate.
Qed.

(** A token of the source is the same token when the source is
    followed by a closing bracket. *)
Lemma next_app_token s : forall tok s',
  Tokenizer.next s = Ok (Some tok, s') ->
  Tokenizer.next (s ++ q) = Ok (Some tok, s' ++ q).
Proof.
  pattern s, (Tokenizer.next s). apply next_ind; clear s.
  - discriminate.
  - intros c s Hs IH tok s' E. simpl. rewrite next_unfold, Hs. auto.
  - intros c s s1 Hs -> Hc IH tok s' E.
    change ((ch "{" :: s) ++ q) with (ch "{" :: s ++ q).
    rewrite next_unfold, Hs, N.eqb_refl.
    change (ch "{" :: s ++ q) with ((ch "{" :: s) ++ q).
    rewrite (skipComment_app _ _ Hc). simpl. auto.
  - discriminate.
  - intros c s Hs Hc tok s' E. simpl. rewrite next_unfold, Hs.
    apply N.eqb_neq in Hc. rewrite Hc. now apply nextToken_app.
Qed.

(** At the end of the source, the next token is the closing
    bracket, and nothing after it has been read. *)
Lemma next_app_done s : forall s',
  Tokenizer.next s = Ok (None, s') ->
  Tokenizer.next (s ++ q) = Ok (Some Token.CloseBracket, suffix).
Proof.
  pattern s, (Tokenizer.next s). apply next_ind; clear s.
  - intros _ _. reflexivity.
  - intros c s Hs IH s' E. simpl. rewrite next_unfold, Hs. eauto.
  - intros c s s1 Hs -> Hc IH s' E.
    change ((ch "{" :: s) ++ q) with (ch "{" :: s ++ q).
    rewrite next_unfold, Hs, N.eqb_refl.
    change (ch "{" :: s ++ q) with ((ch "{" :: s) ++ q).
    rewrite (skipComment_app _ _ Hc). simpl. eauto.
  - discriminate.
  - intros c s Hs Hc s' E. now apply nextToken_not_done in E.
Qed.

Lemma Parser_next_extended p p1 :
  Parser.next p = Ok p1 ->
  Parser.next {| Parser.tokenizer := Parser.tokenizer p ++ q;
                 Parser.currentToken := Parser.currentToken p |}
  = Ok (extended suffix p1).
Proof.
  unfold Parser.next, extended. simpl.
  destruct (Tokenizer.next (Parser.tokenizer p)) as [[[tok|] s']| |] eqn:E; simpl;
    try discriminate; intros [= <-]; simpl.
  - now rewrite (next_app_token _ _ _ E).
  - now rewrite (next_app_done _ _ E).
Qed.

End Followed.

(** ** A closing bracket at the outermost depth *)

Lemma balancedFrom_atom depth tok node toks :
  atom tok = Some node -> balancedFrom depth (tok :: toks) = balancedFrom depth toks.
Proof. destruct tok; simpl; intros [=]; reflexivity. Qed.

Lemma extended_current suffix p tok :
  Parser.currentToken p = Some tok ->
  extended suffix p
  = {| Parser.tokenizer := Parser.tokenizer p ++ ch "]" :: suffix;
       Parser.currentToken := Some tok |}.
Proof. unfold extended. now intros ->. Qed.

Lemma extended_next suffix p p1 tok :
  Parser.currentToken p = Some tok -> Parser.next p = Ok p1 ->
  Parser.next (extended suffix p) = Ok (extended suffix p1).
Proof.
  intros Ec E. rewrite (extended_current _ _ _ Ec).
  rewrite <- (Parser_next_extended suffix p p1 E). reflexivity.
Qed.

(** The run of the loop of [parseStatements] on a source, and the run
    on the same source followed by a closing bracket and [suffix].
    When the loop stops at a [CloseBracket] of the source, the two runs
    agree, and the brackets read are matched.  When it stops at the end
    of the source, no bracket closes the call; if moreover no bracket
    is left open, the other run stops at the added bracket with the
    same array, and [suffix] is still to be lexed. *)
Lemma parseStatements_loop_followed suffix fuel :
  forall statements p statements' p' toks,
    Parser.parseStatements_loop fuel statements p = Ok (statements', p') ->
    ParserTokens p toks ->
    (Parser.currentToken p' <> None \/ balancedFrom 0 toks = true ->
     Parser.parseStatements_loop fuel statements (extended suffix p)
     = Ok (statements', extended suffix p'))
    /\ (Parser.currentToken p' <> None ->
        Parser.currentToken p' = Some Token.CloseBracket
        /\ exists toks', ParserTokens p' toks'
                         /\ forall depth, balancedFrom depth toks = balancedFrom depth toks')
    /\ (Parser.currentToken p' = None ->
        Parser.tokenizer p' = []
        /\ forall depth, balancedFrom depth toks = true -> depth = 0).
Proof.
  induction fuel as [|fuel IH]; intros statements p statements' p' toks E HT.
  { rewrite parseStatements_loop_O in E. discriminate. }
  rewrite parseStatements_loop_step in E. rewrite parseStatements_loop_step.
  destruct (Parser.currentToken p) as [tok|] eqn:Ec.
  2:{ injection E as <- <-. destruct (ParserTokens_end _ _ Ec HT) as [-> ->].
      split; [reflexivity|]. split; [intros H; now destruct H|].
      intros _. split; [reflexivity|].
      intros [|depth]; simpl; [reflexivity|discriminate]. }
  rewrite (extended_current suffix p tok Ec). cbn [Parser.currentToken].
  rewrite <- (extended_current suffix p tok Ec).
  destruct (ParserTokens_current _ _ _ Ec HT) as (rest & -> & p1 & E1 & HT1).
  pose proof (extended_next suffix p p1 tok Ec E1) as X1.
  destruct (atom tok) as [node|] eqn:Ea.
  { unfold Parser.instr in *. rewrite E1 in E. rewrite X1. cbn [bind] in *.
    destruct (IH _ _ _ _ _ E HT1) as (A & B & C).
    rewrite (balancedFrom_atom 0 tok node rest Ea).
    split; [exact A|]. split.
    - intros H. destruct (B H) as (Hc & toks' & HT' & Hb). split; [exact Hc|].
      exists toks'. split; [exact HT'|]. intros depth.
      rewrite (balancedFrom_atom depth tok node rest Ea). apply Hb.
    - intros H. destruct (C H) as [Hn Hd]. split; [exact Hn|]. intros depth.
      rewrite (balancedFrom_atom depth tok node rest Ea). apply Hd. }
  destruct tok; try discriminate Ea.
  - (* OpenBracket *)
    rewrite E1 in E. rewrite X1. cbn [bind] in *.
    destruct (Parser.parseStatements_loop fuel [] p1) as [[body p2]| |] eqn:E2;
      cbn [bind] in E; try discriminate.
    destruct (IH _ _ _ _ _ E2 HT1) as (A2 & B2 & C2).
    destruct (Parser.currentToken p2) as [tok2|] eqn:Ec2.
    + assert (N2 : Some tok2 <> None) by discriminate.
      destruct (B2 N2) as ([= ->] & toks2 & HT2 & Hb2).
      rewrite (A2 (or_introl N2)). cbn [bind].
      destruct (ParserTokens_current _ _ _ Ec2 HT2) as (rest2 & -> & p3 & E3 & HT3).
      unfold Parser.instr in *. rewrite E3 in E.
      rewrite (extended_next suffix p2 p3 _ Ec2 E3). cbn [bind] in *.
      destruct (IH _ _ _ _ _ E HT3) as (A & B & C).
      assert (Hb : forall depth,
                 balancedFrom depth (Token.OpenBracket :: rest)
                 = balancedFrom depth rest2).
      { intros depth. cbn [balancedFrom]. now rewrite Hb2. }
      rewrite Hb. split; [exact A|]. split.
      * intros H. destruct (B H) as (Hc & toks' & HT' & Hb'). split; [exact Hc|].
        exists toks'. split; [exact HT'|]. intros depth. rewrite Hb. apply Hb'.
      * intros H. destruct (C H) as [Hn Hd]. split; [exact Hn|]. intros depth.
        rewrite Hb. apply Hd.
    + destruct (C2 eq_refl) as [Hn2 Hd2].
      assert (Hopen : forall depth,
                 balancedFrom depth (Token.OpenBracket :: rest) = true -> False).
      { intros depth H. cbn [balancedFrom] in H.
        specialize (Hd2 (S depth) H). discriminate. }
      destruct p2 as [s2 c2]. cbn [Parser.tokenizer Parser.currentToken] in *.
      subst s2 c2. unfold Parser.instr in E.
      change (Parser.next {| Parser.tokenizer := []; Parser.currentToken := None |})
        with (Ok {| Parser.tokenizer := []; Parser.currentToken := None |}) in E.
      cbn [bind] in E. destruct fuel as [|fuel]; [discriminate E|].
      rewrite parseStatements_loop_step in E. cbn [Parser.currentToken] in E.
      injection E as <- <-. cbn [Parser.currentToken Parser.tokenizer].
      split; [intros [H|H]; [now destruct H | now destruct (Hopen 0)]|].
      split; [intros H; now destruct H|].
      intros _. split; [reflexivity|]. intros depth H. now destruct (Hopen depth).
  - (* CloseBracket *)
    injection E as <- <-. rewrite Ec.
    split; [reflexivity|]. split.
    + intros _. split; [reflexivity|]. exists (Token.CloseBracket :: rest). auto.
    + discriminate.
  - (* Flush *)
    rewrite E1 in E. rewrite X1. cbn [bind] in *.
    destruct (IH _ _ _ _ _ E HT1) as (A & B & C).
    split; [exact A|]. split.
    * intros H. destruct (B H) as (Hc & toks' & HT' & Hb'). split; [exact Hc|].
      exists toks'. split; [exact HT'|]. intros depth. apply Hb'.
    * intros H. destruct (C H) as [Hn Hd]. split; [exact Hn|]. intros depth.
      apply Hd.
  - (* Asm *)
    rewrite E1 in E. cbn [bind] in E.
    destruct (Parser.currentToken p1) as [[]|]; try discriminate.
    destruct (Parser.next p1); discriminate.
Qed.

(** C10: a source that lexes without exception, whose brackets are
    matched, and that parses to [ast], followed by a [CloseBracket] and
    by any [suffix], parses to [ast] as well; [parse] returns with the
    [CloseBracket] as the current token and with [suffix] entire and
    unread in the tokenizer, so that nothing in [suffix] can raise an
    exception or reach the tree. *)
Theorem C10_top_level_CloseBracket_ends_parsing
  (prefix suffix : jsstring) (toks : list Token) (ast : list AstNode) :
  Tokens prefix toks -> balanced toks = true -> parse prefix = Ok ast ->
  parse_run (prefix ++ ch "]" :: suffix)
  = Ok (ast, {| Parser.tokenizer := suffix;
                Parser.currentToken := Some Token.CloseBracket |})
  /\ parse (prefix ++ ch "]" :: suffix) = Ok ast.
Proof.
  intros HT Hb Hp.
  assert (R : parse_run (prefix ++ ch "]" :: suffix)
              = Ok (ast, {| Parser.tokenizer := suffix;
                            Parser.currentToken := Some Token.CloseBracket |})).
  2:{ split; [exact R|]. unfold parse. now rewrite R. }
  unfold parse, parse_run, Parser.parseStatements in *.
  destruct (Parser_new_tokens _ _ HT) as (p0 & E0 & HT0 & _). rewrite E0 in Hp.
  cbn [bind] in Hp.
  destruct (Parser.parseStatements_loop (S (length prefix)) [] p0)
    as [[ast' p']| |] eqn:E; cbn [bind] in Hp; try discriminate.
  injection Hp as ->.
  destruct (parseStatements_loop_followed suffix _ _ _ _ _ _ E HT0) as (A & B & C).
  assert (Ec : Parser.currentToken p' = None).
  { destruct (Parser.currentToken p') as [tok|] eqn:Ec; [|reflexivity].
    destruct (B ltac:(discriminate)) as ([= ->] & toks' & HT' & Hb').
    destruct (ParserTokens_current _ _ _ Ec HT') as (rest & -> & _).
    unfold balanced in Hb. rewrite Hb' in Hb. discriminate. }
  specialize (A (or_intror Hb)).
  unfold Parser.new in *.
  pose proof (Parser_next_extended suffix
                {| Parser.tokenizer := prefix; Parser.currentToken := None |} p0 E0)
    as X0.
  cbn [Parser.tokenizer Parser.currentToken] in X0. rewrite X0. cbn [bind].
  rewrite (parseStatements_loop_fuel _ _ _ _ _ A); [|discriminate|].
  - unfold extended. now rewrite Ec.
  - rewrite length_app. lia.
Qed.

(** The prefix [1 [2] .], and a suffix that would raise an exception
    if it were lexed: an invalid character and a comment left open. *)
Lemma C10_top_level_CloseBracket_ends_parsing_witness :
  parse (lit "1 [2] ." ++ ch "]" :: lit "} {")
  = Ok [AstNode.Integer 1; AstNode.Quote [AstNode.Integer 2]; AstNode.PrintInt].
Proof.
  refine (proj2 (C10_top_level_CloseBracket_ends_parsing (lit "1 [2] .") (lit "} {")
                   [Token.Integer 1; Token.OpenBracket; Token.Integer 2;
                    Token.CloseBracket; Token.PrintInt] _ _ _ _)).
  - repeat (eapply Tokens_next; [reflexivity|]). eapply Tokens_done. reflexivity.
  - reflexivity.
  - vm_compute. reflexivity.
Defined.

(** ** The output file name *)

(** C9 on a name without a dot: the regular expression finds no match,
    [replace] returns the name as it is, and the derived output name is
    the input name itself, with no [.ll] at its end. *)
Theorem C9_name_without_dot_is_unchanged (filename : jsstring) :
  ~ In (ch ".") filename -> outFile None filename = filename.
Proof.
  unfold outFile. induction filename as [|c rest IH]; intros H; [reflexivity|].
  cbn [replaceExtension].
  destruct (c =? ch ".")%N eqn:E.
  { apply N.eqb_eq in E. destruct H. now left. }
  cbn [andb]. f_equal. apply IH. intros H'. apply H. now right.
Qed.

(** The input [prog]. *)
Lemma C9_name_without_dot_is_unchanged_witness :
  outFile None (lit "prog") = lit "prog".
Proof.
  apply (C9_name_without_dot_is_unchanged (lit "prog")).
  simpl. intros [H|[H|[H|[H|[]]]]]; discriminate.
Defined.

(** Where the name has a dot followed by at least one character,
    everything from the first dot on is replaced by [.ll]. *)
Lemma replaceExtension_first_dot (base ext : jsstring) :
  ~ In (ch ".") base -> ext <> [] ->
  forallb (fun d => negb (isLineTerminator d)) ext = true ->
  outFile None (base ++ ch "." :: ext) = base ++ lit ".ll".
Proof.
  unfold outFile. intros Hb He Hl. induction base as [|c base IH].
  - cbn [app replaceExtension]. rewrite N.eqb_refl, Hl.
    destruct ext; [contradiction|reflexivity].
  - cbn [app replaceExtension].
    destruct (c =? ch ".")%N eqn:E.
    { apply N.eqb_eq in E. destruct Hb. now left. }
    cbn [andb]. f_equal. apply IH. intros H'. apply Hb. now right.
Qed.

Example outFile_examples :
  outFile None (lit "prog.f") = lit "prog.ll"
  /\ outFile None (lit "a.b.c") = lit "a.ll"
  /\ outFile None (lit "prog.") = lit "prog."
  /\ outFile None (lit "prog") = lit "prog".
Proof. repeat split. Qed.

(** ** Structural comparison and the hoisting of quotations *)

(** Induction on a node, with the nodes of a quotation's body. *)
Lemma AstNode_nested_ind (P : AstNode -> Prop) :
  (forall body, Forall P body -> P (AstNode.Quote body)) ->
  (forall node, AstNode.type node <> AstType.Quote -> P node) ->
  forall node, P node.
Proof.
  intros HQ HO. fix IH 1. intros node.
  destruct node; try (apply HO; discriminate).
  apply HQ.
  match goal with
  | |- Forall P ?nodes =>
      induction nodes as [|node body IHbody]; constructor; [apply IH | exact IHbody]
  end.
Qed.

Lemma astEqualValues_eq x y :
  astEqualValues x y = astEqual (value x) (value y).
Proof. destruct x, y; reflexivity. Qed.

(** [astEqual] as the source has it: after the tests on the types and
    on the lengths, the loop returns the comparison of the first pair
    of nodes; the rest of the arrays is not looked at. *)
Lemma astEqual_eq a b :
  astEqual a b =
  if negb (JsType_eqb (typeof a) (typeof b)) then false
  else if negb (isArray a && isArray b) then strictEq a b
  else match a, b with
       | VArray a, VArray b =>
           if negb (length a =? length b)%nat then false
           else match a, b with
                | a0 :: _, b0 :: _ =>
                    if negb (AstType.eqb (AstNode.type a0) (AstNode.type b0))
                    then false
                    else astEqual (value a0) (value b0)
                | _, _ => true
                end
       | _, _ => false
       end.
Proof.
  unfold astEqual at 1.
  destruct a as [| | |a], b as [| | |b]; try reflexivity.
  cbn [typeof JsType_eqb negb isArray andb].
  destruct (negb (length a =? length b)%nat); [reflexivity|].
  destruct a as [|a0 a], b as [|b0 b]; try reflexivity.
  now rewrite astEqualValues_eq.
Qed.

Lemma number_eqb_eq a b : number_eqb a b = true <-> a = b.
Proof.
  destruct a as [x|], b as [y|]; simpl; try (split; [discriminate | congruence]);
    [|split; reflexivity].
  rewrite Z.eqb_eq. split; congruence.
Qed.

Lemma number_eqb_refl a : number_eqb a a = true.
Proof. now apply number_eqb_eq. Qed.

Lemma strictEq_refl v : isArray v = false -> strictEq v v = true.
Proof.
  destruct v; simpl; try discriminate; intros _; auto.
  - now apply jsstring_eqb_eq.
  - apply number_eqb_refl.
Qed.

Lemma AstType_eqb_refl t : AstType.eqb t t = true.
Proof. unfold AstType.eqb. now destruct (AstType.eq_dec t t). Qed.

Lemma astEqualValues_refl x : astEqualValues x x = true.
Proof.
  induction x as [body IH|x Hx] using AstNode_nested_ind.
  - cbn. rewrite Nat.eqb_refl. cbn.
    destruct body as [|a0 body]; [reflexivity|].
    rewrite AstType_eqb_refl. cbn. now apply Forall_inv in IH.
  - destruct x; try reflexivity; try (now destruct Hx); cbn.
    + now apply jsstring_eqb_eq.
    + now apply jsstring_eqb_eq.
    + apply number_eqb_refl.
Qed.

(** Equal bodies compare equal. *)
Lemma astEqual_refl body : astEqual (VArray body) (VArray body) = true.
Proof.
  rewrite astEqual_eq. cbn. rewrite Nat.eqb_refl. cbn.
  destruct body as [|a0 body]; [reflexivity|].
  rewrite AstType_eqb_refl. cbn. rewrite <- astEqualValues_eq.
  apply astEqualValues_refl.
Qed.

(** Two bodies of the same length with the same first node compare
    equal, whatever their other nodes. *)
Lemma astEqual_same_head x a b :
  length a = length b -> astEqual (VArray (x :: a)) (VArray (x :: b)) = true.
Proof.
  intros L. rewrite astEqual_eq. cbn. rewrite L, Nat.eqb_refl. cbn.
  rewrite AstType_eqb_refl. cbn. rewrite <- astEqualValues_eq.
  apply astEqualValues_refl.
Qed.

(** C1 on the source [[1 2][1 3]]: the two bodies differ in their
    second node, [astEqual] answers [true] on them, and the second
    quotation is lowered to the symbol [@lambda_1] of the first; the
    function [@lambda_1], which pushes 1 and 2, is the only one
    hoisted. *)
Theorem C1_bodies_differing_in_second_child_share_lambda :
  let b1 := [AstNode.Integer 1; AstNode.Integer 2] in
  let b2 := [AstNode.Integer 1; AstNode.Integer 3] in
  parse (lit "[1 2][1 3]") = Ok [AstNode.Quote b1; AstNode.Quote b2]
  /\ b1 <> b2
  /\ astEqual (VArray b2) (VArray b1) = true
  /\ fst (Compiler.compile_ [AstNode.Quote b1; AstNode.Quote b2] Compiler.new)
     = join LF [ lit "call void @stack_push_quote(void()* @lambda_1)";
                 lit "call void @stack_push_quote(void()* @lambda_1)" ]
  /\ map (fun entry : list AstNode * jsstring * jsstring => fst entry)
       (Compiler.functions
          (snd (Compiler.compile_ [AstNode.Quote b1; AstNode.Quote b2] Compiler.new)))
     = [(b1, lit "@lambda_1")].
Proof.
  cbv zeta. split; [vm_compute; reflexivity|]. split; [discriminate|].
  split; [reflexivity|]. split; vm_compute; reflexivity.
Qed.

(** Two quotations with the same body share one hoisted function: the
    source [[1 .] ! [1 .] !] has a single [@lambda_1]. *)
Example shared_lambda_example :
  exists ast,
    parse (lit "[ 1 . ] ! [ 1 . ] !") = Ok ast
    /\ map (fun entry : list AstNode * jsstring * jsstring => snd (fst entry))
         (Compiler.functions (snd (Compiler.compile_ ast Compiler.new)))
       = [lit "@lambda_1"].
Proof. eexists. split; [vm_compute; reflexivity|]. vm_compute. reflexivity. Qed.

(** ** Names *)

Lemma lit_inj s1 s2 : lit s1 = lit s2 -> s1 = s2.
Proof.
  unfold lit. intros H.
  rewrite <- (string_of_list_ascii_of_string s1), <- (string_of_list_ascii_of_string s2).
  f_equal. revert H. generalize (list_ascii_of_string s1) (list_ascii_of_string s2).
  intros l1. induction l1 as [|a l1 IH]; intros [|b l2]; simpl; try discriminate; auto.
  intros [= H1 H2]. f_equal; [|now apply IH].
  rewrite <- (ascii_N_embedding a), <- (ascii_N_embedding b). now f_equal.
Qed.

Lemma toStringN_inj n m : toStringN n = toStringN m -> n = m.
Proof.
  unfold toStringN. intros H%lit_inj.
  apply Unsigned.to_uint_inj.
  assert (E : Some (N.to_uint n) = Some (N.to_uint m))
    by (rewrite <- !NilEmpty.usu; now f_equal).
  now injection E.
Qed.

Lemma jsstring_eqb_refl s : jsstring_eqb s s = true.
Proof. now apply jsstring_eqb_eq. Qed.

Lemma jsstring_eqb_neq a b : a <> b -> jsstring_eqb a b = false.
Proof.
  intros H. destruct (jsstring_eqb a b) eqn:E; [|reflexivity].
  now apply jsstring_eqb_eq in E.
Qed.

Lemma nameAfter_inj g j k : nameAfter g j = nameAfter g k -> j = k.
Proof. unfold nameAfter. intros H%app_inv_head%toStringN_inj. lia. Qed.

Lemma nameAfter_eqb g j k : j <> k -> jsstring_eqb (nameAfter g j) (nameAfter g k) = false.
Proof. intros H. apply jsstring_eqb_neq. intros E. now apply nameAfter_inj in E. Qed.

Lemma nextTemporary_eq sc :
  Compiler.nextTemporary sc
  = (nameAfter (Compiler.temporaryGenerator sc) 0,
      {| Compiler.temporaryGenerator :=
          {| TemporaryGenerator.id :=
              TemporaryGenerator.id (Compiler.temporaryGenerator sc) + 1;
             TemporaryGenerator.template :=
              TemporaryGenerator.template (Compiler.temporaryGenerator sc) |};
         Compiler.labelGenerator := Compiler.labelGenerator sc;
         Compiler.instructions := Compiler.instructions sc |}).
Proof. unfold Compiler.nextTemporary, nameAfter. simpl. now rewrite N.add_0_r. Qed.

(** ** Arithmetic and comparison *)

Section Operators.

Variable sc : Compiler.Scope.

Let g := Compiler.temporaryGenerator sc.

Lemma basicOp_eq op :
  Compiler.instructions (Compiler.basicOp (IR.binopName op) sc)
  = Compiler.instructions sc
      ++ map IR.render
           [ IR.PopInt (nameAfter g 0);
             IR.PopInt (nameAfter g 1);
             IR.Bin (nameAfter g 2) op (nameAfter g 1) (nameAfter g 0);
             IR.PushInt (nameAfter g 2) ].
Proof.
  unfold Compiler.basicOp. rewrite !nextTemporary_eq. cbn.
  unfold nameAfter. cbn. rewrite !N.add_0_r, <- !N.add_assoc. reflexivity.
Qed.

Lemma cmp_eq p :
  Compiler.instructions (Compiler.cmp (IR.predName p) sc)
  = Compiler.instructions sc
      ++ map IR.render
           [ IR.PopInt (nameAfter g 0);
             IR.PopInt (nameAfter g 1);
             IR.Icmp (nameAfter g 2) p (nameAfter g 1) (nameAfter g 0);
             IR.Sext (nameAfter g 3) (nameAfter g 2);
             IR.PushInt (nameAfter g 3) ].
Proof.
  unfold Compiler.cmp. rewrite !nextTemporary_eq. cbn.
  unfold nameAfter. cbn. rewrite !N.add_0_r, <- !N.add_assoc. reflexivity.
Qed.

Lemma run_basicOp op temps a b rest :
  IR.run [ IR.PopInt (nameAfter g 0);
           IR.PopInt (nameAfter g 1);
           IR.Bin (nameAfter g 2) op (nameAfter g 1) (nameAfter g 0);
           IR.PushInt (nameAfter g 2) ]
    {| IR.temps := temps; IR.stack := b :: a :: rest |}
  = match IR.evalBin op a b with
    | Some v =>
        Some {| IR.temps := (nameAfter g 2, IR.I32 v) :: (nameAfter g 1, IR.I32 a)
                              :: (nameAfter g 0, IR.I32 b) :: temps;
                IR.stack := v :: rest |}
    | None => None
    end.
Proof.
  cbn. rewrite !jsstring_eqb_refl, (nameAfter_eqb g 1 0) by lia.
  destruct (IR.evalBin op a b); [|reflexivity].
  cbn. now rewrite jsstring_eqb_refl.
Qed.

Lemma run_cmp p temps a b rest :
  IR.run [ IR.PopInt (nameAfter g 0);
           IR.PopInt (nameAfter g 1);
           IR.Icmp (nameAfter g 2) p (nameAfter g 1) (nameAfter g 0);
           IR.Sext (nameAfter g 3) (nameAfter g 2);
           IR.PushInt (nameAfter g 3) ]
    {| IR.temps := temps; IR.stack := b :: a :: rest |}
  = Some {| IR.temps :=
             (nameAfter g 3, IR.I32 (if IR.evalPred p a b then -1 else 0))
               :: (nameAfter g 2, IR.I1 (IR.evalPred p a b))
               :: (nameAfter g 1, IR.I32 a) :: (nameAfter g 0, IR.I32 b) :: temps;
            IR.stack := (if IR.evalPred p a b then -1 else 0)%Z :: rest |}.
Proof.
  cbn. rewrite !jsstring_eqb_refl, (nameAfter_eqb g 1 0) by lia.
  cbn. rewrite !jsstring_eqb_refl. cbn. now rewrite jsstring_eqb_refl.
Qed.

End Operators.

(** C6: for [Plus], [Minus], [Mul] and [Div] the compiler appends four
    instructions: a pop into a first temporary (b, the top of the
    stack), a pop into a second one (a, pushed before b), [add], [sub],
    [mul] or [sdiv] on [i32] with the second temporary as left operand
    and the first as right operand, and the push of the result.  Run on
    a stack with b above a, they leave the 32-bit result of [a op b] in
    place of the two: [a - b] for [Minus], [a sdiv b] for [Div]. *)
Theorem C6_arithmetic_lowering
  (node : AstNode) (op : IR.binop) (c : Compiler.t) (sc : Compiler.Scope) :
  arithmetic node = Some op ->
  let g := Compiler.temporaryGenerator sc in
  let b_tmp := nameAfter g 0 in
  let a_tmp := nameAfter g 1 in
  let result := nameAfter g 2 in
  let program :=
    [ IR.PopInt b_tmp; IR.PopInt a_tmp; IR.Bin result op a_tmp b_tmp;
      IR.PushInt result ] in
  fst (Compiler.compileNode node c sc) = c
  /\ Compiler.instructions (snd (Compiler.compileNode node c sc))
     = Compiler.instructions sc ++ map IR.render program
  /\ (forall temps a b rest,
         option_map IR.stack
           (IR.run program {| IR.temps := temps; IR.stack := b :: a :: rest |})
         = option_map (fun v => v :: rest) (IR.evalBin op a b))
  /\ (forall a b, IR.evalBin IR.Sub a b = Some (IR.wrap32 (a - b)))
  /\ (forall a b, b <> 0%Z -> (a <> - 2 ^ 31 \/ b <> -1)%Z ->
                  IR.evalBin IR.SDiv a b = Some (Z.quot a b)).
Proof.
  intros Hop. cbv zeta.
  split; [destruct node; try discriminate Hop; reflexivity|].
  split.
  { destruct node; try discriminate Hop; injection Hop as <-;
      [ exact (basicOp_eq sc IR.Add) | exact (basicOp_eq sc IR.Sub)
      | exact (basicOp_eq sc IR.Mul) | exact (basicOp_eq sc IR.SDiv) ]. }
  split.
  { intros temps a b rest. rewrite run_basicOp.
    now destruct (IR.evalBin op a b). }
  split; [reflexivity|].
  intros a b Hb Hab. unfold IR.evalBin.
  destruct (b =? 0)%Z eqn:E0; [apply Z.eqb_eq in E0; contradiction|].
  destruct (a =? - 2 ^ 31)%Z eqn:E1; [|reflexivity].
  destruct (b =? -1)%Z eqn:E2; [|reflexivity].
  apply Z.eqb_eq in E1, E2. lia.
Qed.

(** [10 3 -] leaves 7: the stack has 3 above 10 when [Minus] runs. *)
Lemma C6_arithmetic_lowering_witness :
  option_map IR.stack
    (IR.run [ IR.PopInt (lit "%t1"); IR.PopInt (lit "%t2");
              IR.Bin (lit "%t3") IR.Sub (lit "%t2") (lit "%t1");
              IR.PushInt (lit "%t3") ]
       {| IR.temps := []; IR.stack := [3; 10]%Z |})
  = Some [7%Z].
Proof.
  exact (proj1 (proj2 (proj2
           (C6_arithmetic_lowering AstNode.Minus IR.Sub Compiler.new Compiler.newScope
              eq_refl))) [] 10%Z 3%Z []).
Defined.

(** C7: for [Equal] and [GreaterThan] the compiler appends five
    instructions: a pop into a first temporary (b, the top of the
    stack), a pop into a second one (a), [icmp eq] or [icmp sgt] on
    [i32] with a on the left and b on the right, the sign extension of
    the [i1] result to [i32], and the push of the extended value.  Run
    on a stack with b above a, they leave -1 in place of the two when
    the comparison of a with b holds, and 0 when it does not. *)
Theorem C7_comparison_lowering
  (node : AstNode) (p : IR.pred) (c : Compiler.t) (sc : Compiler.Scope) :
  comparison node = Some p ->
  let g := Compiler.temporaryGenerator sc in
  let b_tmp := nameAfter g 0 in
  let a_tmp := nameAfter g 1 in
  let result := nameAfter g 2 in
  let cast := nameAfter g 3 in
  let program :=
    [ IR.PopInt b_tmp; IR.PopInt a_tmp; IR.Icmp result p a_tmp b_tmp;
      IR.Sext cast result; IR.PushInt cast ] in
  fst (Compiler.compileNode node c sc) = c
  /\ Compiler.instructions (snd (Compiler.compileNode node c sc))
     = Compiler.instructions sc ++ map IR.render program
  /\ (forall temps a b rest,
         option_map IR.stack
           (IR.run program {| IR.temps := temps; IR.stack := b :: a :: rest |})
         = Some ((if IR.evalPred p a b then -1 else 0)%Z :: rest))
  /\ (forall a b, IR.evalPred IR.Eq a b = true <-> a = b)
  /\ (forall a b, IR.evalPred IR.Sgt a b = true <-> (a > b)%Z).
Proof.
  intros Hp. cbv zeta.
  split; [destruct node; try discriminate Hp; reflexivity|].
  split.
  { destruct node; try discriminate Hp; injection Hp as <-;
      [ exact (cmp_eq sc IR.Eq) | exact (cmp_eq sc IR.Sgt) ]. }
  split.
  { intros temps a b rest. now rewrite run_cmp. }
  split; intros a b; simpl.
  - apply Z.eqb_eq.
  - rewrite Z.gtb_ltb. rewrite Z.ltb_lt. lia.
Qed.

(** [5 3 >] leaves -1: the stack has 3 above 5 when [GreaterThan]
    runs. *)
Lemma C7_comparison_lowering_witness :
  option_map IR.stack
    (IR.run [ IR.PopInt (lit "%t1"); IR.PopInt (lit "%t2");
              IR.Icmp (lit "%t3") IR.Sgt (lit "%t2") (lit "%t1");
              IR.Sext (lit "%t4") (lit "%t3"); IR.PushInt (lit "%t4") ]
       {| IR.temps := []; IR.stack := [3; 5]%Z |})
  = Some [(-1)%Z].
Proof.
  exact (proj1 (proj2 (proj2
           (C7_comparison_lowering AstNode.GreaterThan IR.Sgt Compiler.new
              Compiler.newScope eq_refl))) [] 5%Z 3%Z []).
Defined.

(** The text emitted for [-] and for [>] at the start of a function. *)
Example operators_text :
  fst (Compiler.compile_ [AstNode.Minus; AstNode.GreaterThan] Compiler.new)
  = join LF [ lit "%t1 = call i32 @stack_pop_int()";
              lit "%t2 = call i32 @stack_pop_int()";
              lit "%t3 = sub i32 %t2, %t1";
              lit "call void @stack_push_int(i32 %t3)";
              lit "%t4 = call i32 @stack_pop_int()";
              lit "%t5 = call i32 @stack_pop_int()";
              lit "%t6 = icmp sgt i32 %t5, %t4";
              lit "%t7 = sext i1 %t6 to i32";
              lit "call void @stack_push_int(i32 %t7)" ].
Proof. vm_compute. reflexivity. Qed.

(** ** Interned strings *)









(** *** The table changes by calls of [#getConstString] only *)

Lemma compileNode_Quote body c sc :
  Compiler.compileNode (AstNode.Quote body) c sc
  = let '(name, c) := Compiler.getFunction Compiler.compile_ body c in
    (c, Compiler.push sc
          [ lit "call void @stack_push_quote(void()* " ++ name ++ lit ")" ]).
Proof. reflexivity. Qed.





(** *** The constants emitted *)



Lemma encode_string_eq str :
  encode_string str
  = ((N.of_nat (length (encode str)) + 1)%N,
      flat_map escape (encode str) ++ lit "\00").
Proof. unfold encode_string. now rewrite flat_map_concat_map. Qed.

(** A string of ASCII characters is its own UTF-8 encoding. *)
Lemma encode_ascii str :
  Forall (fun c => (c < 128)%N) str -> encode str = str.
Proof.
  unfold encode. induction 1 as [|c str Hc _ IH]; [reflexivity|].
  assert (Hh : isHighSurrogate c = false).
  { unfold isHighSurrogate. apply andb_false_iff. left. apply N.leb_gt. lia. }
  assert (Hl : isLowSurrogate c = false).
  { unfold isLowSurrogate. apply andb_false_iff. left. apply N.leb_gt. lia. }
  cbn [codePoints]. rewrite Hh, Hl. cbn [flat_map]. rewrite IH.
  unfold utf8. apply N.ltb_lt in Hc. now rewrite Hc.
Qed.


(** The program that prints the literals [ab], [cd] and [ab] again:
    its code and its two constants. *)
Example interning_example :
  let ast := [AstNode.String (lit "ab"); AstNode.String (lit "cd");
              AstNode.String (lit "ab")] in
  fst (Compiler.compile_ ast Compiler.new)
  = join LF [ lit "call i32 @printf(i8* @.fmt, i8* @str_1)";
              lit "call i32 @printf(i8* @.fmt, i8* @str_2)";
              lit "call i32 @printf(i8* @.fmt, i8* @str_1)" ]
  /\ map Compiler.stringConstant
       (Compiler.strings (snd (Compiler.compile_ ast Compiler.new)))
     = [ lit "@str_1 = private unnamed_addr constant [3 x i8] c" ++ [DQUOTE]
           ++ lit "\61\62\00" ++ [DQUOTE];
         lit "@str_2 = private unnamed_addr constant [3 x i8] c" ++ [DQUOTE]
           ++ lit "\63\64\00" ++ [DQUOTE] ].
Proof. split; vm_compute; reflexivity. Qed.

(** * Further properties of the tokenizer *)

Lemma isSpace_range c :
  Tokenizer.isSpace c = true -> (9 <= c <= 13 \/ c = 32 \/ 160 <= c)%N.
Proof.
  unfold Tokenizer.isSpace. intros H.
  repeat (apply orb_true_iff in H; destruct H as [H|H]);
    repeat (apply andb_true_iff in H; destruct H as [H ?]);
    repeat match goal with
           | H : (_ <=? _)%N = true |- _ => apply N.leb_le in H
           | H : (_ =? _)%N = true |- _ => apply N.eqb_eq in H
           end; lia.
Qed.

Lemma isDigit_range c : Tokenizer.isDigit c = true <-> (48 <= c <= 57)%N.
Proof.
  unfold Tokenizer.isDigit. rewrite andb_true_iff, !N.leb_le.
  change (ch "0") with 48%N. change (ch "9") with 57%N. lia.
Qed.

Lemma isLower_range c : Tokenizer.isLower c = true <-> (97 <= c <= 122)%N.
Proof.
  unfold Tokenizer.isLower. rewrite andb_true_iff, !N.leb_le.
  change (ch "a") with 97%N. change (ch "z") with 122%N. lia.
Qed.

Lemma not_isSpace c : (33 <= c <= 159)%N -> Tokenizer.isSpace c = false.
Proof.
  intros H. destruct (Tokenizer.isSpace c) eqn:E; [|reflexivity].
  apply isSpace_range in E. lia.
Qed.

Lemma eqb_false_of_neq (c d : N) : c <> d -> (c =? d)%N = false.
Proof. apply N.eqb_neq. Qed.

(** The first character of a digit run, and a lowercase letter, reach
    their branch of [next]. *)
Lemma next_digit c s :
  Tokenizer.isDigit c = true ->
  Tokenizer.next (c :: s)
  = '(tok, s) <- Tokenizer.nextNumber (c :: s) ;; Ok (Some tok, s).
Proof.
  intros D. pose proof (proj1 (isDigit_range c) D) as R.
  rewrite next_unfold, not_isSpace by lia. unfold nextToken.
  rewrite !eqb_false_of_neq, D; [reflexivity| | |];
    unfold DQUOTE; change (ch "'") with 39%N; change (ch "{") with 123%N; lia.
Qed.

Lemma next_lower c s :
  Tokenizer.isLower c = true ->
  Tokenizer.next (c :: s) = Ok (Some (Token.Variable_ [c]), s).
Proof.
  intros L. pose proof (proj1 (isLower_range c) L) as R.
  assert (D : Tokenizer.isDigit c = false).
  { destruct (Tokenizer.isDigit c) eqn:E; [|reflexivity].
    apply isDigit_range in E. lia. }
  rewrite next_unfold, not_isSpace by lia. unfold nextToken.
  rewrite !eqb_false_of_neq, D, L; [reflexivity| | |];
    unfold DQUOTE; change (ch "'") with 39%N; change (ch "{") with 123%N; lia.
Qed.

Lemma skipComment_loop_found body rest :
  ~ In (ch "}") body ->
  Tokenizer.skipComment_loop (body ++ ch "}" :: rest) = ch "}" :: rest.
Proof.
  induction body as [|c body IH]; intros H; [reflexivity|].
  cbn [app Tokenizer.skipComment_loop].
  rewrite eqb_false_of_neq by (intros ->; apply H; now left).
  cbn [negb]. apply IH. intros H'. apply H. now right.
Qed.

Lemma skipComment_loop_missing s :
  ~ In (ch "}") s -> Tokenizer.skipComment_loop s = [].
Proof.
  induction s as [|c s IH]; intros H; [reflexivity|].
  cbn [Tokenizer.skipComment_loop].
  rewrite eqb_false_of_neq by (intros ->; apply H; now left).
  cbn [negb]. apply IH. intros H'. apply H. now right.
Qed.

(** X1: a comment is passed over up to its first closing brace,
    whatever it holds: an opening brace inside it opens nothing, so
    comments do not nest, and quotes or invalid characters inside it
    are not looked at.  The token returned is the one after the
    comment. *)
Theorem comment_is_skipped (body rest : jsstring) :
  ~ In (ch "}") body ->
  Tokenizer.next (ch "{" :: body ++ ch "}" :: rest) = Tokenizer.next rest.
Proof.
  intros H. rewrite next_unfold.
  change (Tokenizer.isSpace (ch "{")) with false. rewrite N.eqb_refl.
  unfold Tokenizer.skipComment.
  change (ch "{" :: body ++ ch "}" :: rest) with ((ch "{" :: body) ++ ch "}" :: rest).
  rewrite skipComment_loop_found; [reflexivity|].
  intros [E|E]; [discriminate E|contradiction].
Qed.

(** A comment that holds an opening brace and an apostrophe, before
    the literal 7. *)
Lemma comment_is_skipped_witness :
  Tokenizer.next (ch "{" :: lit " { ' " ++ ch "}" :: lit "7")
  = Tokenizer.next (lit "7").
Proof.
  apply (comment_is_skipped (lit " { ' ") (lit "7")).
  simpl. intros H. repeat (destruct H as [H|H]; [discriminate H|]). exact H.
Defined.

(** X2: a comment with no closing brace before the end of the input
    raises [Unclosed comment], whatever it holds. *)
Theorem unclosed_comment_raises (s : jsstring) :
  ~ In (ch "}") s ->
  Tokenizer.next (ch "{" :: s) = Throw (Error (lit "Unclosed comment")).
Proof.
  intros H. rewrite next_unfold.
  change (Tokenizer.isSpace (ch "{")) with false. rewrite N.eqb_refl.
  unfold Tokenizer.skipComment. rewrite skipComment_loop_missing; [reflexivity|].
  intros [E|E]; [discriminate E|contradiction].
Qed.

Lemma unclosed_comment_raises_witness :
  Tokenizer.next (lit "{unterminated") = Throw (Error (lit "Unclosed comment")).
Proof.
  apply (unclosed_comment_raises (lit "unterminated")).
  simpl. intros H. repeat (destruct H as [H|H]; [discriminate H|]). exact H.
Defined.

Lemma nextString_loop_found text rest :
  ~ In DQUOTE text ->
  Tokenizer.nextString_loop (text ++ DQUOTE :: rest) = DQUOTE :: rest.
Proof.
  induction text as [|c text IH]; intros H; [reflexivity|].
  cbn [app Tokenizer.nextString_loop].
  rewrite eqb_false_of_neq by (intros ->; apply H; now left).
  cbn [negb]. apply IH. intros H'. apply H. now right.
Qed.

Lemma nextString_loop_missing text :
  ~ In DQUOTE text -> Tokenizer.nextString_loop text = [].
Proof.
  induction text as [|c text IH]; intros H; [reflexivity|].
  cbn [Tokenizer.nextString_loop].
  rewrite eqb_false_of_neq by (intros ->; apply H; now left).
  cbn [negb]. apply IH. intros H'. apply H. now right.
Qed.

Lemma substring_prefix text rest : Tokenizer.substring (text ++ rest) rest = text.
Proof.
  unfold Tokenizer.substring. rewrite length_app.
  replace (length text + length rest - length rest) with (length text) by lia.
  rewrite firstn_app, Nat.sub_diag, firstn_all. simpl. apply app_nil_r.
Qed.

Lemma next_DQUOTE s :
  Tokenizer.next (DQUOTE :: s)
  = '(tok, s) <- Tokenizer.nextString (DQUOTE :: s) ;; Ok (Some tok, s).
Proof. rewrite next_unfold. reflexivity. Qed.

(** X3: a string literal is the raw text between a double quote and
    the next one: backslashes, line feeds, braces and apostrophes are
    kept as they are, there is no escape, and the tokenizer goes on
    after the closing quote. *)
Theorem string_literal_is_raw_text (text rest : jsstring) :
  ~ In DQUOTE text ->
  Tokenizer.next (DQUOTE :: text ++ DQUOTE :: rest)
  = Ok (Some (Token.String text), rest).
Proof.
  intros H. rewrite next_DQUOTE. unfold Tokenizer.nextString.
  change (Tokenizer.eat DQUOTE None (DQUOTE :: text ++ DQUOTE :: rest))
    with (Ok (text ++ DQUOTE :: rest)).
  cbn [bind]. rewrite (nextString_loop_found text rest H).
  change (Tokenizer.eat DQUOTE None (DQUOTE :: rest)) with (Ok rest).
  cbn [bind]. now rewrite substring_prefix.
Qed.

(** A text with a backslash, a brace and a line feed. *)
Lemma string_literal_is_raw_text_witness :
  Tokenizer.next (DQUOTE :: (lit "a\n{" ++ [10%N]) ++ DQUOTE :: lit "7")
  = Ok (Some (Token.String (lit "a\n{" ++ [10%N])), lit "7").
Proof.
  apply (string_literal_is_raw_text (lit "a\n{" ++ [10%N]) (lit "7")).
  simpl. intros H. repeat (destruct H as [H|H]; [discriminate H|]). exact H.
Defined.

(** X4: a string literal with no closing quote before the end of the
    input raises the message of [#eat] with [undefined] as the
    character found. *)
Theorem unterminated_string_raises (text : jsstring) :
  ~ In DQUOTE text ->
  Tokenizer.next (DQUOTE :: text)
  = Throw (Error (lit "Expected " ++ [DQUOTE] ++ lit ", got undefined instead")).
Proof.
  intros H. rewrite next_DQUOTE. unfold Tokenizer.nextString.
  change (Tokenizer.eat DQUOTE None (DQUOTE :: text)) with (Ok text).
  cbn [bind]. rewrite (nextString_loop_missing text H). reflexivity.
Qed.

Lemma unterminated_string_raises_witness :
  Tokenizer.next (DQUOTE :: lit "abc")
  = Throw (Error (lit "Expected " ++ [DQUOTE] ++ lit ", got undefined instead")).
Proof.
  apply (unterminated_string_raises (lit "abc")).
  simpl. intros H. repeat (destruct H as [H|H]; [discriminate H|]). exact H.
Defined.

(** X5: a character literal takes the character after the apostrophe
    whatever it is: white space, a brace, a quote or another
    apostrophe is not skipped and starts nothing, its code unit is the
    value.  An apostrophe at the end of the input raises
    [Expected a character]. *)
Theorem character_literal_takes_any_character :
  (forall c rest,
      Tokenizer.next (ch "'" :: c :: rest)
      = Ok (Some (Token.Integer (Z.of_N c)), rest))
  /\ (forall spaces,
        forallb Tokenizer.isSpace spaces = true ->
        Tokenizer.next (spaces ++ [ch "'"])
        = Throw (Error (lit "Expected a character"))).
Proof.
  split.
  - intros c rest. rewrite next_unfold. reflexivity.
  - induction spaces as [|c spaces IH]; intros H.
    + reflexivity.
    + simpl in H. apply andb_true_iff in H as [Hc Hs].
      cbn [app]. rewrite next_unfold, Hc. now apply IH.
Qed.

Lemma nextNumber_loop_run digits rest :
  forallb Tokenizer.isDigit digits = true ->
  match rest with c :: _ => Tokenizer.isDigit c = false | [] => True end ->
  Tokenizer.nextNumber_loop (digits ++ rest) = rest.
Proof.
  intros Hd Hr. induction digits as [|d digits IH].
  - destruct rest as [|c rest]; [reflexivity|]. simpl. now rewrite Hr.
  - simpl in Hd. apply andb_true_iff in Hd as [H1 H2].
    cbn [app Tokenizer.nextNumber_loop]. rewrite H1. now apply IH.
Qed.

Lemma next_digits digits rest :
  digits <> [] -> forallb Tokenizer.isDigit digits = true ->
  match rest with c :: _ => Tokenizer.isDigit c = false | [] => True end ->
  Tokenizer.next (digits ++ rest)
  = Ok (Some (Token.Integer (Tokenizer.parseInt digits)), rest).
Proof.
  intros Hne Hd Hr. destruct digits as [|d digits]; [contradiction|].
  pose proof Hd as Hd'. simpl in Hd'. apply andb_true_iff in Hd' as [H1 _].
  cbn [app]. rewrite next_digit by assumption.
  unfold Tokenizer.nextNumber.
  change (d :: digits ++ rest) with ((d :: digits) ++ rest).
  rewrite (nextNumber_loop_run (d :: digits) rest Hd Hr). cbn [bind].
  now rewrite substring_prefix.
Qed.

(** X6: a number is the longest run of digits: the run up to the first
    character that is not a digit is one [Integer] token, whose value
    is [parseInt] of the whole run, and the tokenizer goes on at that
    character. *)
Theorem number_is_longest_digit_run (digits rest : jsstring) :
  digits <> [] -> forallb Tokenizer.isDigit digits = true ->
  match rest with c :: _ => Tokenizer.isDigit c = false | [] => True end ->
  Tokenizer.next (digits ++ rest)
  = Ok (Some (Token.Integer (Tokenizer.parseInt digits)), rest).
Proof. exact (next_digits digits rest). Qed.

(** The run 0012 before a letter: the value is twelve. *)
Lemma number_is_longest_digit_run_witness :
  Tokenizer.next (lit "0012" ++ lit "a") = Ok (Some (Token.Integer 12), lit "a").
Proof.
  apply (number_is_longest_digit_run (lit "0012") (lit "a")).
  - discriminate.
  - reflexivity.
  - reflexivity.
Defined.

Lemma character_literal_takes_any_character_witness :
  Tokenizer.next (lit "  '") = Throw (Error (lit "Expected a character")).
Proof.
  apply (proj2 character_literal_takes_any_character (lit "  ")). reflexivity.
Defined.

(** *** Decimal text *)

Lemma lit_String a s : lit (String a s) = N_of_ascii a :: lit s.
Proof. reflexivity. Qed.

Lemma fold_decimal_of_uint_acc d : forall acc,
  fold_left (fun acc c => (10 * acc + (Z.of_N c - 48))%Z)
    (lit (NilEmpty.string_of_uint d)) (Z.pos acc)
  = Z.pos (Pos.of_uint_acc d acc).
Proof.
  induction d; intros acc; cbn [NilEmpty.string_of_uint Pos.of_uint_acc];
    [reflexivity|rewrite lit_String; cbn [fold_left]; rewrite <- IHd; f_equal;
                 match goal with
                 | |- context [Z.of_N ?x] =>
                     let v := eval vm_compute in (Z.of_N x) in
                     change (Z.of_N x) with v
                 end; lia..].
Qed.

Lemma decimal_of_uint d :
  Tokenizer.decimal (lit (NilEmpty.string_of_uint d)) = Z.of_N (N.of_uint d).
Proof.
  unfold Tokenizer.decimal, N.of_uint.
  induction d; cbn [NilEmpty.string_of_uint Pos.of_uint];
    [reflexivity|rewrite lit_String; cbn [fold_left]..].
  - exact IHd.
  - apply (fold_decimal_of_uint_acc d 1).
  - apply (fold_decimal_of_uint_acc d 2).
  - apply (fold_decimal_of_uint_acc d 3).
  - apply (fold_decimal_of_uint_acc d 4).
  - apply (fold_decimal_of_uint_acc d 5).
  - apply (fold_decimal_of_uint_acc d 6).
  - apply (fold_decimal_of_uint_acc d 7).
  - apply (fold_decimal_of_uint_acc d 8).
  - apply (fold_decimal_of_uint_acc d 9).
Qed.

Lemma decimal_toStringN n : Tokenizer.decimal (toStringN n) = Z.of_N n.
Proof. unfold toStringN. now rewrite decimal_of_uint, Unsigned.of_to. Qed.

Lemma string_of_uint_digits d :
  forallb Tokenizer.isDigit (lit (NilEmpty.string_of_uint d)) = true.
Proof.
  induction d; cbn [NilEmpty.string_of_uint]; [reflexivity|rewrite lit_String..];
    cbn [forallb]; rewrite IHd; reflexivity.
Qed.

Lemma toStringN_nonempty n : toStringN n <> [].
Proof.
  unfold toStringN. destruct n as [|p]; [discriminate|].
  intros E. pose proof (Unsigned.of_to (N.pos p)) as R.
  destruct (N.to_uint (N.pos p)) eqn:U; try discriminate E.
  discriminate R.
Qed.

Lemma toStringZ_of_N n : toStringZ (Z.of_N n) = toStringN n.
Proof. now destruct n. Qed.

(** Below 2^53 a number is printed with all its digits. *)
Lemma numberToString_exact n :
  (0 <= n < 2 ^ 53)%Z -> numberToString (Finite n) = toStringZ n.
Proof.
  intros H. unfold numberToString.
  assert (E : (Z.abs n <? 2 ^ 53)%Z = true) by (apply Z.ltb_lt; lia).
  now rewrite E.
Qed.

(** X7: the decimal text that the compiler writes after [i32] for a
    number below 2^53 is a run of digits that the tokenizer reads back
    as the same number. *)
Theorem emitted_integer_reads_back (n : N) (rest : jsstring) :
  (Z.of_N n < 2 ^ 53)%Z ->
  match rest with c :: _ => Tokenizer.isDigit c = false | [] => True end ->
  toStringZ (Z.of_N n) = toStringN n
  /\ (forall c sc,
         Compiler.instructions (snd (Compiler.compileNode
                                       (AstNode.Integer (Z.of_N n)) c sc))
         = Compiler.instructions sc
             ++ [lit "call void @stack_push_int(i32 " ++ toStringN n ++ lit ")"])
  /\ Tokenizer.next (toStringN n ++ rest) = Ok (Some (Token.Integer (Z.of_N n)), rest).
Proof.
  intros Hn Hr. split; [apply toStringZ_of_N|]. split.
  - intros c sc. cbn [Compiler.compileNode snd Compiler.push Compiler.instructions].
    now rewrite numberToString_exact, toStringZ_of_N by lia.
  - rewrite (next_digits (toStringN n) rest
               (toStringN_nonempty n) (string_of_uint_digits _) Hr).
    unfold Tokenizer.parseInt. rewrite decimal_toStringN.
    now rewrite toDouble_exact.
Qed.

Lemma emitted_integer_reads_back_witness :
  Tokenizer.next (toStringN 2147483647 ++ lit ")")
  = Ok (Some (Token.Integer 2147483647), lit ")").
Proof.
  apply (emitted_integer_reads_back 2147483647 (lit ")")).
  - reflexivity.
  - reflexivity.
Defined.

(** *** Symbols and variables *)

(** X8: every entry of the symbol table is reached: its character is
    neither white space nor the start of a comment, a literal, a number
    or a variable, so it gives its token and consumes that character
    only. *)
Theorem symbol_gives_its_token (c : N) (tok : Token) (rest : jsstring) :
  In (c, tok) Tokenizer.symbols ->
  Tokenizer.next (c :: rest) = Ok (Some tok, rest).
Proof.
  unfold Tokenizer.symbols. intros H.
  repeat (destruct H as [H|H];
          [injection H as <- <-; rewrite next_unfold; reflexivity|]).
  destruct H.
Qed.

(** The capital letters O and B of the table. *)
Lemma symbol_gives_its_token_witness :
  Tokenizer.next (lit "OB") = Ok (Some Token.Take, lit "B").
Proof.
  apply (symbol_gives_its_token (ch "O") Token.Take (lit "B")).
  unfold Tokenizer.symbols. do 8 right. now left.
Defined.

(** X9: a variable is one lowercase letter: letters are not gathered
    into names, the token holds that letter alone and the tokenizer
    goes on at the next character. *)
Theorem variable_is_one_letter (c : N) (rest : jsstring) :
  Tokenizer.isLower c = true ->
  Tokenizer.next (c :: rest) = Ok (Some (Token.Variable_ [c]), rest).
Proof. apply next_lower. Qed.

Lemma variable_is_one_letter_witness :
  Tokenizer.next (lit "ab") = Ok (Some (Token.Variable_ (lit "a")), lit "b").
Proof. apply (variable_is_one_letter (ch "a") (lit "b")). reflexivity. Defined.

(** ** Progress, exceptions and termination *)

(** X10: the tokenizer only moves forward: after a token, what is left
    to read is a strictly shorter end of what there was; the end of the
    input is reported only when nothing is left. *)
Theorem tokenizer_only_moves_forward
  (s : jsstring) (r : option Token) (s' : jsstring) :
  Tokenizer.next s = Ok (r, s') ->
  Suffix s' s
  /\ match r with
     | Some _ => length s' < length s
     | None => s' = []
     end.
Proof.
  intros E. split; [eapply next_Suffix; eauto|].
  pose proof (next_result s) as R. rewrite E in R. exact R.
Qed.

Lemma tokenizer_only_moves_forward_witness :
  Suffix (lit " b") (lit "{c} 12 b")
  /\ length (lit " b") < length (lit "{c} 12 b").
Proof.
  apply (tokenizer_only_moves_forward (lit "{c} 12 b") (Some (Token.Integer 12))).
  reflexivity.
Defined.

Lemma nextString_loop_stop s :
  Tokenizer.nextString_loop s = []
  \/ exists rest, Tokenizer.nextString_loop s = DQUOTE :: rest.
Proof.
  induction s as [|c s IH]; [now left|].
  cbn [Tokenizer.nextString_loop]. destruct (c =? DQUOTE)%N eqn:E; cbn [negb].
  - apply N.eqb_eq in E. subst c. right. now exists s.
  - exact IH.
Qed.

Lemma nextToken_Throw c s e :
  Tokenizer.isSpace c = false -> c <> ch "{" ->
  nextToken c s = Throw e -> lexError e.
Proof.
  intros Hs Hc. unfold nextToken.
  destruct (c =? ch "'")%N eqn:E1.
  { apply N.eqb_eq in E1. subst c. unfold Tokenizer.nextChar.
    change (Tokenizer.eat (ch "'") None (ch "'" :: s)) with (Ok s). cbn [bind].
    destruct s; [|discriminate]. intros [= <-]. right. now left. }
  destruct (c =? DQUOTE)%N eqn:E2.
  { apply N.eqb_eq in E2. subst c. unfold Tokenizer.nextString.
    change (Tokenizer.eat DQUOTE None (DQUOTE :: s)) with (Ok s). cbn [bind].
    destruct (nextString_loop_stop s) as [->|[rest ->]].
    - intros [= <-]. right. right. now left.
    - discriminate. }
  destruct (Tokenizer.isDigit c) eqn:E3; [discriminate|].
  destruct (Tokenizer.isLower c) eqn:E4; [discriminate|].
  destruct (Tokenizer.get Tokenizer.symbols c) eqn:E5; [discriminate|].
  intros [= <-]. right. right. right. exists c. repeat split; auto.
  unfold startsToken. rewrite E1, E2, E3, E4, E5.
  apply N.eqb_neq in Hc. now rewrite Hc.
Qed.

Lemma next_Throw s : forall e, Tokenizer.next s = Throw e -> lexError e.
Proof.
  pattern s, (Tokenizer.next s). apply next_ind; clear s.
  - discriminate.
  - auto.
  - auto.
  - intros c s e _ _ E e' [= <-]. unfold Tokenizer.skipComment, Tokenizer.eat in E.
    destruct (match _ with Some _ => _ | None => _ end); [discriminate|].
    injection E as <-. now left.
  - intros c s Hs Hc e E. eapply nextToken_Throw; eauto.
Qed.

Lemma Parser_next_Throw p e : Parser.next p = Throw e -> lexError e.
Proof.
  unfold Parser.next.
  destruct (Tokenizer.next (Parser.tokenizer p)) as [[v t]| |] eqn:E; simpl;
    try discriminate.
  intros [= <-]. eapply next_Throw; eauto.
Qed.

Lemma parseStatements_loop_Throw fuel : forall statements p e,
  Parser.parseStatements_loop fuel statements p = Throw e ->
  lexError e \/ parseError e.
Proof.
  induction fuel as [|fuel IH]; intros statements p e E.
  { rewrite parseStatements_loop_O in E. discriminate. }
  rewrite parseStatements_loop_step in E.
  destruct (Parser.currentToken p) as [tok|]; [|discriminate].
  assert (Hinstr : forall node st p0,
             ('(st, p2) <- Parser.instr node st p0 ;;
              Parser.parseStatements_loop fuel st p2) = Throw e ->
             lexError e \/ parseError e).
  { intros node st p0. unfold Parser.instr.
    destruct (Parser.next p0) as [p2| |] eqn:E2; simpl; try discriminate.
    - apply IH.
    - intros [= <-]. left. eapply Parser_next_Throw; eauto. }
  destruct (atom tok) as [node|]; [eauto|].
  destruct tok; try discriminate E.
  - destruct (Parser.next p) as [p1| |] eqn:E1; simpl in E; try discriminate.
    + destruct (Parser.parseStatements_loop fuel [] p1) as [[body p2]| |] eqn:E2;
        simpl in E; try discriminate; eauto.
      injection E as <-. eauto.
    + injection E as <-. left. eapply Parser_next_Throw; eauto.
  - destruct (Parser.next p) as [p1| |] eqn:E1; simpl in E; try discriminate; eauto.
    injection E as <-. left. eapply Parser_next_Throw; eauto.
  - destruct (Parser.next p) as [p1| |] eqn:E1; simpl in E; try discriminate.
    + destruct (Parser.currentToken p1) as [tok1|].
      * destruct tok1; try (injection E as <-; right; right; now right).
        destruct (Parser.next p1) as [p2| |] eqn:E2; simpl in E; try discriminate.
        -- injection E as <-. right. right. now left.
        -- injection E as <-. left. eapply Parser_next_Throw; eauto.
      * injection E as <-. right. now left.
    + injection E as <-. left. eapply Parser_next_Throw; eauto.
Qed.

(** X11: the exceptions of [parse] are seven in all.  Four come from
    the tokenizer: [Unclosed comment], [Expected a character], the
    message of an unterminated string, which names [undefined] as the
    character found, and [Invalid character: X] where X is no white
    space and starts no token.  Three come from the parser, at an [Asm]
    token: the two messages and the [TypeError].  No other path
    raises: the other messages that [#eat] can build are not
    produced. *)
Theorem parse_exceptions (source : jsstring) (e : exn) :
  parse source = Throw e -> lexError e \/ parseError e.
Proof.
  unfold parse, parse_run, Parser.new, Parser.parseStatements.
  destruct (Parser.next {| Parser.tokenizer := source; Parser.currentToken := None |})
    as [p| |] eqn:E0; simpl.
  - destruct (Parser.parseStatements_loop (S (length source)) [] p)
      as [[st p']| |] eqn:E; simpl; try discriminate.
    intros [= <-]. eapply parseStatements_loop_Throw; eauto.
  - intros [= <-]. left. eapply Parser_next_Throw; eauto.
  - discriminate.
Qed.

(** A character literal cut by the end of the input, inside a
    quotation. *)
Lemma parse_exceptions_witness :
  lexError (Error (lit "Expected a character"))
  \/ parseError (Error (lit "Expected a character")).
Proof. apply (parse_exceptions (lit "[1 '")). reflexivity. Defined.

(** X12: [parse] terminates on every source: the loops of the
    tokenizer and of the parser and the recursion on quotations end,
    with a tree or with an exception. *)
Theorem parse_terminates (source : jsstring) :
  (exists ast, parse source = Ok ast) \/ (exists e, parse source = Throw e).
Proof.
  pose proof (parse_total source) as H.
  destruct (parse source) as [ast|e|]; [left|right|contradiction]; eauto.
Qed.

(** * Further properties of the parser *)

(** ** The tree depends on the tokens only *)

Lemma astFrom_atom tok node toks stack statements :
  atom tok = Some node ->
  astFrom (tok :: toks) stack statements = astFrom toks stack (statements ++ [node]).
Proof. destruct tok; simpl; intros [= <-]; reflexivity. Qed.

(** The loop of [parseStatements] and the reading with a stack agree:
    what the loop has read and pushed, the reading with a stack does
    too. *)
Lemma parseStatements_loop_astFrom fuel : forall statements p statements' p' toks,
  Parser.parseStatements_loop fuel statements p = Ok (statements', p') ->
  ParserTokens p toks ->
  exists toks',
    ParserTokens p' toks'
    /\ (forall tok, Parser.currentToken p' = Some tok -> tok = Token.CloseBracket)
    /\ forall stack, astFrom toks stack statements = astFrom toks' stack statements'.
Proof.
  induction fuel as [|fuel IH]; intros statements p statements' p' toks E HT.
  { rewrite parseStatements_loop_O in E. discriminate. }
  rewrite parseStatements_loop_step in E.
  destruct (Parser.currentToken p) as [tok|] eqn:Ec.
  2:{ injection E as <- <-. exists toks. split; [exact HT|].
      split; [intros tok E; congruence|reflexivity]. }
  destruct (ParserTokens_current _ _ _ Ec HT) as (rest & -> & p1 & E1 & HT1).
  destruct (atom tok) as [node|] eqn:Ea.
  { unfold Parser.instr in E. rewrite E1 in E. cbn [bind] in E.
    destruct (IH _ _ _ _ _ E HT1) as (toks' & HT' & Hc & Hb).
    exists toks'. split; [exact HT'|]. split; [exact Hc|].
    intros stack. rewrite (astFrom_atom tok node rest stack statements Ea). apply Hb. }
  destruct tok; try discriminate Ea.
  - (* OpenBracket *)
    rewrite E1 in E. cbn [bind] in E.
    destruct (Parser.parseStatements_loop fuel [] p1) as [[body p2]| |] eqn:E2;
      cbn [bind] in E; try discriminate.
    destruct (IH _ _ _ _ _ E2 HT1) as (toks2 & HT2 & Hc2 & Hb2).
    destruct (Parser.currentToken p2) as [tok2|] eqn:Ec2.
    + rewrite (Hc2 tok2 eq_refl) in Ec2.
      destruct (ParserTokens_current _ _ _ Ec2 HT2) as (rest2 & -> & p3 & E3 & HT3).
      unfold Parser.instr in E. rewrite E3 in E. cbn [bind] in E.
      destruct (IH _ _ _ _ _ E HT3) as (toks' & HT' & Hc & Hb).
      exists toks'. split; [exact HT'|]. split; [exact Hc|].
      intros stack. cbn [astFrom]. rewrite Hb2. cbn [astFrom]. apply Hb.
    + destruct (ParserTokens_end _ _ Ec2 HT2) as [-> ->].
      unfold Parser.instr in E.
      change (Parser.next {| Parser.tokenizer := []; Parser.currentToken := None |})
        with (Ok {| Parser.tokenizer := []; Parser.currentToken := None |}) in E.
      cbn [bind] in E. destruct fuel as [|fuel]; [discriminate E|].
      rewrite parseStatements_loop_step in E. cbn [Parser.currentToken] in E.
      injection E as <- <-. exists []. split; [split; reflexivity|].
      split; [intros tok [=]|].
      intros stack. cbn [astFrom]. rewrite Hb2. reflexivity.
  - (* CloseBracket *)
    injection E as <- <-. exists (Token.CloseBracket :: rest).
    split; [exact HT|]. split; [intros tok E; congruence|reflexivity].
  - (* Flush *)
    rewrite E1 in E. cbn [bind] in E.
    destruct (IH _ _ _ _ _ E HT1) as (toks' & HT' & Hc & Hb).
    exists toks'. split; [exact HT'|]. split; [exact Hc|].
    intros stack. cbn [astFrom atom]. apply Hb.
  - (* Asm *)
    rewrite E1 in E. cbn [bind] in E.
    destruct (Parser.currentToken p1) as [[]|]; try discriminate.
    destruct (Parser.next p1); discriminate.
Qed.

(** X13: the tree is a function of the token list alone.  For a source
    that lexes without exception to [toks], a tree that [parse] returns
    is the tree that reading [toks] from left to right with a stack of
    open quotations gives: brackets nest, [Flush] leaves no node, the
    first [CloseBracket] that closes nothing ends the program and the
    end of the input closes what is open; and when [toks] holds no
    [Asm], [parse] does return that tree. *)
Theorem parse_is_astOfTokens (source : jsstring) (toks : list Token) :
  Tokens source toks ->
  (forall ast, parse source = Ok ast -> ast = astOfTokens toks)
  /\ (~ In Token.Asm toks -> parse source = Ok (astOfTokens toks)).
Proof.
  intros HT.
  assert (A : forall ast, parse source = Ok ast -> ast = astOfTokens toks).
  { intros ast. unfold parse, parse_run, Parser.parseStatements.
    destruct (Parser_new_tokens _ _ HT) as (p0 & E0 & HT0 & _). rewrite E0.
    cbn [bind].
    destruct (Parser.parseStatements_loop (S (length source)) [] p0)
      as [[ast' p']| |] eqn:E; cbn [bind]; try discriminate.
    intros [= <-].
    destruct (parseStatements_loop_astFrom _ _ _ _ _ _ E HT0) as (toks' & HT' & Hc & Hb).
    unfold astOfTokens. rewrite Hb.
    destruct (Parser.currentToken p') as [tok|] eqn:Ec.
    - rewrite (Hc tok eq_refl) in Ec.
      destruct (ParserTokens_current _ _ _ Ec HT') as (rest & -> & _). reflexivity.
    - destruct (ParserTokens_end _ _ Ec HT') as [-> _]. reflexivity. }
  split; [exact A|].
  intros Hasm. destruct (parse_run_succeeds _ _ HT Hasm) as (ast & p & _ & E & _).
  assert (P : parse source = Ok ast) by (unfold parse; now rewrite E).
  rewrite P. f_equal. now apply A.
Qed.

(** The source 1B[[2]3: the flush leaves no node, and the outer
    quotation is closed by the end of the input. *)
Lemma parse_is_astOfTokens_witness :
  parse (lit "1B[[2]3") = Ok (astOfTokens [Token.Integer 1; Token.Flush;
                                           Token.OpenBracket; Token.OpenBracket;
                                           Token.Integer 2; Token.CloseBracket;
                                           Token.Integer 3]).
Proof.
  apply (parse_is_astOfTokens (lit "1B[[2]3")).
  - repeat (eapply Tokens_next; [reflexivity|]). eapply Tokens_done. reflexivity.
  - simpl. intros H. repeat (destruct H as [H|H]; [discriminate H|]). exact H.
Defined.

(** ** Payloads *)

Lemma nextString_loop_text s :
  exists text,
    s = text ++ Tokenizer.nextString_loop s
    /\ ~ In DQUOTE text
    /\ Tokenizer.substring s (Tokenizer.nextString_loop s) = text.
Proof.
  induction s as [|c s (text & E & Hd & Hs)].
  { exists []. auto. }
  cbn [Tokenizer.nextString_loop]. destruct (c =? DQUOTE)%N eqn:D; cbn [negb].
  - exists []. repeat split; auto. apply substring_same.
  - exists (c :: text). split; [simpl; congruence|]. split.
    + intros [H|H]; [|contradiction]. apply N.eqb_neq in D. congruence.
    + rewrite substring_cons by apply nextString_loop_length. now rewrite Hs.
Qed.

Lemma symbols_get_In c tok :
  Tokenizer.get Tokenizer.symbols c = Some tok -> In (c, tok) Tokenizer.symbols.
Proof.
  generalize Tokenizer.symbols. intros m.
  induction m as [|[k v] m IH]; simpl; [discriminate|].
  destruct (k =? c)%N eqn:E.
  - apply N.eqb_eq in E. intros [= ->]. left. now subst.
  - intros H. right. auto.
Qed.

Lemma symbols_tokenOK c tok : In (c, tok) Tokenizer.symbols -> tokenOK tok.
Proof.
  unfold Tokenizer.symbols. intros H.
  repeat (destruct H as [H|H]; [injection H as _ <-; exact I|]). destruct H.
Qed.

Lemma nextToken_tokenOK c s tok s' :
  nextToken c s = Ok (Some tok, s') -> tokenOK tok.
Proof.
  unfold nextToken.
  destruct (c =? ch "'")%N.
  { destruct (Tokenizer.nextChar (c :: s)) as [[t s1]| |] eqn:E; simpl; try discriminate.
    intros [= -> _]. apply nextChar_Ok in E as (_ & d & _ & ->). exact I. }
  destruct (c =? DQUOTE)%N.
  { destruct (Tokenizer.nextString (c :: s)) as [[t s1]| |] eqn:E; simpl; try discriminate.
    intros [= -> _]. apply nextString_Ok in E as (_ & _ & ->).
    destruct (nextString_loop_text s) as (text & _ & Hd & ->). exact Hd. }
  destruct (Tokenizer.isDigit c).
  { unfold Tokenizer.nextNumber. simpl. intros [= <- _]. exact I. }
  destruct (Tokenizer.isLower c) eqn:L.
  { simpl. intros [= <- _]. simpl. eauto. }
  destruct (Tokenizer.get Tokenizer.symbols c) eqn:G; [|discriminate].
  intros [= -> _]. eapply symbols_tokenOK, symbols_get_In; eauto.
Qed.

Lemma next_tokenOK s : forall tok s',
  Tokenizer.next s = Ok (Some tok, s') -> tokenOK tok.
Proof.
  pattern s, (Tokenizer.next s). apply next_ind; clear s.
  - discriminate.
  - eauto.
  - eauto.
  - discriminate.
  - intros c s _ _ tok s' E. eapply nextToken_tokenOK; eauto.
Qed.

Lemma Parser_next_tokenOK p p1 tok :
  Parser.next p = Ok p1 -> Parser.currentToken p1 = Some tok -> tokenOK tok.
Proof.
  unfold Parser.next.
  destruct (Tokenizer.next (Parser.tokenizer p)) as [[v s']| |] eqn:E; simpl;
    try discriminate.
  intros [= <-]. simpl. intros ->. eapply next_tokenOK; eauto.
Qed.

Lemma nodeOK_Quote body : nodeOK (AstNode.Quote body) <-> Forall nodeOK body.
Proof.
  cbn [nodeOK]. induction body as [|node body IH].
  - split; [constructor|trivial].
  - rewrite IH. split.
    + intros [H1 H2]. now constructor.
    + intros H. inversion H. auto.
Qed.

Lemma atom_nodeOK tok node : atom tok = Some node -> tokenOK tok -> nodeOK node.
Proof. destruct tok; simpl; intros [= <-]; simpl; auto. Qed.

Lemma parseStatements_loop_nodeOK fuel : forall statements p statements' p',
  (forall tok, Parser.currentToken p = Some tok -> tokenOK tok) ->
  Forall nodeOK statements ->
  Parser.parseStatements_loop fuel statements p = Ok (statements', p') ->
  Forall nodeOK statements'.
Proof.
  induction fuel as [|fuel IH]; intros statements p statements' p' Hc Hs E.
  { rewrite parseStatements_loop_O in E. discriminate. }
  rewrite parseStatements_loop_step in E.
  destruct (Parser.currentToken p) as [tok|] eqn:Ec.
  2:{ now injection E as <- <-. }
  assert (Hinstr : forall node st p0,
             Forall nodeOK st -> nodeOK node ->
             ('(st, p2) <- Parser.instr node st p0 ;;
              Parser.parseStatements_loop fuel st p2) = Ok (statements', p') ->
             Forall nodeOK statements').
  { intros node st p0 Hst Hn. unfold Parser.instr.
    destruct (Parser.next p0) as [p2| |] eqn:E2; simpl; try discriminate.
    apply IH.
    - intros tok2. eapply Parser_next_tokenOK; eauto.
    - apply Forall_app. split; [assumption|]. now constructor. }
  destruct (atom tok) as [node|] eqn:Ea.
  { revert E. apply Hinstr; auto. eapply atom_nodeOK; eauto. }
  destruct tok; try discriminate Ea.
  - destruct (Parser.next p) as [p1| |] eqn:E1; simpl in E; try discriminate.
    destruct (Parser.parseStatements_loop fuel [] p1) as [[body p2]| |] eqn:E2;
      simpl in E; try discriminate.
    revert E. apply Hinstr; auto. apply nodeOK_Quote.
    eapply IH; [|constructor|exact E2].
    intros tok1. eapply Parser_next_tokenOK; eauto.
  - now injection E as <- <-.
  - destruct (Parser.next p) as [p1| |] eqn:E1; simpl in E; try discriminate.
    eapply IH; [|exact Hs|exact E].
    intros tok1. eapply Parser_next_tokenOK; eauto.
  - destruct (Parser.next p) as [p1| |] eqn:E1; simpl in E; try discriminate.
    destruct (Parser.currentToken p1) as [[]|]; try discriminate.
    destruct (Parser.next p1); discriminate.
Qed.

(** X14: in a tree that [parse] returns, at any depth of quotation,
    the name of a [Variable] node is one lowercase letter, so that
    [varName] gives one of the 26 globals that the prologue declares,
    and the text of a [String] node holds no double quote. *)
Theorem parsed_payloads_are_well_formed (source : jsstring) (ast : list AstNode) :
  parse source = Ok ast ->
  Forall nodeOK ast
  /\ (forall c, Tokenizer.isLower c = true ->
                In c (lit "abcdefghijklmnopqrstuvwxyz")).
Proof.
  intros E. split.
  - revert E. unfold parse, parse_run, Parser.new, Parser.parseStatements.
    destruct (Parser.next {| Parser.tokenizer := source; Parser.currentToken := None |})
      as [p| |] eqn:E0; simpl; try discriminate.
    destruct (Parser.parseStatements_loop (S (length source)) [] p)
      as [[st p']| |] eqn:E; simpl; try discriminate.
    intros [= <-]. eapply parseStatements_loop_nodeOK; [|constructor|exact E].
    intros tok. eapply Parser_next_tokenOK; eauto.
  - intros c L. apply isLower_range in L.
    assert (H : exists k, k < 26 /\ c = N.of_nat (97 + k)).
    { exists (N.to_nat c - 97). split; lia. }
    destruct H as (k & Hk & ->).
    do 26 (destruct k as [|k]; [simpl; tauto|]). lia.
Qed.

Lemma parsed_payloads_are_well_formed_witness :
  Forall nodeOK [AstNode.Quote [AstNode.Variable_ (lit "a");
                                AstNode.String (lit "b c")]].
Proof.
  apply (parsed_payloads_are_well_formed
           (lit "[a" ++ DQUOTE :: lit "b c" ++ [DQUOTE])).
  vm_compute. reflexivity.
Defined.

(** * Further properties of the code generator *)

(** ** The bitwise operators *)

Lemma int32_shiftr x :
  int32 x <-> Z.shiftr x 31 = 0%Z \/ Z.shiftr x 31 = (-1)%Z.
Proof.
  unfold int32. rewrite Z.shiftr_div_pow2 by lia.
  change (2 ^ 31)%Z with 2147483648%Z.
  pose proof (Z.div_mod x 2147483648 ltac:(lia)) as E.
  pose proof (Z.mod_pos_bound x 2147483648 ltac:(lia)) as B.
  lia.
Qed.

(** X15: for [BitAnd] and [BitOr] the compiler appends the four
    instructions of an arithmetic node with [and] or [or] as
    operation; the state of the compiler is unchanged.  Run on a stack
    with b above a they leave the bitwise conjunction or disjunction of
    a and b in place of the two, which for two signed 32-bit integers is
    one again. *)
Theorem bitwise_lowering
  (node : AstNode) (op : IR.binop) (c : Compiler.t) (sc : Compiler.Scope) :
  bitwise node = Some op ->
  let g := Compiler.temporaryGenerator sc in
  let b_tmp := nameAfter g 0 in
  let a_tmp := nameAfter g 1 in
  let result := nameAfter g 2 in
  let program :=
    [ IR.PopInt b_tmp; IR.PopInt a_tmp; IR.Bin result op a_tmp b_tmp;
      IR.PushInt result ] in
  fst (Compiler.compileNode node c sc) = c
  /\ Compiler.instructions (snd (Compiler.compileNode node c sc))
     = Compiler.instructions sc ++ map IR.render program
  /\ (forall temps a b rest,
         option_map IR.stack
           (IR.run program {| IR.temps := temps; IR.stack := b :: a :: rest |})
         = Some ((match node with
                  | AstNode.BitAnd => Z.land a b
                  | _ => Z.lor a b
                  end) :: rest))
  /\ (forall a b, int32 a -> int32 b -> int32 (Z.land a b) /\ int32 (Z.lor a b)).
Proof.
  intros Hop. cbv zeta.
  split; [destruct node; try discriminate Hop; reflexivity|].
  split.
  { destruct node; try discriminate Hop; injection Hop as <-;
      [ exact (basicOp_eq sc IR.And) | exact (basicOp_eq sc IR.Or) ]. }
  split.
  { intros temps a b rest. rewrite run_basicOp.
    destruct node; try discriminate Hop; injection Hop as <-; reflexivity. }
  intros a b Ha Hb.
  apply int32_shiftr in Ha, Hb. split; apply int32_shiftr.
  - rewrite Z.shiftr_land. destruct Ha as [-> | ->], Hb as [-> | ->]; auto.
  - rewrite Z.shiftr_lor. destruct Ha as [-> | ->], Hb as [-> | ->]; auto.
Qed.

(** [12 10 &] leaves 8. *)
Lemma bitwise_lowering_witness :
  option_map IR.stack
    (IR.run [ IR.PopInt (lit "%t1"); IR.PopInt (lit "%t2");
              IR.Bin (lit "%t3") IR.And (lit "%t2") (lit "%t1");
              IR.PushInt (lit "%t3") ]
       {| IR.temps := []; IR.stack := [10; 12]%Z |})
  = Some [8%Z].
Proof.
  exact (proj1 (proj2 (proj2
           (bitwise_lowering AstNode.BitAnd IR.And Compiler.new Compiler.newScope
              eq_refl))) [] 12%Z 10%Z []).
Defined.

(** ** Names *)

Lemma names_nth n : forall g i,
  i < n ->
  nth_error (names n g) i = Some (nameAfter g (N.of_nat i)).
Proof.
  induction n as [|n IH]; intros g i Hi; [lia|].
  cbn [names TemporaryGenerator.next]. destruct i as [|i].
  - cbn [nth_error]. unfold nameAfter. now rewrite N.add_0_r.
  - cbn [nth_error]. rewrite IH by lia. unfold nameAfter.
    cbn [TemporaryGenerator.id TemporaryGenerator.template].
    do 3 f_equal. lia.
Qed.

Lemma names_length n : forall g, length (names n g) = n.
Proof.
  induction n as [|n IH]; intros g; [reflexivity|].
  cbn [names TemporaryGenerator.next length]. now rewrite IH.
Qed.

(** X16: a generator never gives a name twice: the names of any number
    of successive calls of [next()] are pairwise distinct, the k-th
    being the template followed by the decimal text of the counter
    plus k. *)
Theorem generator_names_are_distinct (n : nat) (g : TemporaryGenerator.t) :
  NoDup (names n g)
  /\ length (names n g) = n
  /\ forall i, i < n ->
       nth_error (names n g) i
       = Some (TemporaryGenerator.template g
                 ++ toStringN (TemporaryGenerator.id g + N.of_nat i)).
Proof.
  split; [|split; [apply names_length | apply names_nth]].
  apply (proj2 (NoDup_nth_error (names n g))). intros i j Hi E.
  rewrite names_length in Hi. rewrite names_nth in E by exact Hi.
  destruct (Nat.lt_ge_cases j n) as [Hj|Hj].
  - rewrite names_nth in E by exact Hj. injection E as E.
    apply nameAfter_inj in E. lia.
  - assert (X : nth_error (names n g) j = None)
      by (apply nth_error_None; rewrite names_length; lia).
    congruence.
Qed.

(** ** Hoisted functions *)

Lemma Hoists_same c c' :
  Compiler.functions c' = Compiler.functions c ->
  Compiler.lambdaNameGenerator c' = Compiler.lambdaNameGenerator c ->
  Hoists c c'.
Proof.
  intros Hf Hg. unfold Hoists. rewrite Hf, Hg.
  split; [reflexivity|]. split; [lia|].
  exists []. rewrite app_nil_r. repeat split; constructor.
Qed.

Lemma hoistedBetween_mono template from1 to1 from2 to2 entry :
  (from2 <= from1)%N -> (to1 <= to2)%N ->
  hoistedBetween template from1 to1 entry ->
  hoistedBetween template from2 to2 entry.
Proof.
  intros H1 H2 [(k & Hk & E) Ht]. split; [|exact Ht].
  exists k. split; [lia | exact E].
Qed.

Lemma Hoists_trans c1 c2 c3 : Hoists c1 c2 -> Hoists c2 c3 -> Hoists c1 c3.
Proof.
  unfold Hoists. intros (T1 & I1 & added1 & F1 & D1 & A1) (T2 & I2 & added2 & F2 & D2 & A2).
  split; [congruence|]. split; [lia|].
  exists (added1 ++ added2). split; [now rewrite F2, F1, app_assoc|]. split.
  - rewrite map_app. apply NoDup_app; [exact D1 | exact D2 |].
    intros name (e1 & <- & In1)%in_map_iff (e2 & E & In2)%in_map_iff.
    rewrite Forall_forall in A1, A2.
    destruct (A1 _ In1) as [(k1 & Hk1 & E1) _].
    destruct (A2 _ In2) as [(k2 & Hk2 & E2) _].
    rewrite T1 in E2. rewrite E, E1 in E2.
    apply app_inv_head, toStringN_inj in E2. lia.
  - apply Forall_app. split.
    + eapply Forall_impl; [|exact A1]. intros entry.
      apply hoistedBetween_mono; lia.
    + eapply Forall_impl; [|exact A2]. intros entry. rewrite T1.
      apply hoistedBetween_mono; lia.
Qed.

Lemma getFunction_Hoists compile_ nodes c :
  (forall c1, Hoists c1 (snd (compile_ nodes c1))) ->
  Hoists c (snd (Compiler.getFunction compile_ nodes c)).
Proof.
  intros H. unfold Compiler.getFunction.
  destruct (truthy _); [apply Hoists_same; reflexivity|].
  cbn [TemporaryGenerator.next].
  match goal with
  | |- context [compile_ nodes ?c1] =>
      pose proof (H c1) as Hc; destruct (compile_ nodes c1) as [body c2]
  end.
  cbn [snd] in *. unfold Hoists in *.
  cbn [Compiler.functions Compiler.lambdaNameGenerator
       TemporaryGenerator.id TemporaryGenerator.template] in *.
  destruct Hc as (T & I & added & F & D & A).
  split; [exact T|]. split; [lia|].
  set (name := TemporaryGenerator.template (Compiler.lambdaNameGenerator c)
                 ++ toStringN (TemporaryGenerator.id (Compiler.lambdaNameGenerator c))).
  exists (added ++ [(nodes, name,
                     lit "define void " ++ name ++ lit "() {" ++ LF ++ lit "entry:"
                       ++ LF ++ body ++ LF ++ lit "ret void" ++ LF ++ lit "}")]).
  split; [rewrite F, <- app_assoc; reflexivity|]. split.
  - rewrite map_app. apply NoDup_app; [exact D | repeat constructor; intros [] |].
    intros n (e1 & <- & In1)%in_map_iff [E|[]].
    rewrite Forall_forall in A. destruct (A _ In1) as [(k & Hk & E1) _].
    cbn [map lambdaName fst snd] in E. rewrite E1 in E. subst name.
    apply app_inv_head, toStringN_inj in E. lia.
  - apply Forall_app. split.
    + eapply Forall_impl; [|exact A]. intros entry.
      apply hoistedBetween_mono; lia.
    + constructor; [|constructor]. split.
      * exists (TemporaryGenerator.id (Compiler.lambdaNameGenerator c)).
        split; [lia | reflexivity].
      * exists body. reflexivity.
Qed.

Lemma compileNodes_Hoists nodes :
  Forall (fun node => forall c sc, Hoists c (fst (Compiler.compileNode node c sc)))
    nodes ->
  forall c sc, Hoists c (fst (Compiler.compileNodes nodes c sc)).
Proof.
  induction 1 as [|node nodes Hn _ IH]; intros c sc; [now apply Hoists_same|].
  cbn [Compiler.compileNodes].
  pose proof (Hn c sc) as H1.
  destruct (Compiler.compileNode node c sc) as [c1 sc1].
  eapply Hoists_trans; [exact H1 | apply IH].
Qed.

Lemma getConstString_Hoists str c : Hoists c (snd (Compiler.getConstString str c)).
Proof.
  unfold Compiler.getConstString. destruct (truthy _); apply Hoists_same; reflexivity.
Qed.

Lemma compileNode_Hoists node : forall c sc,
  Hoists c (fst (Compiler.compileNode node c sc)).
Proof.
  induction node as [body IH|node Hn] using AstNode_nested_ind; intros c sc.
  - rewrite compileNode_Quote.
    pose proof (getFunction_Hoists Compiler.compile_ body c) as H.
    destruct (Compiler.getFunction Compiler.compile_ body c) as [name c1].
    apply H. intros c0. unfold Compiler.compile_.
    pose proof (compileNodes_Hoists body IH c0 Compiler.newScope) as H0.
    now destruct (Compiler.compileNodes body c0 Compiler.newScope).
  - destruct node as [v|str|v|body| | | | | | | | | | | | | | | | | | | | | | | ];
      try (now apply Hoists_same); try (now destruct Hn).
    cbn [Compiler.compileNode].
    pose proof (getConstString_Hoists str c) as H.
    now destruct (Compiler.getConstString str c).
Qed.

Lemma compile__Hoists nodes c : Hoists c (snd (Compiler.compile_ nodes c)).
Proof.
  unfold Compiler.compile_.
  pose proof (compileNodes_Hoists nodes
                (proj2 (Forall_forall _ _) (fun node _ => compileNode_Hoists node))
                c Compiler.newScope) as H.
  now destruct (Compiler.compileNodes nodes c Compiler.newScope).
Qed.

(** X17: the functions hoisted by a compilation have pairwise distinct
    names; each name is [@lambda_k] for a k from 1 that the generator
    has passed, and each definition is the text
    [define void <name>() {], [entry:], the body, [ret void], [}]
    under that same name. *)
Theorem hoisted_functions_are_distinct (ast : list AstNode) :
  let c := snd (Compiler.compile_ ast Compiler.new) in
  NoDup (map lambdaName (Compiler.functions c))
  /\ Forall (fun entry =>
               (exists k,
                   (1 <= k < TemporaryGenerator.id (Compiler.lambdaNameGenerator c))%N
                   /\ lambdaName entry = lit "@lambda_" ++ toStringN k)
               /\ exists text, snd entry = definition (lambdaName entry) text)
       (Compiler.functions c).
Proof.
  cbv zeta. destruct (compile__Hoists ast Compiler.new) as (_ & _ & added & F & D & A).
  cbn [Compiler.functions Compiler.new app] in F. rewrite F.
  split; [exact D | exact A].
Qed.


(** ** What [astEqual] compares *)

Lemma AstType_eqb_eq s t : AstType.eqb s t = true <-> s = t.
Proof. unfold AstType.eqb. destruct (AstType.eq_dec s t); split; congruence. Qed.

Lemma payloadOf_Quote body : payloadOf (AstNode.Quote body) = PArray (spineOf body).
Proof. now destruct body. Qed.

Lemma astEqualValues_Quote a b :
  astEqualValues (AstNode.Quote a) (AstNode.Quote b)
  = astEqual (VArray a) (VArray b).
Proof. now rewrite astEqualValues_eq. Qed.

Lemma astEqualValues_payload x : forall y,
  AstNode.type x = AstNode.type y ->
  (astEqualValues x y = true <-> payloadOf x = payloadOf y).
Proof.
  induction x as [body IH|x Hx] using AstNode_nested_ind; intros y Ht.
  - destruct y as [v|str|v|body'| | | | | | | | | | | | | | | | | | | | | | | ];
      try discriminate Ht.
    rewrite !payloadOf_Quote. cbn [astEqualValues value typeof JsType_eqb negb].
    destruct (length body =? length body')%nat eqn:El; cbn [negb].
    + apply Nat.eqb_eq in El.
      destruct body as [|a0 body], body' as [|b0 body']; try discriminate El.
      * split; reflexivity.
      * cbn [spineOf]. rewrite El.
        destruct (AstType.eqb (AstNode.type a0) (AstNode.type b0)) eqn:Et; cbn [negb].
        -- apply AstType_eqb_eq in Et. rewrite Et.
           apply Forall_inv in IH. rewrite (IH b0 Et).
           split; [intros E; rewrite E; reflexivity | intros [= E]; exact E].
        -- split; [discriminate|]. intros [= E _].
           apply AstType_eqb_eq in E. congruence.
    + split; [discriminate|]. intros [= E]. apply Nat.eqb_neq in El.
      destruct body as [|a0 body], body' as [|b0 body']; try discriminate E.
      * elim El. reflexivity.
      * injection E as E _ _. elim El. cbn [length]. now rewrite E.
  - destruct x as [v|str|v|body| | | | | | | | | | | | | | | | | | | | | | | ];
      try (now destruct Hx);
      destruct y as [w|str'|w|body'| | | | | | | | | | | | | | | | | | | | | | | ];
      try discriminate Ht; cbn;
      try (split; reflexivity).
    + rewrite jsstring_eqb_eq. split; congruence.
    + rewrite jsstring_eqb_eq. split; congruence.
    + rewrite number_eqb_eq. split; congruence.
Qed.

(** X19: [astEqual] on two bodies answers [true] exactly when they
    have the same length and, if they are not empty, first nodes of
    the same type whose values are equal strings or numbers, are both
    absent, or are bodies that compare equal in the same way; no node
    after the first takes part. *)
Theorem astEqual_compares_spines (a b : list AstNode) :
  astEqual (VArray a) (VArray b) = true <-> spineOf a = spineOf b.
Proof.
  rewrite <- astEqualValues_Quote.
  rewrite (astEqualValues_payload (AstNode.Quote a) (AstNode.Quote b) eq_refl).
  rewrite !payloadOf_Quote. split; congruence.
Qed.

(** ** A quotation that holds a quotation of its own shape *)

Lemma compileNode_nonQuote node c sc :
  AstNode.type node <> AstType.Quote ->
  hoisted (fst (Compiler.compileNode node c sc)) = hoisted c.
Proof.
  intros Hn.
  destruct node as [v|str|v|body| | | | | | | | | | | | | | | | | | | | | | | ];
    try reflexivity; try (now elim Hn).
  cbn [Compiler.compileNode]. unfold Compiler.getConstString.
  now destruct (truthy _).
Qed.

Lemma compileNodes_nonQuote nodes : forall c sc,
  Forall (fun node => AstNode.type node <> AstType.Quote) nodes ->
  hoisted (fst (Compiler.compileNodes nodes c sc)) = hoisted c.
Proof.
  induction nodes as [|node nodes IH]; intros c sc H; [reflexivity|].
  cbn [Compiler.compileNodes]. inversion H as [|? ? Hn Hs]; subst.
  pose proof (compileNode_nonQuote node c sc Hn) as E.
  destruct (Compiler.compileNode node c sc) as [c1 sc1]. cbn [fst] in E.
  now rewrite IH, E.
Qed.

Lemma getFunction_fresh nodes c :
  find (matches nodes) (Compiler.functions c) = None ->
  let g := Compiler.lambdaNameGenerator c in
  let r := Compiler.compile_ nodes
             {| Compiler.functions := Compiler.functions c;
                Compiler.strings := Compiler.strings c;
                Compiler.lambdaNameGenerator := snd (TemporaryGenerator.next g);
                Compiler.stringNameGenerator := Compiler.stringNameGenerator c |} in
  fst (Compiler.getFunction Compiler.compile_ nodes c) = nameAfter g 0
  /\ hoisted (snd (Compiler.getFunction Compiler.compile_ nodes c))
     = (Compiler.functions (snd r)
          ++ [(nodes, nameAfter g 0, definition (nameAfter g 0) (fst r))],
        Compiler.lambdaNameGenerator (snd r)).
Proof.
  intros Hf. cbv zeta. unfold Compiler.getFunction.
  change (find _ (Compiler.functions c)) with (find (matches nodes) (Compiler.functions c)).
  rewrite Hf. cbn [option_map truthy TemporaryGenerator.next snd].
  destruct (Compiler.compile_ nodes _) as [text c2]. cbn [fst snd].
  unfold nameAfter. rewrite N.add_0_r. split; reflexivity.
Qed.

Lemma find_app {A : Type} (f : A -> bool) (l1 l2 : list A) :
  find f l1 = None -> find f (l1 ++ l2) = find f l2.
Proof.
  induction l1 as [|a l1 IH]; [reflexivity|]. cbn [find app].
  destruct (f a); [discriminate | exact IH].
Qed.

Lemma find_ext {A : Type} (f g : A -> bool) (l : list A) :
  (forall a, f a = g a) -> find f l = find g l.
Proof.
  intros H. induction l as [|a l IH]; [reflexivity|]. cbn [find].
  now rewrite H, IH.
Qed.

Lemma matches_same_shape x a b entry :
  length a = length b -> matches (x :: a) entry = matches (x :: b) entry.
Proof.
  intros L. unfold matches. rewrite !(astEqual_eq (VArray _)).
  cbn [typeof JsType_eqb negb isArray andb length]. now rewrite L.
Qed.

(** X20: a quotation whose second node is a quotation of the same
    length and with the same first node is not found again.  When
    neither is hoisted yet and no other node of the two is a quotation,
    [#getFunction] gives the outer body the next name and the inner
    body the name after it, stores the inner function first, and on the
    next occurrence of the outer body returns the name of the inner
    function: the same text is lowered to two different symbols. *)
Theorem repeated_quotation_takes_inner_function
  (x : AstNode) (ys zs : list AstNode) (c : Compiler.t) :
  let inner := x :: ys in
  let body := x :: AstNode.Quote inner :: zs in
  let g := Compiler.lambdaNameGenerator c in
  let r1 := Compiler.getFunction Compiler.compile_ body c in
  let r2 := Compiler.getFunction Compiler.compile_ body (snd r1) in
  Forall (fun node => AstNode.type node <> AstType.Quote) (x :: ys ++ zs) ->
  length ys = S (length zs) ->
  find (matches body) (Compiler.functions c) = None ->
  fst r1 = nameAfter g 0
  /\ fst r2 = nameAfter g 1
  /\ fst r1 <> fst r2
  /\ snd r2 = snd r1
  /\ exists text1 text2,
       Compiler.functions (snd r1)
       = Compiler.functions c
           ++ [ (inner, nameAfter g 1, definition (nameAfter g 1) text2);
                (body, nameAfter g 0, definition (nameAfter g 0) text1) ].
Proof.
  cbv zeta. intros Hq L Hf.
  inversion Hq as [|? ? Hx Hs]; subst. apply Forall_app in Hs. destruct Hs as [Hys Hzs].
  assert (Hinner : Forall (fun node => AstNode.type node <> AstType.Quote) (x :: ys))
    by (constructor; assumption).
  set (inner := x :: ys) in *. set (body := x :: AstNode.Quote inner :: zs).
  set (g := Compiler.lambdaNameGenerator c).
  destruct (getFunction_fresh body c Hf) as [N1 H1]. fold g in N1, H1.
  set (c1 := {| Compiler.functions := Compiler.functions c;
                Compiler.strings := Compiler.strings c;
                Compiler.lambdaNameGenerator := snd (TemporaryGenerator.next g);
                Compiler.stringNameGenerator := Compiler.stringNameGenerator c |}) in *.
  (* the body of the outer function *)
  assert (Hbody : exists text2,
             hoisted (snd (Compiler.compile_ body c1))
             = (Compiler.functions c
                  ++ [(inner, nameAfter g 1, definition (nameAfter g 1) text2)],
                snd (TemporaryGenerator.next (snd (TemporaryGenerator.next g))))).
  { unfold Compiler.compile_, body. cbn [Compiler.compileNodes].
    pose proof (compileNode_nonQuote x c1 Compiler.newScope Hx) as Ex.
    destruct (Compiler.compileNode x c1 Compiler.newScope) as [c1a sc1].
    cbn [fst] in Ex. injection Ex as Ef Eg. cbn [Compiler.functions c1] in Ef.
    rewrite compileNode_Quote.
    assert (Hfi : find (matches inner) (Compiler.functions c1a) = None).
    { rewrite Ef, <- Hf. apply find_ext. intros entry.
      apply matches_same_shape. cbn [length]. now rewrite L. }
    destruct (getFunction_fresh inner c1a Hfi) as [N2 H2].
    destruct (Compiler.getFunction Compiler.compile_ inner c1a) as [name2 c3].
    cbn [fst snd] in N2, H2.
    match type of H2 with
    | context [Compiler.compile_ inner ?c2] =>
        assert (E2 : hoisted (snd (Compiler.compile_ inner c2)) = hoisted c2)
    end.
    { unfold Compiler.compile_.
      match goal with
      | |- context [Compiler.compileNodes inner ?c2 ?sc] =>
          pose proof (compileNodes_nonQuote inner c2 sc Hinner) as E;
          destruct (Compiler.compileNodes inner c2 sc)
      end. exact E. }
    pose proof (f_equal fst E2) as E2f. pose proof (f_equal snd E2) as E2g.
    unfold hoisted in E2f, E2g. cbn [fst snd] in E2f, E2g. rewrite E2f, E2g in H2.
    cbn [Compiler.functions Compiler.lambdaNameGenerator] in H2.
    pose proof (compileNodes_nonQuote zs c3
                  (Compiler.push sc1
                     [lit "call void @stack_push_quote(void()* " ++ name2 ++ lit ")"])
                  Hzs) as E3.
    destruct (Compiler.compileNodes zs c3 _) as [c4 sc4]. cbn [fst snd] in *.
    rewrite E3, H2, Ef, Eg.
    assert (En : nameAfter
                   {| TemporaryGenerator.id := TemporaryGenerator.id g + 1;
                      TemporaryGenerator.template := TemporaryGenerator.template g |} 0
                 = nameAfter g 1)
      by (unfold nameAfter; cbn; now rewrite N.add_0_r).
    rewrite En. eexists. reflexivity. }
  destruct Hbody as (text2 & Hbody). injection Hbody as Hbf Hbg.
  rewrite Hbf, Hbg in H1. injection H1 as F1 G1.
  assert (Hne : nameAfter g 0 <> nameAfter g 1)
    by (intros E; apply nameAfter_inj in E; lia).
  assert (R2 : Compiler.getFunction Compiler.compile_ body
                 (snd (Compiler.getFunction Compiler.compile_ body c))
               = (nameAfter g 1, snd (Compiler.getFunction Compiler.compile_ body c))).
  { unfold Compiler.getFunction at 1.
    change (find _ (Compiler.functions ?c0)) with (find (matches body) (Compiler.functions c0)).
    rewrite F1, <- app_assoc, (find_app _ _ _ Hf). cbn [app find].
    assert (Hm : forall e, matches body (inner, nameAfter g 1, e) = true).
    { intros e. unfold body. rewrite (matches_same_shape x _ ys) by (cbn [length]; lia).
      apply astEqual_refl. }
    rewrite Hm. cbn [option_map fst snd].
    unfold nameAfter at 1.
    destruct (toStringN (TemporaryGenerator.id g + 1)) as [|d ds] eqn:Ed;
      [now apply toStringN_nonempty in Ed|].
    destruct (TemporaryGenerator.template g); reflexivity. }
  rewrite R2, N1. cbn [fst snd].
  split; [reflexivity|]. split; [reflexivity|]. split; [exact Hne|].
  split; [reflexivity|].
  exists (fst (Compiler.compile_ body c1)), text2. rewrite F1, <- app_assoc. reflexivity.
Qed.

(** The source [[1[1 9]][1[1 9]]]: the second quotation is lowered
    to [@lambda_2], the function of [[1 9]]. *)
Lemma repeated_quotation_takes_inner_function_witness :
  let body := [AstNode.Integer 1;
               AstNode.Quote [AstNode.Integer 1; AstNode.Integer 9]] in
  fst (Compiler.getFunction Compiler.compile_ body Compiler.new) = lit "@lambda_1"
  /\ fst (Compiler.getFunction Compiler.compile_ body
            (snd (Compiler.getFunction Compiler.compile_ body Compiler.new)))
     = lit "@lambda_2".
Proof.
  destruct (repeated_quotation_takes_inner_function
              (AstNode.Integer 1) [AstNode.Integer 9] [] Compiler.new)
    as (H1 & H2 & _).
  - repeat constructor; discriminate.
  - reflexivity.
  - reflexivity.
  - split; [exact H1 | exact H2].
Defined.

(** ** The text of a string constant *)

Lemma hexValue_hexDigit d : (d < 16)%N -> hexValue (hexDigit d) = d /\ isHex (hexDigit d) = true.
Proof.
  intros Hd. unfold hexValue, hexDigit, isHex.
  destruct (d <? 10)%N eqn:E.
  - apply N.ltb_lt in E.
    assert (E1 : (48 <=? 48 + d)%N = true) by (apply N.leb_le; lia).
    assert (E2 : (48 + d <=? 57)%N = true) by (apply N.leb_le; lia).
    rewrite E1, E2. cbn [andb orb]. split; [lia | reflexivity].
  - apply N.ltb_ge in E.
    assert (E2 : (87 + d <=? 57)%N = false) by (apply N.leb_gt; lia).
    assert (E3 : (97 <=? 87 + d)%N = true) by (apply N.leb_le; lia).
    assert (E4 : (87 + d <=? 102)%N = true) by (apply N.leb_le; lia).
    rewrite E2, E3, E4, andb_false_r. cbn [andb orb]. split; [lia | reflexivity].
Qed.

Lemma escape_eq code :
  (code < 256)%N ->
  escape code = [ch "\"; hexDigit (code / 16); hexDigit (code mod 16)].
Proof.
  intros Hc. unfold escape, toString16. destruct (code <? 16)%N eqn:E.
  - apply N.ltb_lt in E. cbn. rewrite N.div_small, N.mod_small by lia. reflexivity.
  - reflexivity.
Qed.

Lemma unescape_escape code rest :
  (code < 256)%N -> unescape (escape code ++ rest) = code :: unescape rest.
Proof.
  intros Hc. rewrite escape_eq by exact Hc. cbn [app unescape].
  assert (H1 : (code / 16 < 16)%N) by (apply N.Div0.div_lt_upper_bound; lia).
  assert (H2 : (code mod 16 < 16)%N) by (apply N.mod_lt; lia).
  destruct (hexValue_hexDigit _ H1) as [-> _].
  destruct (hexValue_hexDigit _ H2) as [-> _].
  f_equal. pose proof (N.div_mod code 16 ltac:(lia)). lia.
Qed.

Lemma escape_chars code :
  (code < 256)%N ->
  Forall (fun c => c = ch "\" \/ isHex c = true) (escape code).
Proof.
  intros Hc. rewrite escape_eq by exact Hc.
  assert (H1 : (code / 16 < 16)%N) by (apply N.Div0.div_lt_upper_bound; lia).
  assert (H2 : (code mod 16 < 16)%N) by (apply N.mod_lt; lia).
  constructor; [now left|].
  constructor; [right; now apply hexValue_hexDigit|].
  constructor; [right; now apply hexValue_hexDigit|]. constructor.
Qed.

Lemma utf8_bytes cp :
  (cp < 1114112)%N ->
  Forall (fun b => (b < 256)%N) (utf8 cp).
Proof.
  intros Hc. unfold utf8.
  destruct (cp <? 128)%N eqn:E1; [apply N.ltb_lt in E1; repeat constructor; lia|].
  destruct (cp <? 2048)%N eqn:E2.
  { apply N.ltb_lt in E2.
    assert (cp / 64 < 32)%N by (apply N.Div0.div_lt_upper_bound; lia).
    assert (cp mod 64 < 64)%N by (apply N.mod_lt; lia).
    repeat constructor; lia. }
  destruct (cp <? 65536)%N eqn:E3.
  { apply N.ltb_lt in E3.
    assert (cp / 4096 < 16)%N by (apply N.Div0.div_lt_upper_bound; lia).
    assert ((cp / 64) mod 64 < 64)%N by (apply N.mod_lt; lia).
    assert (cp mod 64 < 64)%N by (apply N.mod_lt; lia).
    repeat constructor; lia. }
  assert (cp / 262144 < 5)%N by (apply N.Div0.div_lt_upper_bound; lia).
  assert ((cp / 4096) mod 64 < 64)%N by (apply N.mod_lt; lia).
  assert ((cp / 64) mod 64 < 64)%N by (apply N.mod_lt; lia).
  assert (cp mod 64 < 64)%N by (apply N.mod_lt; lia).
  repeat constructor; lia.
Qed.

(** The bytes of a string and their number, by induction on the
    length: a surrogate pair takes two code units at once. *)
Lemma encode_bytes n : forall s,
  length s <= n -> wf_string s ->
  Forall (fun b => (b < 256)%N) (encode s)
  /\ length s <= length (encode s) <= 3 * length s.
Proof.
  unfold encode.
  induction n as [|n IH]; intros s Hn Hs.
  { destruct s; [|simpl in Hn; lia]. split; [constructor | simpl; lia]. }
  destruct s as [|c s]; [split; [constructor | simpl; lia]|].
  inversion Hs as [|? ? Hc Hs']; subst. cbn [length] in Hn.
  assert (Hlone : forall s', length s' <= n -> wf_string s' ->
            Forall (fun b => (b < 256)%N) (flat_map utf8 (65533%N :: codePoints s'))
            /\ S (length s') <= length (flat_map utf8 (65533%N :: codePoints s'))
               <= 3 * S (length s')).
  { intros s' Hn' Hw. destruct (IH s' Hn' Hw) as [B L].
    cbn [flat_map]. rewrite length_app. split.
    - apply Forall_app. split; [apply utf8_bytes; lia | exact B].
    - change (length (utf8 65533)) with 3. lia. }
  cbn [codePoints].
  destruct (isHighSurrogate c) eqn:Hh.
  - destruct s as [|d s'].
    + split; [apply (utf8_bytes 65533); lia | cbn; lia].
    + destruct (isLowSurrogate d) eqn:Hl.
      * inversion Hs' as [|? ? Hd Hs'']; subst. cbn [length] in Hn.
        destruct (IH s' ltac:(lia) Hs'') as [B L].
        unfold isHighSurrogate in Hh. unfold isLowSurrogate in Hl.
        apply andb_true_iff in Hh, Hl. destruct Hh as [Hh1 Hh2], Hl as [Hl1 Hl2].
        apply N.leb_le in Hh1, Hh2, Hl1, Hl2.
        set (cp := (65536 + (c - 55296) * 1024 + (d - 56320))%N).
        assert (Hcp : (65536 <= cp < 1114112)%N) by (unfold cp; lia).
        cbn [flat_map length]. rewrite length_app. split.
        -- apply Forall_app. split; [apply utf8_bytes; lia | exact B].
        -- assert (E : length (utf8 cp) = 4).
           { unfold utf8.
             assert (E1 : (cp <? 128)%N = false) by (apply N.ltb_ge; lia).
             assert (E2 : (cp <? 2048)%N = false) by (apply N.ltb_ge; lia).
             assert (E3 : (cp <? 65536)%N = false) by (apply N.ltb_ge; lia).
             now rewrite E1, E2, E3. }
           rewrite E. lia.
      * apply (Hlone (d :: s')); [lia | exact Hs'].
  - destruct (isLowSurrogate c) eqn:Hl.
    + apply Hlone; [lia | exact Hs'].
    + destruct (IH s ltac:(lia) Hs') as [B L].
      cbn [flat_map length]. rewrite length_app. split.
      * apply Forall_app. split; [apply utf8_bytes; lia | exact B].
      * assert (E : 1 <= length (utf8 c) <= 3).
        { unfold utf8. destruct (c <? 128)%N; [simpl; lia|].
          destruct (c <? 2048)%N; [simpl; lia|].
          assert (E3 : (c <? 65536)%N = true) by (apply N.ltb_lt; lia).
          rewrite E3. simpl. lia. }
        lia.
Qed.

Lemma unescape_flat_map bytes rest :
  Forall (fun b => (b < 256)%N) bytes ->
  unescape (flat_map escape bytes ++ rest) = bytes ++ unescape rest.
Proof.
  induction 1 as [|b bytes Hb _ IH]; [reflexivity|].
  cbn [flat_map]. rewrite <- app_assoc, unescape_escape by exact Hb.
  now rewrite IH.
Qed.

(** X21: the constant of a string literal is well formed.  Its text
    is made of backslashes and lowercase hexadecimal digits only, so
    it holds no double quote and no line break; read back three
    characters at a time it gives the bytes of the UTF-8 encoding of
    the literal followed by one zero byte; the declared size is the
    number of these bytes, which for a literal of n code units lies
    between n + 1 and 3 n + 1. *)
Theorem string_constant_reads_back (str : jsstring) :
  wf_string str ->
  let '(len, enc) := encode_string str in
  Forall (fun c => c = ch "\" \/ isHex c = true) enc
  /\ unescape enc = encode str ++ [0%N]
  /\ len = N.of_nat (length (unescape enc))
  /\ (N.of_nat (length str) + 1 <= len <= 3 * N.of_nat (length str) + 1)%N.
Proof.
  intros Hs. rewrite encode_string_eq.
  destruct (encode_bytes (length str) str (le_n _) Hs) as [B L].
  assert (U : unescape (flat_map escape (encode str) ++ lit "\00")
              = encode str ++ [0%N])
    by (rewrite unescape_flat_map by exact B; reflexivity).
  split; [|split; [exact U | split]].
  - apply Forall_app. split.
    + apply Forall_flat_map. eapply Forall_impl; [|exact B].
      intros b Hb. now apply escape_chars.
    + constructor; [now left|]. constructor; [now right|].
      constructor; [now right | constructor].
  - rewrite U, length_app. cbn [length]. lia.
  - lia.
Qed.

(** The literal of the two characters U+00E9 and [a]: three bytes and
    the terminator. *)
Lemma string_constant_reads_back_witness :
  let '(len, enc) := encode_string [233%N; ch "a"] in
  Forall (fun c => c = ch "\" \/ isHex c = true) enc
  /\ unescape enc = encode [233%N; ch "a"] ++ [0%N]
  /\ len = N.of_nat (length (unescape enc))
  /\ (N.of_nat 2 + 1 <= len <= 3 * N.of_nat 2 + 1)%N.
Proof.
  apply (string_constant_reads_back [233%N; ch "a"]).
  repeat constructor.
Defined.

(** ** The globals of the variables *)

Lemma declarations_in_head :
  forallb (fun a => existsb (jsstring_eqb (declaration [a])) (lines Compiler.head))
    (lit "abcdefghijklmnopqrstuvwxyz") = true.
Proof. vm_compute. reflexivity. Qed.

Lemma isLower_letters c :
  Tokenizer.isLower c = true -> In c (lit "abcdefghijklmnopqrstuvwxyz").
Proof.
  intros L. apply isLower_range in L.
  assert (H : exists k, k < 26 /\ c = N.of_nat (97 + k)).
  { exists (N.to_nat c - 97). split; lia. }
  destruct H as (k & Hk & ->).
  do 26 (destruct k as [|k]; [simpl; tauto|]). lia.
Qed.

(** X22: every variable that the tokenizer accepts has its global in
    the prologue.  For a lowercase letter the compiler lowers the
    [Variable] node to the push of a reference to [@var_] followed by
    the letter, without a change of its state, and the declaration of
    that global is one of the lines of [head]. *)
Theorem variable_global_is_declared
  (a : N) (c : Compiler.t) (sc : Compiler.Scope) :
  Tokenizer.isLower a = true ->
  Compiler.compileNode (AstNode.Variable_ [a]) c sc
  = (c, Compiler.push sc
          [ lit "call void @stack_push_ref(%union.FalseValue* @var_" ++ [a] ++ lit ")" ])
  /\ In (lit "@var_" ++ [a]
           ++ lit " = private global %union.FalseValue { [8 x i8] zeroinitializer }")
       (lines Compiler.head).
Proof.
  intros L. split; [reflexivity|].
  pose proof declarations_in_head as H. rewrite forallb_forall in H.
  specialize (H a (isLower_letters a L)).
  apply existsb_exists in H. destruct H as (line & Hin & E).
  apply jsstring_eqb_eq in E. subst line. exact Hin.
Qed.

(** The variable [x]. *)
Lemma variable_global_is_declared_witness :
  In (lit "@var_x = private global %union.FalseValue { [8 x i8] zeroinitializer }")
    (lines Compiler.head).
Proof.
  exact (proj2 (variable_global_is_declared (ch "x") Compiler.new Compiler.newScope
                  eq_refl)).
Defined.

(** * Further properties of the output file name *)

Lemma replaceExtension_line_terminators filename :
  forallb (fun d => negb (isLineTerminator d)) (replaceExtension filename) = true ->
  forallb (fun d => negb (isLineTerminator d)) filename = true.
Proof.
  induction filename as [|c rest IH]; [reflexivity|]. cbn [replaceExtension].
  destruct ((c =? ch ".")%N && negb (length rest =? 0)%nat
            && forallb (fun d => negb (isLineTerminator d)) rest)%bool eqn:E.
  - intros _. apply andb_true_iff in E. destruct E as [E E3].
    apply andb_true_iff in E. destruct E as [E1 _]. apply N.eqb_eq in E1. subst c.
    cbn [forallb]. now rewrite E3.
  - cbn [forallb]. intros H. apply andb_true_iff in H. destruct H as [H1 H2].
    now rewrite H1, IH.
Qed.

(** X23: the derived output name is the input name itself or a prefix
    of it followed by [.ll], and deriving a name from a derived name
    changes nothing. *)
Theorem derived_name_is_stable (filename : jsstring) :
  (outFile None filename = filename
   \/ exists base rest,
        filename = base ++ rest /\ outFile None filename = base ++ lit ".ll")
  /\ outFile None (outFile None filename) = outFile None filename.
Proof.
  unfold outFile. induction filename as [|c rest [IH1 IH2]]; [split; [now left | reflexivity]|].
  cbn [replaceExtension].
  destruct ((c =? ch ".")%N && negb (length rest =? 0)%nat
            && forallb (fun d => negb (isLineTerminator d)) rest)%bool eqn:E.
  - split; [|reflexivity]. right. exists [], (c :: rest). split; reflexivity.
  - split.
    + destruct IH1 as [IH1 | (base & rest' & E1 & E2)].
      * left. now rewrite IH1.
      * right. exists (c :: base), rest'. split; [now rewrite E1 | now rewrite E2].
    + cbn [replaceExtension]. rewrite IH2.
      destruct ((c =? ch ".")%N && negb (length (replaceExtension rest) =? 0)%nat
                && forallb (fun d => negb (isLineTerminator d)) (replaceExtension rest))%bool
        eqn:E'; [|reflexivity].
      exfalso. apply andb_true_iff in E'. destruct E' as [E' E3].
      apply andb_true_iff in E'. destruct E' as [E1 E2].
      apply replaceExtension_line_terminators in E3.
      rewrite E1, E3, !andb_true_r in E. cbn [andb] in E.
      destruct rest; [discriminate E2 | discriminate E].
Qed.

(** * The values of integer literals *)

(** A source that is one run of digits is one [Integer] node. *)
Lemma parse_digits digits :
  digits <> [] -> forallb Tokenizer.isDigit digits = true ->
  parse digits = Ok [AstNode.Integer (Tokenizer.parseInt digits)].
Proof.
  intros Hne Hd.
  pose proof (next_digits digits [] Hne Hd I) as E. rewrite app_nil_r in E.
  unfold parse, parse_run, Parser.new, Parser.parseStatements, Parser.next.
  cbn [Parser.tokenizer]. rewrite E. cbn [bind].
  rewrite parseStatements_loop_step. cbn [Parser.currentToken atom].
  unfold Parser.instr, Parser.next. cbn [Parser.tokenizer bind app].
  change (Tokenizer.next []) with (@Ok (option Token * jsstring) (None, [])).
  cbn [bind].
  destruct digits as [|d digits]; [contradiction|]. cbn [length].
  rewrite parseStatements_loop_step. reflexivity.
Qed.

(** [parseInt] of a run of digits, against the decimal value of the
    run. *)
Lemma parseInt_value digits :
  forallb Tokenizer.isDigit digits = true ->
  let d := Tokenizer.decimal digits in
  (0 <= d < 10 ^ Z.of_nat (length digits))%Z
  /\ (d < 2 ^ 53 -> Tokenizer.parseInt digits = Finite d)%Z
  /\ (forall v, Tokenizer.parseInt digits = Finite v ->
                (0 <= v /\ 2 ^ 53 * Z.abs (v - d) <= d)%Z)
  /\ (Tokenizer.parseInt digits = Infinity <-> (2 ^ 1024 - 2 ^ 970 <= d)%Z)
  /\ ((exists v, Tokenizer.parseInt digits = Finite v /\ int32 v)
      <-> (d <= 2 ^ 31 - 1)%Z)
  /\ (length digits <= 9 -> (d <= 2 ^ 31 - 1)%Z).
Proof.
  intros Hd. cbv zeta. pose proof (decimal_range digits Hd) as B.
  unfold Tokenizer.parseInt. set (d := Tokenizer.decimal digits) in *.
  split; [exact B|]. split; [apply toDouble_exact|]. split.
  { intros v E. apply toDouble_Finite in E. subst v.
    split; [apply round53_nonneg; lia | apply round53_near; lia]. }
  split; [apply toDouble_Infinity; lia|]. split.
  - split.
    + intros (v & E & Hv). apply toDouble_Finite in E. subst v.
      destruct (Z.lt_ge_cases d (2 ^ 53)) as [H|H].
      * rewrite round53_exact in Hv by exact H. unfold int32 in Hv. lia.
      * apply round53_ge in H. unfold int32 in Hv. lia.
    + intros H. exists d. split; [apply toDouble_exact; lia | unfold int32; lia].
  - intros L.
    assert (10 ^ Z.of_nat (length digits) <= 10 ^ 9)%Z
      by (apply Z.pow_le_mono_r; lia).
    lia.
Qed.

(** C4, as the code has it.  Every [Integer] node that lexing and
    parsing produce, at any depth of quotation, holds the value of an
    integer literal that stands in the source: the code unit of the
    character after an apostrophe, or [parseInt] of a run of digits
    that the next character does not continue.  For a non-empty run of
    digits of decimal value d, [parseInt] gives d itself when d is
    below 2^53, a non-negative number within d / 2^53 of d otherwise,
    and [Infinity] exactly from 2^1024 - 2^970 on.  Nothing bounds the
    value: it is a signed 32-bit integer exactly when d is at most
    2^31 - 1, which holds for every run of at most nine digits; any
    other run is accepted as well, it parses to an [Integer] node of
    its value, and the code generator writes that value after [i32]
    as [String] prints it, which below 2^53 is with all its decimal
    digits. *)
Theorem C4_integer_nodes_hold_literal_values (source : jsstring) (ast : list AstNode) :
  wf_string source -> parse source = Ok ast ->
  AllIntegers (literalIn source) ast
  /\ (forall digits,
         digits <> [] -> forallb Tokenizer.isDigit digits = true ->
         let d := Tokenizer.decimal digits in
         (0 <= d < 10 ^ Z.of_nat (length digits))%Z
         /\ (d < 2 ^ 53 -> Tokenizer.parseInt digits = Finite d)%Z
         /\ (forall v, Tokenizer.parseInt digits = Finite v ->
                       (0 <= v /\ 2 ^ 53 * Z.abs (v - d) <= d)%Z)
         /\ (Tokenizer.parseInt digits = Infinity <-> (2 ^ 1024 - 2 ^ 970 <= d)%Z)
         /\ ((exists v, Tokenizer.parseInt digits = Finite v /\ int32 v)
             <-> (d <= 2 ^ 31 - 1)%Z)
         /\ (length digits <= 9 -> (d <= 2 ^ 31 - 1)%Z)
         /\ parse digits = Ok [AstNode.Integer (Tokenizer.parseInt digits)]
         /\ (forall c sc,
                Compiler.compileNode
                  (AstNode.Integer (Tokenizer.parseInt digits)) c sc
                = (c, Compiler.push sc
                        [ lit "call void @stack_push_int(i32 "
                            ++ numberToString (Tokenizer.parseInt digits)
                            ++ lit ")" ]))
         /\ (d < 2 ^ 53 ->
             numberToString (Tokenizer.parseInt digits) = toStringZ d)%Z).
Proof.
  intros Hwf E. split; [now apply parse_Integers|].
  intros digits Hne Hd. cbv zeta.
  destruct (parseInt_value digits Hd) as (B & Ex & Near & Inf & I32 & Nine).
  split; [exact B|]. split; [exact Ex|]. split; [exact Near|].
  split; [exact Inf|]. split; [exact I32|]. split; [exact Nine|].
  split; [now apply parse_digits|]. split; [reflexivity|].
  intros H. rewrite (Ex H). apply numberToString_exact. lia.
Qed.

(** The source [['A 2147483648]]: the two nodes hold the values of its
    two literals; and the literal 2147483648 parses on its own. *)
Lemma C4_integer_nodes_hold_literal_values_witness :
  AllIntegers (literalIn (lit "['A 2147483648]"))
    [AstNode.Quote [AstNode.Integer 65; AstNode.Integer 2147483648]]
  /\ parse (lit "2147483648") = Ok [AstNode.Integer 2147483648].
Proof.
  destruct (C4_integer_nodes_hold_literal_values (lit "['A 2147483648]")
              [AstNode.Quote [AstNode.Integer 65; AstNode.Integer 2147483648]])
    as [H1 H2].
  - repeat constructor.
  - vm_compute. reflexivity.
  - split; [exact H1|].
    destruct (H2 (lit "2147483648")) as (_ & _ & _ & _ & _ & _ & P & _).
    + discriminate.
    + reflexivity.
    + exact P.
Defined.

(** C4 as stated fails on the literal 2147483648, which is 2^31: it is
    accepted, its node holds a value above 2^31 - 1, and the code
    generator writes that value after [i32]. *)
Lemma C4_counterexample :
  parse (lit "2147483648") = Ok [AstNode.Integer 2147483648]
  /\ ~ int32 2147483648
  /\ fst (Compiler.compile_ [AstNode.Integer 2147483648] Compiler.new)
     = lit "call void @stack_push_int(i32 2147483648)".
Proof.
  split; [vm_compute; reflexivity|]. split; [unfold int32; lia|].
  vm_compute. reflexivity.
Qed.

(** Literals above 2^53: 2^64 is printed with the 17 digits that read
    back as 2^64 and three zeros, 10^21 and a literal of 30 digits with
    an exponent; a literal of 310 digits is [Infinity]. *)
Example large_literals :
  numberToString (Tokenizer.parseInt (lit "18446744073709551616"))
  = lit "18446744073709552000"
  /\ numberToString (Tokenizer.parseInt (lit "1000000000000000000000"))
     = lit "1e+21"
  /\ numberToString (Tokenizer.parseInt (lit "123456789012345678901234567890"))
     = lit "1.2345678901234568e+29"
  /\ Tokenizer.parseInt (ch "1" :: repeat (ch "0") 309) = Infinity
  /\ fst (Compiler.compile_ [AstNode.Integer Infinity] Compiler.new)
     = lit "call void @stack_push_int(i32 Infinity)".
Proof. repeat split; vm_compute; reflexivity. Qed.
